(** * perfect-freehand: stroke resampling and outline construction

    A shallow embedding of [getStrokeRadius], [getStrokePoints] and
    [getStrokeOutlinePoints], and of the method [clean] of the application
    state.

    JavaScript numbers are kept abstract behind the interface [Num], so that
    every definition is written once, the way the source is written, and is
    then read at two number models:

    - [binary64]: IEEE 754 double precision (Rocq's primitive floats), the
      arithmetic the program really runs on; definitions compute there;
    - [real_numbers]: the real numbers, the idealisation in which the
      metric statements (lengths, radii) are exact.

    Statements that only depend on the control flow are proved for every
    number model at once. *)

From Stdlib Require Import Reals Lra Lia List Bool ZArith.
From Stdlib Require PrimFloat Uint63 FloatClass SpecFloat FloatOps FloatAxioms.
From Stdlib Require String.
Import ListNotations.

Set Implicit Arguments.

(** ** Numbers *)

(** What the program uses of JavaScript's [number]: literals, arithmetic,
    the comparisons [<], [<=] and [===], [Math.min], [Math.max],
    [Math.sqrt] and the conversion to a boolean ([if (x)], [x || y]). *)
Class Num (N : Type) : Type := {
  ofZ : Z -> N;
  nadd : N -> N -> N;
  nsub : N -> N -> N;
  nmul : N -> N -> N;
  ndiv : N -> N -> N;
  nneg : N -> N;
  nltb : N -> N -> bool;
  nleb : N -> N -> bool;
  neqb : N -> N -> bool;
  nmin : N -> N -> N;
  nmax : N -> N -> N;
  nsqrt : N -> N;
  truthy : N -> bool
}.

(** [Math.sin], [Math.cos] and [Math.PI], used by the outline only. *)
Class Trig (N : Type) : Type := {
  nsin : N -> N;
  ncos : N -> N;
  nPI : N
}.

Declare Scope num_scope.
Delimit Scope num_scope with num.
Notation "a + b" := (nadd a b) : num_scope.
Notation "a - b" := (nsub a b) : num_scope.
Notation "a * b" := (nmul a b) : num_scope.
Notation "a / b" := (ndiv a b) : num_scope.
Notation "- a" := (nneg a) : num_scope.
Notation "a <? b" := (nltb a b) : num_scope.
Notation "a <=? b" := (nleb a b) : num_scope.
Notation "a >=? b" := (nleb b a) (at level 70, only parsing) : num_scope.
Notation "a >? b" := (nltb b a) (at level 70, only parsing) : num_scope.
Notation "a === b" := (neqb a b) (at level 70) : num_scope.

(** A decimal literal [n/d]: both integers are exact in either model, and a
    correctly rounded quotient is the double nearest to the decimal, which
    is what the JavaScript literal denotes. *)
Definition dec {N} `{Num N} (n d : Z) : N := (ofZ n / ofZ d)%num.

(** *** IEEE 754 binary64 *)

Module Binary64.
Import PrimFloat.
Local Open Scope float_scope.

Definition of_Z (z : Z) : float :=
  match z with
  | Z0 => 0
  | Zpos _ => of_uint63 (Uint63.of_Z z)
  | Zneg p => - of_uint63 (Uint63.of_Z (Zpos p))
  end.

Definition is_neg_zero (a : float) : bool := (a =? 0) && (1 / a <? 0).

(** [Math.min]: NaN if either argument is NaN, and [-0] below [+0]. *)
Definition min (a b : float) : float :=
  if is_nan a || is_nan b then nan
  else if a <? b then a
  else if b <? a then b
  else if is_neg_zero a then a else b.

(** [Math.max]: NaN if either argument is NaN, and [+0] above [-0]. *)
Definition max (a b : float) : float :=
  if is_nan a || is_nan b then nan
  else if a <? b then b
  else if b <? a then a
  else if is_neg_zero a then b else a.

(** ToBoolean: [0], [-0] and NaN are false. *)
Definition to_boolean (a : float) : bool := negb (a =? 0) && negb (is_nan a).

(** Neither NaN nor an infinity ([Number.isFinite]). *)
Definition finite (a : float) : bool :=
  match classify a with
  | FloatClass.NaN | FloatClass.PInf | FloatClass.NInf => false
  | _ => true
  end.
End Binary64.

#[export] Instance binary64 : Num PrimFloat.float := {|
  ofZ := Binary64.of_Z;
  nadd := PrimFloat.add;
  nsub := PrimFloat.sub;
  nmul := PrimFloat.mul;
  ndiv := PrimFloat.div;
  nneg := PrimFloat.opp;
  nltb := PrimFloat.ltb;
  nleb := PrimFloat.leb;
  neqb := PrimFloat.eqb;
  nmin := Binary64.min;
  nmax := Binary64.max;
  nsqrt := PrimFloat.sqrt;
  truthy := Binary64.to_boolean
|}.

(** *** Real numbers *)

Module Exact.
Local Open Scope R_scope.

Definition ltb (a b : R) : bool := if Rlt_dec a b then true else false.
Definition leb (a b : R) : bool := if Rle_dec a b then true else false.
Definition eqb (a b : R) : bool := if Req_dec_T a b then true else false.
Definition to_boolean (a : R) : bool := negb (eqb a 0).
End Exact.

#[export] Instance real_numbers : Num R := {|
  ofZ := IZR;
  nadd := Rplus;
  nsub := Rminus;
  nmul := Rmult;
  ndiv := Rdiv;
  nneg := Ropp;
  nltb := Exact.ltb;
  nleb := Exact.leb;
  neqb := Exact.eqb;
  nmin := Rmin;
  nmax := Rmax;
  nsqrt := sqrt;
  truthy := Exact.to_boolean
|}.

#[export] Instance real_trig : Trig R := {|
  nsin := sin;
  ncos := cos;
  nPI := PI
|}.

(** ** Vectors

    The module [./vec] is imported by both source files but is not part of
    the sources at hand; its operations are modelled from the specification
    (section 4.1, VectorMath). *)

Section Vec.
Context {N : Type} {num : Num N}.
Local Open Scope num_scope.

(** Points and vectors are numeric pairs [[x, y]]. *)
Definition Vec : Type := (N * N)%type.

(** Modelled from the spec: [add] of ./vec, the sum of two vectors. *)
Definition add (A B : Vec) : Vec := (fst A + fst B, snd A + snd B).

(** Modelled from the spec: [sub] of ./vec, the difference of two vectors. *)
Definition sub (A B : Vec) : Vec := (fst A - fst B, snd A - snd B).

(** Modelled from the spec: [mul(v, scalar)] of ./vec. *)
Definition mul (A : Vec) (n : N) : Vec := (fst A * n, snd A * n).

(** Modelled from the spec: [neg] of ./vec. *)
Definition neg (A : Vec) : Vec := (- fst A, - snd A).

(** Modelled from the spec: [per] of ./vec, "rotate 90 degrees, defined as
    (v.y, -v.x)". *)
Definition per (A : Vec) : Vec := (snd A, - fst A).

(** Modelled from the spec: [dpr] of ./vec, the dot product. *)
Definition dpr (A B : Vec) : N := fst A * fst B + snd A * snd B.

(** Modelled from the spec: [lrp(a,b,t)] of ./vec, "a + (b-a)*t". *)
Definition lrp (A B : Vec) (t : N) : Vec := add A (mul (sub B A) t).

(** Modelled from the spec: [dist2] of ./vec, the squared distance. *)
Definition dist2 (A B : Vec) : N := let d := sub A B in dpr d d.

(** Modelled from the spec: the length of a vector, used by [dist] and
    [uni] of ./vec. *)
Definition len (A : Vec) : N := nsqrt (dpr A A).

(** Modelled from the spec: [dist] of ./vec, the distance of two points. *)
Definition dist (A B : Vec) : N := len (sub A B).

(** Modelled from the spec: [isEqual] of ./vec, componentwise [===]. *)
Definition isEqual (A B : Vec) : bool :=
  (fst A === fst B) && (snd A === snd B).

(** Modelled from the spec: [uni] of ./vec, "normalize; must not produce
    NaN for a zero-length vector - return (0,0)". *)
Definition uni (A : Vec) : Vec :=
  let l := len A in
  if l === ofZ 0 then (ofZ 0, ofZ 0) else (fst A / l, snd A / l).

(** Modelled from the spec: [prj(point, direction, distance)] of ./vec,
    "point moved along a unit direction by a signed distance". *)
Definition prj (A B : Vec) (c : N) : Vec := add A (mul B c).

(** Modelled from the spec: [rotAround(point, pivot, angle)] of ./vec,
    "rotate a point about a pivot by a signed angle in radians, standard
    right-hand convention". *)
Definition rotAround {trig : Trig N} (A C : Vec) (r : N) : Vec :=
  let s := nsin r in
  let c := ncos r in
  let px := fst A - fst C in
  let py := snd A - snd C in
  (px * c - py * s + fst C, px * s + py * c + snd C).
End Vec.

Arguments Vec N : clear implicits.

(** ** getStrokeRadius *)

Section Radius.
Context {N : Type} {num : Num N}.
Local Open Scope num_scope.

(** The default [easing], [t => t]. *)
Definition linear (t : N) : N := t.

Definition getStrokeRadius (size thinning pressure : N) (easing : N -> N) : N :=
  size * easing (dec 5 10 - thinning * (dec 5 10 - pressure)).
End Radius.

(** ** Data model *)

(** An input point, [[x, y, pressure?]] or [{x, y, pressure?}]; an absent
    pressure ([undefined]) is [None]. *)
Record InputPoint (N : Type) : Type := {
  in_x : N;
  in_y : N;
  in_pressure : option N
}.

(** The input of [getStrokePoints]: an array of tuples or an array of
    records ([Array.isArray(points[0])] tells them apart). *)
Inductive Points (N : Type) : Type :=
| Tuples (l : list (InputPoint N))
| Objects (l : list (InputPoint N)).

Record StrokePoint (N : Type) : Type := {
  point : Vec N;
  pressure : N;
  vector : Vec N;
  distance : N;
  runningLength : N
}.

Arguments point {N} _.
Arguments pressure {N} _.
Arguments vector {N} _.
Arguments distance {N} _.
Arguments runningLength {N} _.

(** The options object, with the names the two functions give its fields
    when they read it ([options.last] is [isComplete], [options.start.taper]
    is [taperStart], and so on).  A field left out of the JavaScript object
    takes the value it has in [defaultOptions]. *)
Record StrokeOptions (N : Type) : Type := {
  size : N;
  thinning : N;
  smoothing : N;
  streamline : N;
  easing : N -> N;
  simulatePressure : bool;
  capStart : bool;
  taperStart : N;
  taperStartEase : N -> N;
  capEnd : bool;
  taperEnd : N;
  taperEndEase : N -> N;
  isComplete : bool
}.

Section Defaults.
Context {N : Type} {num : Num N}.
Local Open Scope num_scope.

(** [t => t * (2 - t)] *)
Definition defaultStartEase (t : N) : N := t * (ofZ 2 - t).

(** [t => --t * t * t + 1] *)
Definition defaultEndEase (t : N) : N :=
  let t := t - ofZ 1 in t * t * t + ofZ 1.

Definition defaultOptions : StrokeOptions N := {|
  size := ofZ 16;
  thinning := dec 5 10;
  smoothing := dec 5 10;
  streamline := dec 5 10;
  easing := linear;
  simulatePressure := true;
  capStart := true;
  taperStart := ofZ 0;
  taperStartEase := defaultStartEase;
  capEnd := true;
  taperEnd := ofZ 0;
  taperEndEase := defaultEndEase;
  isComplete := false
|}.
End Defaults.

(** ** getStrokePoints *)

Section GetStrokePoints.
Context {N : Type} {num : Num N}.
Local Open Scope num_scope.

Definition xy (p : InputPoint N) : Vec N := (in_x p, in_y p).

(** A two-element array [[x, y]] read as an input point: [p[2]] is
    [undefined]. *)
Definition ofVec (v : Vec N) : InputPoint N :=
  {| in_x := fst v; in_y := snd v; in_pressure := None |}.

(** [p[2] >= 0 ? p[2] : d]; the comparison is false on [undefined]. *)
Definition pressureOr (p : InputPoint N) (d : N) : N :=
  match in_pressure p with
  | Some v => if v >=? ofZ 0 then v else d
  | None => d
  end.

(** [Array.isArray(points[0]) ? points
     : points.map(({x, y, pressure = 0.5}) => [x, y, pressure])] *)
Definition toArrays (points : Points N) : list (InputPoint N) :=
  match points with
  | Tuples l => l
  | Objects l =>
      map (fun p =>
             {| in_x := in_x p; in_y := in_y p;
                in_pressure := Some (match in_pressure p with
                                     | Some v => v
                                     | None => dec 5 10
                                     end) |}) l
  end.

(** [if (pts.length === 2) { ... pts.push(lrp(pts[0], last, i / 4)) ... }] *)
Definition addExtraPoints (pts : list (InputPoint N)) : list (InputPoint N) :=
  match pts with
  | [first; last] =>
      first :: map (fun i => ofVec (lrp (xy first) (xy last) (ofZ i / ofZ 4)))
                   [1; 2; 3; 4]%Z
  | _ => pts
  end.

(** [if (pts.length === 1) pts = [...pts, [...add(pts[0], [1, 1]), ...pts[0].slice(2)]]] *)
Definition addOffsetPoint (pts : list (InputPoint N)) : list (InputPoint N) :=
  match pts with
  | [first] =>
      let v := add (xy first) (ofZ 1, ofZ 1) in
      [first; {| in_x := fst v; in_y := snd v; in_pressure := in_pressure first |}]
  | _ => pts
  end.

(** The array [pts] the loop runs over. *)
Definition preparePoints (points : Points N) : list (InputPoint N) :=
  addOffsetPoint (addExtraPoints (toArrays points)).

(** The variables the loop updates. *)
Record ResampleState : Type := {
  strokePoints : list (StrokePoint N);
  hasReachedMinimumLength : bool;
  totalLength : N;                 (* the variable [runningLength] *)
  prev : StrokePoint N
}.

(** One turn of [for (var i = 1; i < pts.length; i++)], on [raw = pts[i]]. *)
Definition resampleStep (complete : bool) (t sz : N) (max i : nat)
    (raw : InputPoint N) (st : ResampleState) : ResampleState :=
  let pt :=
    if complete && (i =? max)%nat then xy raw
    else lrp (point (prev st)) (xy raw) t in
  if isEqual (point (prev st)) pt then st
  else
    let d := dist pt (point (prev st)) in
    let rl := totalLength st + d in
    let emit (reached : bool) :=
      let p := {| point := pt;
                  pressure := pressureOr raw (dec 5 10);
                  vector := uni (sub (point (prev st)) pt);
                  distance := d;
                  runningLength := rl |} in
      {| strokePoints := strokePoints st ++ [p];
         hasReachedMinimumLength := reached;
         totalLength := rl;
         prev := p |} in
    if (i <? max)%nat && negb (hasReachedMinimumLength st) then
      if rl <? sz then
        (* continue: the distance stays added to the running length *)
        {| strokePoints := strokePoints st;
           hasReachedMinimumLength := hasReachedMinimumLength st;
           totalLength := rl;
           prev := prev st |}
      else emit true
    else emit (hasReachedMinimumLength st).

Fixpoint resampleLoop (complete : bool) (t sz : N) (max i : nat)
    (rest : list (InputPoint N)) (st : ResampleState) : ResampleState :=
  match rest with
  | [] => st
  | raw :: rest' =>
      resampleLoop complete t sz max (S i) rest'
        (resampleStep complete t sz max i raw st)
  end.

(** [strokePoints[0].vector = strokePoints[1]?.vector || [0, 0]] *)
Definition setFirstVector (sps : list (StrokePoint N)) : list (StrokePoint N) :=
  match sps with
  | [] => []
  | first :: rest =>
      {| point := point first;
         pressure := pressure first;
         vector := match rest with
                   | second :: _ => vector second
                   | [] => (ofZ 0, ofZ 0)
                   end;
         distance := distance first;
         runningLength := runningLength first |} :: rest
  end.

Definition getStrokePoints (points : Points N) (options : StrokeOptions N)
    : list (StrokePoint N) :=
  match toArrays points with
  | [] => []
  | _ :: _ =>
      let t := dec 15 100 + (ofZ 1 - streamline options) * dec 85 100 in
      match preparePoints points with
      | [] => []
      | p0 :: rest =>
          let first := {| point := (in_x p0, in_y p0);
                          pressure := pressureOr p0 (dec 25 100);
                          vector := (ofZ 1, ofZ 1);
                          distance := ofZ 0;
                          runningLength := ofZ 0 |} in
          let st := {| strokePoints := [first];
                       hasReachedMinimumLength := false;
                       totalLength := ofZ 0;
                       prev := first |} in
          setFirstVector
            (strokePoints
               (resampleLoop (isComplete options) t (size options)
                  (length rest) 1 rest st))
      end
  end.
End GetStrokePoints.

Arguments ResampleState N : clear implicits.

(** ** getStrokeOutlinePoints *)

(** How a call ends: it returns a value, it throws (the only exception the
    code can raise is the TypeError of reading a property of [undefined]),
    or one of its counting loops is still running when the fuel given to it
    is spent. *)
Inductive Completion (A : Type) : Type :=
| Normal (a : A)
| TypeError
| Unfinished.

Arguments TypeError {A}.
Arguments Unfinished {A}.

Definition bind {A B : Type} (m : Completion A) (k : A -> Completion B)
    : Completion B :=
  match m with
  | Normal a => k a
  | TypeError => TypeError
  | Unfinished => Unfinished
  end.

Notation "x <- m ;; k" := (bind m (fun x => k))
  (at level 61, m at next level, right associativity).

(** [a[i]] where the element is then dereferenced. *)
Definition lookup {A : Type} (l : list A) (i : nat) : Completion A :=
  match nth_error l i with
  | Some a => Normal a
  | None => TypeError
  end.

(** Turns allowed to one counting loop; the longest one takes 29. *)
Definition LOOP_FUEL : nat := 64.

Section Loops.
Context {N : Type} {num : Num N}.
Local Open Scope num_scope.

(** [for (t = t0; cond(t); t += step) body], the loops over a number. *)
Fixpoint forT {A : Type} (fuel : nat) (cond : N -> bool) (step t : N)
    (body : N -> A -> Completion A) (acc : A) : Completion A :=
  match fuel with
  | O => Unfinished
  | S fuel' =>
      if cond t then
        acc' <- body t acc ;;
        forT fuel' cond step (t + step) body acc'
      else Normal acc
  end.

(** The values [t] takes in such a loop. *)
Definition ticks (fuel : nat) (cond : N -> bool) (step t : N)
    : Completion (list N) :=
  forT fuel cond step t (fun t acc => Normal (acc ++ [t])) [].
End Loops.

Section GetStrokeOutlinePoints.
Context {N : Type} {num : Num N} {trig : Trig N}.
Local Open Scope num_scope.

Definition RATE_OF_PRESSURE_CHANGE : N := dec 275 1000.
Definition FIXED_PI : N := nPI + dec 1 10000.

(** The variables the main loop updates ([pL], [pR], [tL], [tR] are the
    source's [pl], [pr], [tl], [tr]). *)
Record OutlineState : Type := {
  leftPts : list (Vec N);
  rightPts : list (Vec N);
  prevPressure : N;
  radius : N;
  firstRadius : option N;
  prevVector : Vec N;
  pL : Vec N;
  pR : Vec N;
  tL : Vec N;
  tR : Vec N
}.

(** The simulated pressure, from the distance to the previous point. *)
Definition simulated (sz d acc : N) : N :=
  let sp := nmin (ofZ 1) (d / sz) in
  let rp := nmin (ofZ 1) (ofZ 1 - sp) in
  nmin (ofZ 1) (acc + (rp - acc) * (sp * RATE_OF_PRESSURE_CHANGE)).

(** [points.slice(0, 10).reduce(..., points[0].pressure)] *)
Definition initialPressure (o : StrokeOptions N) (points : list (StrokePoint N))
    (p0 : StrokePoint N) : N :=
  fold_left
    (fun acc curr =>
       let pressure :=
         if simulatePressure o then simulated (size o) (distance curr) acc
         else pressure curr in
       (acc + pressure) / ofZ 2)
    (firstn 10 points) (pressure p0).

(** The body of the sharp-corner loop. *)
Definition cornerBody (pt offset : Vec N) (t : N) (st : OutlineState)
    : Completion OutlineState :=
  let l := rotAround (sub pt offset) pt (FIXED_PI * t) in
  let r := rotAround (add pt offset) pt (FIXED_PI * - t) in
  Normal {| leftPts := leftPts st ++ [l];
            rightPts := rightPts st ++ [r];
            prevPressure := prevPressure st;
            radius := radius st;
            firstRadius := firstRadius st;
            prevVector := prevVector st;
            pL := pL st;
            pR := pR st;
            tL := l;
            tR := r |}.

(** The pressure of the point: [if (thinning) { if (simulatePressure)
    pressure = min(1, prevPressure + ...) }], else the point's own. *)
Definition pressureAt (o : StrokeOptions N) (p : StrokePoint N) (prevP : N) : N :=
  if truthy (thinning o) then
    if simulatePressure o
    then simulated (size o) (distance p) prevP
    else pressure p
  else pressure p.

(** The radius before tapering: [getStrokeRadius(...)] if [thinning],
    else [size / 2]. *)
Definition radiusAt (o : StrokeOptions N) (pressure : N) : N :=
  if truthy (thinning o)
  then getStrokeRadius (size o) (thinning o) pressure (easing o)
  else size o / ofZ 2.

(** [Math.max(0.01, radius * Math.min(ts, te))] *)
Definition tapered (o : StrokeOptions N) (total : N) (p : StrokePoint N)
    (radius0 : N) : N :=
  let ts :=
    if runningLength p <? taperStart o
    then taperStartEase o (runningLength p / taperStart o)
    else ofZ 1 in
  let te :=
    if total - runningLength p <? taperEnd o
    then taperEndEase o ((total - runningLength p) / taperEnd o)
    else ofZ 1 in
  nmax (dec 1 100) (radius0 * nmin ts te).

(** One turn of [for (var i = 0; i < points.length; i++)], on
    [p = points[i]]. *)
Definition outlineStep (o : StrokeOptions N) (points : list (StrokePoint N))
    (total minDistance : N) (i : nat) (p : StrokePoint N) (st : OutlineState)
    : Completion OutlineState :=
  if (i <? length points - 1)%nat && (total - runningLength p <? ofZ 3)
  then Normal st
  else
    let pressure := pressureAt o p (prevPressure st) in
    let radius0 := radiusAt o pressure in
    let firstRadius :=
      match firstRadius st with
      | None => Some radius0
      | Some r => Some r
      end in
    let radius := tapered o total p radius0 in
    if (i =? length points - 1)%nat then
      let offset := mul (per (vector p)) radius in
      Normal {| leftPts := leftPts st ++ [sub (point p) offset];
                rightPts := rightPts st ++ [add (point p) offset];
                prevPressure := prevPressure st;
                radius := radius;
                firstRadius := firstRadius;
                prevVector := prevVector st;
                pL := pL st;
                pR := pR st;
                tL := tL st;
                tR := tR st |}
    else
      next <- lookup points (i + 1) ;;
      let nextVector := vector next in
      let nextDpr := dpr (vector p) nextVector in
      if nextDpr <? ofZ 0 then
        let offset := mul (per (prevVector st)) radius in
        st' <- forT LOOP_FUEL (fun t => t <=? ofZ 1) (ofZ 1 / ofZ 13) (ofZ 0)
                 (cornerBody (point p) offset)
                 {| leftPts := leftPts st;
                    rightPts := rightPts st;
                    prevPressure := prevPressure st;
                    radius := radius;
                    firstRadius := firstRadius;
                    prevVector := prevVector st;
                    pL := pL st;
                    pR := pR st;
                    tL := tL st;
                    tR := tR st |} ;;
        Normal {| leftPts := leftPts st';
                  rightPts := rightPts st';
                  prevPressure := prevPressure st';
                  radius := radius;
                  firstRadius := firstRadius;
                  prevVector := prevVector st';
                  pL := tL st';
                  pR := tR st';
                  tL := tL st';
                  tR := tR st' |}
      else
        let offset := mul (per (lrp nextVector (vector p) nextDpr)) radius in
        let l := sub (point p) offset in
        let keepL := (i <=? 1)%nat || (dist2 (pL st) l >? minDistance) in
        let r := add (point p) offset in
        let keepR := (i <=? 1)%nat || (dist2 (pR st) r >? minDistance) in
        Normal {| leftPts := if keepL then leftPts st ++ [l] else leftPts st;
                  rightPts := if keepR then rightPts st ++ [r] else rightPts st;
                  prevPressure := pressure;
                  radius := radius;
                  firstRadius := firstRadius;
                  prevVector := vector p;
                  pL := if keepL then l else pL st;
                  pR := if keepR then r else pR st;
                  tL := l;
                  tR := r |}.

Fixpoint outlineLoop (o : StrokeOptions N) (points : list (StrokePoint N))
    (total minDistance : N) (i : nat) (rest : list (StrokePoint N))
    (st : OutlineState) : Completion OutlineState :=
  match rest with
  | [] => Normal st
  | p :: rest' =>
      st' <- outlineStep o points total minDistance i p st ;;
      outlineLoop o points total minDistance (S i) rest' st'
  end.

(** The dot drawn for a stroke of one point. *)
Definition dot (firstPoint lastPoint : Vec N) (st : OutlineState)
    : Completion (list (Vec N)) :=
  let r := match firstRadius st with
           | Some fr => if truthy fr then fr else radius st
           | None => radius st
           end in
  let start := prj firstPoint (uni (per (sub firstPoint lastPoint))) (- r) in
  forT LOOP_FUEL (fun t => t <=? ofZ 1) (ofZ 1 / ofZ 13) (ofZ 1 / ofZ 13)
    (fun t dotPts =>
       Normal (dotPts ++ [rotAround start firstPoint (FIXED_PI * ofZ 2 * t)]))
    [].

Definition startCapOf (o : StrokeOptions N) (n : nat) (firstPoint : Vec N)
    (st : OutlineState) : Completion (list (Vec N)) :=
  if truthy (taperStart o) || (truthy (taperEnd o) && (n =? 1)%nat) then
    Normal []
  else if capStart o then
    forT LOOP_FUEL (fun t => t <=? ofZ 1) (ofZ 1 / ofZ 13) (ofZ 1 / ofZ 13)
      (fun t startCap =>
         r0 <- lookup (rightPts st) 0 ;;
         Normal (startCap ++ [rotAround r0 firstPoint (FIXED_PI * t)]))
      []
  else
    l0 <- lookup (leftPts st) 0 ;;
    r0 <- lookup (rightPts st) 0 ;;
    let cornersVector := sub l0 r0 in
    let offsetA := mul cornersVector (dec 5 10) in
    let offsetB := mul cornersVector (dec 51 100) in
    Normal [sub firstPoint offsetA; sub firstPoint offsetB;
            add firstPoint offsetB; add firstPoint offsetA].

Definition endCapOf (o : StrokeOptions N) (n : nat) (lastPoint : Vec N)
    (pLast : StrokePoint N) (st : OutlineState) : Completion (list (Vec N)) :=
  let direction := per (neg (vector pLast)) in
  if truthy (taperEnd o) || (truthy (taperStart o) && (n =? 1)%nat) then
    Normal [lastPoint]
  else if capEnd o then
    let start := prj lastPoint direction (radius st) in
    forT LOOP_FUEL (fun t => t <? ofZ 1) (ofZ 1 / ofZ 29) (ofZ 1 / ofZ 29)
      (fun t endCap =>
         Normal (endCap ++ [rotAround start lastPoint (FIXED_PI * ofZ 3 * t)]))
      []
  else
    let r := radius st in
    Normal [add lastPoint (mul direction r);
            add lastPoint (mul direction (r * dec 99 100));
            sub lastPoint (mul direction (r * dec 99 100));
            sub lastPoint (mul direction r)].

Definition getStrokeOutlinePoints (points : list (StrokePoint N))
    (o : StrokeOptions N) : Completion (list (Vec N)) :=
  match points with
  | [] => Normal []
  | p0 :: _ =>
      if size o <=? ofZ 0 then Normal []
      else
        let n := length points in
        let pLast := last points p0 in
        let total := runningLength pLast in
        (* Math.pow(size * smoothing, 2), taken as the square *)
        let minDistance := let s := size o * smoothing o in s * s in
        let st0 :=
          {| leftPts := [];
             rightPts := [];
             prevPressure := initialPressure o points p0;
             radius := getStrokeRadius (size o) (thinning o) (pressure pLast)
                         (easing o);
             firstRadius := None;
             prevVector := vector p0;
             pL := point p0;
             pR := point p0;
             tL := point p0;
             tR := point p0 |} in
        st <- outlineLoop o points total minDistance 0 points st0 ;;
        let firstPoint := point p0 in
        let lastPoint :=
          if (1 <? n)%nat then point pLast
          else add (point p0) (ofZ 1, ofZ 1) in
        let finish (startCap endCap : list (Vec N)) :=
          Normal (leftPts st ++ endCap ++ rev (rightPts st) ++ startCap) in
        if (n =? 1)%nat then
          if negb (truthy (taperStart o) || truthy (taperEnd o)) || isComplete o
          then dot firstPoint lastPoint st
          else finish [] []
        else
          startCap <- startCapOf o n firstPoint st ;;
          endCap <- endCapOf o n lastPoint pLast st ;;
          finish startCap endCap
  end.
End GetStrokeOutlinePoints.

Arguments OutlineState N : clear implicits.

(** * AppState.clean

    [clean] is the one method of the class [AppState] whose effect does not
    go through the state manager: it deletes, in place, every property of
    [state.page.shapes] whose value is not a shape, and returns the state. *)

Section Clean.
Variable Shape : Type.

(** The object [state.page.shapes]: its own properties in the order of
    enumeration, each with its value, a shape or [undefined].  An object has
    no key twice. *)
Definition Shapes : Type := list (String.string * option Shape).

(** [shapes[id]]: [None] if the object has no such property. *)
Definition getShape (id : String.string) (shapes : Shapes)
    : option (option Shape) :=
  option_map snd (find (fun e => String.eqb (fst e) id) shapes).

(** [delete shapes[id]] *)
Definition deleteShape (id : String.string) (shapes : Shapes) : Shapes :=
  filter (fun e => negb (String.eqb (fst e) id)) shapes.

(** [!shapes[id]]: a shape is an object, and so true as a condition. *)
Definition isMissing (id : String.string) (shapes : Shapes) : bool :=
  match getShape id shapes with
  | Some (Some _) => false
  | _ => true
  end.

(** [for (const id in shapes) { if (!shapes[id]) delete shapes[id] }]: the
    keys are those the object has when the loop starts, and a turn deletes
    no key but its own. *)
Definition clean (shapes : Shapes) : Shapes :=
  fold_left (fun acc id => if isMissing id acc then deleteShape id acc else acc)
    (map fst shapes) shapes.

(** The property holds a shape. *)
Definition holdsShape (e : String.string * option Shape) : bool :=
  match snd e with
  | Some _ => true
  | None => false
  end.
End Clean.

Arguments getShape {Shape} id shapes.
Arguments deleteShape {Shape} id shapes.
Arguments isMissing {Shape} id shapes.
Arguments clean {Shape} shapes.
Arguments holdsShape {Shape} e.

(** * Notions used in the statements *)

Unset Implicit Arguments.

(** What the proofs about the control flow need of a number model: [0] is
    false as a condition, and the three counting loops of the outline end:
    the corner loop ([t] from [0] by [1/13] while [t <= 1]), the loop of the
    dot and of the round start cap ([t] from [1/13] by [1/13] while
    [t <= 1], 13 turns) and the loop of the round end cap ([t] from [1/29]
    by [1/29] while [t < 1]). *)
Class Counters (N : Type) {num : Num N} : Prop := {
  truthy_zero : truthy (ofZ 0 : N) = false;
  corner_ticks :
    exists ts : list N,
      ticks LOOP_FUEL (fun t => t <=? ofZ 1)%num (ofZ 1 / ofZ 13)%num (ofZ 0)
      = Normal ts;
  round_ticks :
    exists ts : list N,
      ticks LOOP_FUEL (fun t => t <=? ofZ 1)%num (ofZ 1 / ofZ 13)%num
        (ofZ 1 / ofZ 13)%num = Normal ts
      /\ length ts = 13%nat;
  end_ticks :
    exists ts : list N,
      ticks LOOP_FUEL (fun t => t <? ofZ 1)%num (ofZ 1 / ofZ 29)%num
        (ofZ 1 / ofZ 29)%num = Normal ts
      /\ (28 <= length ts)%nat
}.

Arguments Counters N {num}.

Section Notions.
Context {N : Type} {num : Num N} {trig : Trig N}.
Local Open Scope num_scope.

(** [st'] has the points of [st] and possibly more, on both sides. *)
Definition grows (st st' : OutlineState N) : Prop :=
  (exists ls, leftPts st' = leftPts st ++ ls)
  /\ (exists rs, rightPts st' = rightPts st ++ rs).

(** Both sides have a point. *)
Definition sided (st : OutlineState N) : Prop :=
  leftPts st <> [] /\ rightPts st <> [].

(** The state after one turn of the corner loop. *)
Definition cornerTurn (pt offset : Vec N) (t : N) (st : OutlineState N)
    : OutlineState N :=
  let l := rotAround (sub pt offset) pt (FIXED_PI * t) in
  let r := rotAround (add pt offset) pt (FIXED_PI * - t) in
  {| leftPts := leftPts st ++ [l];
     rightPts := rightPts st ++ [r];
     prevPressure := prevPressure st;
     radius := radius st;
     firstRadius := firstRadius st;
     prevVector := prevVector st;
     pL := pL st;
     pR := pR st;
     tL := l;
     tR := r |}.

(** The number of points of the start cap of a stroke of several points:
    none if the start is tapered, 13 if the cap is round, 4 if it is flat. *)
Definition startCapLength (o : StrokeOptions N) : nat :=
  if truthy (taperStart o) then 0 else if capStart o then 13 else 4.

(** The least number of points of its end cap: the last point alone if the
    end is tapered, 28 at least if the cap is round (28 over the reals, 29 in
    binary64), 4 if it is flat. *)
Definition endCapLength (o : StrokeOptions N) : nat :=
  if truthy (taperEnd o) then 1 else if capEnd o then 28 else 4.

(** The state the main loop starts from. *)
Definition initialState (o : StrokeOptions N) (points : list (StrokePoint N))
    (p0 : StrokePoint N) : OutlineState N :=
  {| leftPts := [];
     rightPts := [];
     prevPressure := initialPressure o points p0;
     radius := getStrokeRadius (size o) (thinning o)
                 (pressure (last points p0)) (easing o);
     firstRadius := None;
     prevVector := vector p0;
     pL := point p0;
     pR := point p0;
     tL := point p0;
     tR := point p0 |}.

(** The radius at which the only point of a one-point stroke is drawn. *)
Definition singleRadius (o : StrokeOptions N) (p : StrokePoint N) : N :=
  tapered o (runningLength p) p
    (radiusAt o (pressureAt o p (initialPressure o [p] p))).

(** The first radius computed for a one-point stroke, before tapering. *)
Definition singleFirstRadius (o : StrokeOptions N) (p : StrokePoint N) : N :=
  radiusAt o (pressureAt o p (initialPressure o [p] p)).

(** The radius of the dot, [firstRadius || radius]: the first radius
    computed, or the radius kept for the point if that is 0. *)
Definition dotRadius (o : StrokeOptions N) (p : StrokePoint N) : N :=
  if truthy (singleFirstRadius o p) then singleFirstRadius o p
  else singleRadius o p.


(** A stroke of one point is drawn as a dot:
    [!(taperStart || taperEnd) || isComplete]. *)
Definition drawsDot (o : StrokeOptions N) : bool :=
  negb (truthy (taperStart o) || truthy (taperEnd o)) || isComplete o.

(** A stroke point at the origin, as the resampler makes it from the tuples
    [[0,0],[0,0]]. *)
Definition originPoint : StrokePoint N :=
  {| point := (ofZ 0, ofZ 0);
     pressure := dec 25 100;
     vector := (ofZ 0, ofZ 0);
     distance := ofZ 0;
     runningLength := ofZ 0 |}.

(** The position tried at index [i]. *)
Definition candidate (complete : bool) (t : N) (max i : nat)
    (raw : InputPoint N) (st : ResampleState N) : Vec N :=
  if complete && (i =? max)%nat then xy raw
  else lrp (point (prev st)) (xy raw) t.

(** The stroke point made at a position. *)
Definition emitted (raw : InputPoint N) (st : ResampleState N) (pt : Vec N)
    (d rl : N) : StrokePoint N :=
  {| point := pt;
     pressure := pressureOr raw (dec 5 10);
     vector := uni (sub (point (prev st)) pt);
     distance := d;
     runningLength := rl |}.

(** The interpolation level [t]. *)
Definition interpolation (o : StrokeOptions N) : N :=
  dec 15 100 + (ofZ 1 - streamline o) * dec 85 100.

(** The first stroke point, before its vector is set. *)
Definition firstStrokePoint (p0 : InputPoint N) : StrokePoint N :=
  {| point := (in_x p0, in_y p0);
     pressure := pressureOr p0 (dec 25 100);
     vector := (ofZ 1, ofZ 1);
     distance := ofZ 0;
     runningLength := ofZ 0 |}.

(** The state the loop starts from. *)
Definition startState (p0 : InputPoint N) : ResampleState N :=
  {| strokePoints := [firstStrokePoint p0];
     hasReachedMinimumLength := false;
     totalLength := ofZ 0;
     prev := firstStrokePoint p0 |}.

(** The loop keeps the first stroke point, and every other stroke point
    has the pressure of a raw point of [all], or 0.5 in its place. *)
Definition pressuresFrom (all : list (InputPoint N)) (first : StrokePoint N)
    (sps : list (StrokePoint N)) : Prop :=
  exists more,
    sps = first :: more
    /\ Forall (fun sp => exists raw,
                   In raw all /\ pressure sp = pressureOr raw (dec 5 10)) more.

(** A stroke point without its pressure. *)
Definition geometry (p : StrokePoint N) : Vec N * Vec N * N * N :=
  (point p, vector p, distance p, runningLength p).

(** The loop's variables, without [prevPressure] and [radius]. *)
Definition view (st : OutlineState N)
    : list (Vec N) * list (Vec N) * option N * Vec N
      * Vec N * Vec N * Vec N * Vec N :=
  (leftPts st, rightPts st, firstRadius st, prevVector st,
   pL st, pR st, tL st, tR st).

(** Two calls end alike: both return, with results related by [R], or both
    throw, or both run out of fuel. *)
Definition alike {A : Type} (R : A -> A -> Prop) (c c' : Completion A) : Prop :=
  match c, c' with
  | Normal a, Normal a' => R a a'
  | TypeError, TypeError => True
  | Unfinished, Unfinished => True
  | _, _ => False
  end.

End Notions.

(** Options changed in one field, the way a caller writes
    [{...options, size: 0}]. *)
Section OptionUpdates.
Context {N : Type}.

Definition withSize (sz : N) (o : StrokeOptions N) : StrokeOptions N :=
  {| size := sz; thinning := thinning o; smoothing := smoothing o;
     streamline := streamline o; easing := easing o;
     simulatePressure := simulatePressure o;
     capStart := capStart o; taperStart := taperStart o;
     taperStartEase := taperStartEase o;
     capEnd := capEnd o; taperEnd := taperEnd o;
     taperEndEase := taperEndEase o; isComplete := isComplete o |}.

Definition withTapers (ts te : N) (o : StrokeOptions N) : StrokeOptions N :=
  {| size := size o; thinning := thinning o; smoothing := smoothing o;
     streamline := streamline o; easing := easing o;
     simulatePressure := simulatePressure o;
     capStart := capStart o; taperStart := ts;
     taperStartEase := taperStartEase o;
     capEnd := capEnd o; taperEnd := te;
     taperEndEase := taperEndEase o; isComplete := isComplete o |}.

Definition withThinning (th : N) (o : StrokeOptions N) : StrokeOptions N :=
  {| size := size o; thinning := th; smoothing := smoothing o;
     streamline := streamline o; easing := easing o;
     simulatePressure := simulatePressure o;
     capStart := capStart o; taperStart := taperStart o;
     taperStartEase := taperStartEase o;
     capEnd := capEnd o; taperEnd := taperEnd o;
     taperEndEase := taperEndEase o; isComplete := isComplete o |}.

Definition withLast (b : bool) (o : StrokeOptions N) : StrokeOptions N :=
  {| size := size o; thinning := thinning o; smoothing := smoothing o;
     streamline := streamline o; easing := easing o;
     simulatePressure := simulatePressure o;
     capStart := capStart o; taperStart := taperStart o;
     taperStartEase := taperStartEase o;
     capEnd := capEnd o; taperEnd := taperEnd o;
     taperEndEase := taperEndEase o; isComplete := b |}.

(** The tuple [[x, y]], without a pressure. *)
Definition tuple (x y : N) : InputPoint N :=
  {| in_x := x; in_y := y; in_pressure := None |}.
End OptionUpdates.


Section ExactNotions.
Local Open Scope R_scope.

(** [b] comes right after [a], the stroke point of index [k]: the running
    length does not decrease, and the distance of [b] is at most the
    increase, and exactly the increase from index 1 on. *)
Definition follows (k : nat) (a b : StrokePoint R) : Prop :=
  runningLength a <= runningLength b
  /\ 0 <= distance b <= runningLength b - runningLength a
  /\ ((1 <= k)%nat -> distance b = runningLength b - runningLength a).

Definition measured (sps : list (StrokePoint R)) : Prop :=
  (forall first, nth_error sps 0 = Some first -> runningLength first = 0)
  /\ (forall i a b,
         nth_error sps i = Some a -> nth_error sps (S i) = Some b ->
         follows i a b).

(** What the loop keeps true at index [i]. *)
Definition resampling (max i : nat) (d : StrokePoint R) (st : ResampleState R) : Prop :=
  measured (strokePoints st)
  /\ strokePoints st <> []
  /\ prev st = last (strokePoints st) d
  /\ runningLength (prev st) <= totalLength st
  /\ ((2 <= length (strokePoints st))%nat ->
      (hasReachedMinimumLength st = true \/ (max < i)%nat)
      /\ runningLength (prev st) = totalLength st).

End ExactNotions.

(** ** The stroke points and the array they are made from *)

Section ResampledNotions.
Context {N : Type} {num : Num N}.
Local Open Scope num_scope.

(** From the third stroke point on, the running length of a stroke point
    is the running length of the stroke point before it plus its own
    distance, in the arithmetic of the program. *)
Definition summed (sps : list (StrokePoint N)) : Prop :=
  forall i a b,
    (1 <= i)%nat ->
    nth_error sps i = Some a -> nth_error sps (S i) = Some b ->
    runningLength b = runningLength a + distance b.

(** What the loop keeps true of the sums at index [i]: once a second
    stroke point is made, the variable [runningLength] is the running
    length of the last stroke point, and no position is dropped any more. *)
Definition summing (max i : nat) (d : StrokePoint N) (st : ResampleState N)
    : Prop :=
  summed (strokePoints st)
  /\ strokePoints st <> []
  /\ prev st = last (strokePoints st) d
  /\ ((2 <= length (strokePoints st))%nat ->
      (hasReachedMinimumLength st = true \/ (max < i)%nat)
      /\ runningLength (prev st) = totalLength st).

(** The stroke point [b] is made at index [i] from the array point [raw],
    after the stroke point [a]: its position is interpolated from that of
    [a] towards that of [raw] (or is that of [raw], at the last index of a
    complete stroke), and its pressure is that of [raw], or 0.5 if that is
    absent or negative. *)
Definition madeFrom (complete : bool) (t : N) (max i : nat)
    (raw : InputPoint N) (a b : StrokePoint N) : Prop :=
  point b = (if complete && (i =? max)%nat then xy raw
             else lrp (point a) (xy raw) t)
  /\ pressure b = match in_pressure raw with
                  | Some v => if v >=? ofZ 0 then v else dec 5 10
                  | None => dec 5 10
                  end.

(** The stroke points [sps] are made from the array [pts]: the first one
    apart, they are as many as the indices [idx], which increase, and the
    stroke point of index [k + 1] is made from [pts[idx[k]]], after the
    stroke point of index [k]. *)
Definition tracedTo (complete : bool) (t : N) (pts : list (InputPoint N))
    (idx : list nat) (sps : list (StrokePoint N)) : Prop :=
  length sps = S (length idx)
  /\ (forall j k i i',
         (j < k)%nat -> nth_error idx j = Some i -> nth_error idx k = Some i' ->
         (i < i')%nat)
  /\ (forall k i a b,
         nth_error idx k = Some i ->
         nth_error sps k = Some a -> nth_error sps (S k) = Some b ->
         (1 <= i)%nat
         /\ exists raw,
              nth_error pts i = Some raw
              /\ madeFrom complete t (length pts - 1) i raw a b).

(** What the loop keeps true at index [i]: the stroke points made so far
    are made from array points of indices below [i]. *)
Definition tracing (complete : bool) (t : N) (pts : list (InputPoint N))
    (i : nat) (d : StrokePoint N) (st : ResampleState N) : Prop :=
  prev st = last (strokePoints st) d
  /\ exists idx,
       tracedTo complete t pts idx (strokePoints st)
       /\ Forall (fun j => (j < i)%nat) idx.
End ResampledNotions.

(** ** The dot *)

Section DotNotions.
Context {N : Type} {num : Num N} {trig : Trig N}.
Local Open Scope num_scope.

(** The point the dot starts from: the position of the only stroke point,
    moved by the radius of the dot against the unit vector at right angles
    to [firstPoint - lastPoint], where [lastPoint] is [firstPoint + (1,1)]. *)
Definition dotStart (o : StrokeOptions N) (p : StrokePoint N) : Vec N :=
  prj (point p)
    (uni (per (sub (point p) (add (point p) (ofZ 1, ofZ 1)))))
    (- dotRadius o p).

(** The point the loop of the dot pushes at [t]. *)
Definition dotPoint (o : StrokeOptions N) (p : StrokePoint N) (t : N) : Vec N :=
  rotAround (dotStart o p) (point p) (FIXED_PI * ofZ 2 * t).
End DotNotions.

(** * Notions used in the further properties *)

(** ** The resampled stroke *)

Section StrokeNotions.
Context {N : Type} {num : Num N}.
Local Open Scope num_scope.

(** [b] is annotated against [a]: its position is not that of [a], its
    distance is the distance of the two positions and its vector is the
    normalised difference from its position back to that of [a]. *)
Definition linked (a b : StrokePoint N) : Prop :=
  isEqual (point a) (point b) = false
  /\ distance b = dist (point b) (point a)
  /\ vector b = uni (sub (point a) (point b)).

(** Every element of the list is related to the one before it. *)
Definition chained (P : StrokePoint N -> StrokePoint N -> Prop)
    (sps : list (StrokePoint N)) : Prop :=
  forall i a b,
    nth_error sps i = Some a -> nth_error sps (S i) = Some b -> P a b.

(** The length of the array [pts] for an input of [n] points: a second
    point is added to one point, and two points become five. *)
Definition preparedLength (n : nat) : nat :=
  match n with
  | 1 => 2
  | 2 => 5
  | _ => n
  end.

(** An input point, a whole input and a stroke point moved by [v]. *)
Definition moveInput (v : Vec N) (p : InputPoint N) : InputPoint N :=
  {| in_x := in_x p + fst v; in_y := in_y p + snd v;
     in_pressure := in_pressure p |}.

Definition movePoints (v : Vec N) (points : Points N) : Points N :=
  match points with
  | Tuples l => Tuples (map (moveInput v) l)
  | Objects l => Objects (map (moveInput v) l)
  end.

Definition moveStroke (v : Vec N) (sp : StrokePoint N) : StrokePoint N :=
  {| point := add (point sp) v;
     pressure := pressure sp;
     vector := vector sp;
     distance := distance sp;
     runningLength := runningLength sp |}.

(** The variables of the resampling loop, with every position moved by
    [v]. *)
Definition moveResample (v : Vec N) (st : ResampleState N) : ResampleState N :=
  {| strokePoints := map (moveStroke v) (strokePoints st);
     hasReachedMinimumLength := hasReachedMinimumLength st;
     totalLength := totalLength st;
     prev := moveStroke v (prev st) |}.

(** The variables of the main loop of the outline, with every position
    moved by [v]. *)
Definition moveOutline (v : Vec N) (st : OutlineState N) : OutlineState N :=
  {| leftPts := map (fun q => add q v) (leftPts st);
     rightPts := map (fun q => add q v) (rightPts st);
     prevPressure := prevPressure st;
     radius := radius st;
     firstRadius := firstRadius st;
     prevVector := prevVector st;
     pL := add (pL st) v;
     pR := add (pR st) v;
     tL := add (tL st) v;
     tR := add (tR st) v |}.

(** An input point, a whole input and a stroke point scaled by [k]: the
    positions and the lengths are multiplied by [k], the pressures and
    the vectors are kept. *)
Definition scaleInput (k : N) (p : InputPoint N) : InputPoint N :=
  {| in_x := in_x p * k; in_y := in_y p * k; in_pressure := in_pressure p |}.

Definition scalePoints (k : N) (points : Points N) : Points N :=
  match points with
  | Tuples l => Tuples (map (scaleInput k) l)
  | Objects l => Objects (map (scaleInput k) l)
  end.

Definition scaleStroke (k : N) (sp : StrokePoint N) : StrokePoint N :=
  {| point := mul (point sp) k;
     pressure := pressure sp;
     vector := vector sp;
     distance := distance sp * k;
     runningLength := runningLength sp * k |}.

(** The variables of the resampling loop, scaled by [k]. *)
Definition scaleResample (k : N) (st : ResampleState N) : ResampleState N :=
  {| strokePoints := map (scaleStroke k) (strokePoints st);
     hasReachedMinimumLength := hasReachedMinimumLength st;
     totalLength := totalLength st * k;
     prev := scaleStroke k (prev st) |}.
End StrokeNotions.

Section ExactStrokeNotions.
Local Open Scope R_scope.

(** What the resampling loop keeps true of the wait at the start of the
    line, at index [i]: once the minimum length is reached, every stroke
    point but the first has a running length of [sz] at least, and so has
    the variable [runningLength]; until then there is the first stroke
    point alone, or the loop is over and there are two. *)
Definition minimumLengthKept (sz : R) (max i : nat) (st : ResampleState R) : Prop :=
  0 <= totalLength st
  /\ (hasReachedMinimumLength st = true ->
      sz <= totalLength st
      /\ Forall (fun sp => sz <= runningLength sp) (tl (strokePoints st)))
  /\ (hasReachedMinimumLength st = false ->
      length (strokePoints st) = 1%nat
      \/ ((max < i)%nat /\ length (strokePoints st) = 2%nat)).

(** The pressure of an input point, if it has one, is at most 1. *)
Definition lightPressure (p : InputPoint R) : Prop :=
  match in_pressure p with
  | Some v => v <= 1
  | None => True
  end.

(** [v] is in the box of corners [lo] and [hi]. *)
Definition inBox (lo hi v : Vec R) : Prop :=
  fst lo <= fst v <= fst hi /\ snd lo <= snd v <= snd hi.
End ExactStrokeNotions.

(** ** The outline *)

Section FanNotions.
Context {N : Type} {num : Num N} {trig : Trig N}.
Local Open Scope num_scope.

(** The points a turn of the corner loop adds to the left and to the right
    side. *)
Definition fanLeft (pt offset : Vec N) (t : N) : Vec N :=
  rotAround (sub pt offset) pt (FIXED_PI * t).

Definition fanRight (pt offset : Vec N) (t : N) : Vec N :=
  rotAround (add pt offset) pt (FIXED_PI * - t).

(** The radius the main loop computes for [p] when the pressure before it
    is [prevP]. *)
Definition turnRadius (o : StrokeOptions N) (total : N) (p : StrokePoint N)
    (prevP : N) : N :=
  tapered o total p (radiusAt o (pressureAt o p prevP)).
End FanNotions.

Section OutlineParts.
Context {N : Type} {num : Num N} {trig : Trig N}.
Local Open Scope num_scope.

(** The main loop of [getStrokeOutlinePoints] on a stroke that starts with
    [p0]: the variables after its last turn. *)
Definition mainLoop (o : StrokeOptions N) (points : list (StrokePoint N))
    (p0 : StrokePoint N) : Completion (OutlineState N) :=
  outlineLoop o points (runningLength (last points p0))
    (let s := size o * smoothing o in s * s) 0 points
    (initialState o points p0).

(** The point the round start cap pushes at [t]: the first point of the
    right side, turned about the first stroke point. *)
Definition startArc (r0 firstPoint : Vec N) (t : N) : Vec N :=
  rotAround r0 firstPoint (FIXED_PI * t).

(** The point the round end cap pushes at [t]: the last stroke point moved
    by the radius at right angles to its vector, turned about the last
    stroke point. *)
Definition endArc (pLast : StrokePoint N) (radius : N) (t : N) : Vec N :=
  rotAround (prj (point pLast) (per (neg (vector pLast))) radius)
    (point pLast) (FIXED_PI * ofZ 3 * t).
End OutlineParts.

(** The corner loop takes 14 turns: [t] is 0, 1/13, ... and, at the
    fourteenth turn, 1 over the reals and a double that is not above 1 in
    binary64. *)
Class CornerFan (N : Type) {num : Num N} : Prop :=
  corner_fan :
    exists ts : list N,
      ticks LOOP_FUEL (fun t => t <=? ofZ 1)%num (ofZ 1 / ofZ 13)%num (ofZ 0)
      = Normal ts
      /\ length ts = 14%nat.

Arguments CornerFan N {num}.

Section WidthNotions.
Local Open Scope R_scope.

(** A stroke point as the resampler makes them from pressures between 0
    and 1: its vector is not longer than 1, its distance is not negative and
    its running length is between 0 and the total length. *)
Definition regularPoint (total : R) (p : StrokePoint R) : Prop :=
  0 <= pressure p <= 1
  /\ 0 <= distance p
  /\ len (vector p) <= 1
  /\ 0 <= runningLength p <= total.

(** Options in their documented ranges: a positive size, a thinning between
    -1 and 1, an easing that maps [0,1] into itself and taper easings that
    do not exceed 1 on [0,1]. *)
Definition regularOptions (o : StrokeOptions R) : Prop :=
  0 < size o
  /\ -1 <= thinning o <= 1
  /\ (forall x, 0 <= x <= 1 -> 0 <= easing o x <= 1)
  /\ (forall x, 0 <= x <= 1 -> taperStartEase o x <= 1)
  /\ (forall x, 0 <= x <= 1 -> taperEndEase o x <= 1).

(** The largest radius: the size, or 0.01 if the size is below it. *)
Definition reach (o : StrokeOptions R) : R := Rmax (1 / 100) (size o).

(** [q] is within [B] of a stroke point of [points]. *)
Definition within (B : R) (points : list (StrokePoint R)) (q : Vec R) : Prop :=
  exists p, In p points /\ dist q (point p) <= B.

(** What the main loop keeps true of its variables: the points gathered
    are within reach of the stroke points, and the pressure, the vector and
    the radius carried to the next turn are in range. *)
Definition inReach (o : StrokeOptions R) (points : list (StrokePoint R))
    (st : OutlineState R) : Prop :=
  Forall (within (reach o) points) (leftPts st)
  /\ Forall (within (reach o) points) (rightPts st)
  /\ 0 <= prevPressure st
  /\ len (prevVector st) <= 1
  /\ 0 <= radius st <= reach o.
End WidthNotions.

(** * Properties *)

(** ** The counting loops *)

Section ForT.
Context {N : Type} {num : Num N}.
Local Open Scope num_scope.

Lemma forT_ext (A : Type) (body body' : N -> A -> Completion A) :
  (forall t a, body t a = body' t a) ->
  forall fuel cond step t acc,
    forT fuel cond step t body acc = forT fuel cond step t body' acc.
Proof.
  intros Hext fuel. induction fuel as [|fuel IH]; intros cond step t acc; simpl.
  - reflexivity.
  - destruct (cond t); [|reflexivity].
    rewrite Hext. destruct (body' t acc); simpl; auto.
Qed.

Lemma forT_collect (A : Type) (f : N -> A -> A) :
  forall fuel cond step t (seen ts : list N) (acc : A),
    forT fuel cond step t (fun t l => Normal (l ++ [t])) seen = Normal ts ->
    exists more,
      ts = seen ++ more /\
      forT fuel cond step t (fun t a => Normal (f t a)) acc
      = Normal (fold_left (fun a t => f t a) more acc).
Proof.
  induction fuel as [|fuel IH]; intros cond step t seen ts acc; simpl.
  - discriminate.
  - destruct (cond t).
    + intros Hrun. destruct (IH _ _ _ _ _ (f t acc) Hrun) as (more & -> & Hf).
      exists (t :: more). split.
      * now rewrite <- app_assoc.
      * exact Hf.
    + intros [= <-]. exists []. split; [now rewrite app_nil_r | reflexivity].
Qed.

(** A loop whose body does not throw runs its body at every tick. *)
Lemma forT_ticks (A : Type) (f : N -> A -> A) fuel cond step t ts (acc : A) :
  ticks fuel cond step t = Normal ts ->
  forT fuel cond step t (fun t a => Normal (f t a)) acc
  = Normal (fold_left (fun a t => f t a) ts acc).
Proof.
  intros Hrun. destruct (forT_collect A f _ _ _ _ _ _ acc Hrun) as (more & -> & Hf).
  exact Hf.
Qed.

Lemma fold_left_push (A : Type) (g : N -> A) (ts : list N) (l : list A) :
  fold_left (fun a t => a ++ [g t]) ts l = l ++ map g ts.
Proof.
  revert l. induction ts as [|t ts IH]; intros l; simpl.
  - now rewrite app_nil_r.
  - rewrite IH. now rewrite <- app_assoc.
Qed.

(** A loop that pushes one element per tick. *)
Lemma forT_push (A : Type) (g : N -> A) fuel cond step t ts :
  ticks fuel cond step t = Normal ts ->
  forT fuel cond step t (fun t l => Normal (l ++ [g t])) [] = Normal (map g ts).
Proof.
  intros Hrun.
  rewrite (forT_ticks _ (fun t l => l ++ [g t]) _ _ _ _ _ [] Hrun).
  now rewrite fold_left_push.
Qed.
End ForT.

(** *** The loops in binary64 *)

#[export] Instance binary64_counters : Counters PrimFloat.float.
Proof.
  split.
  - reflexivity.
  - eexists. vm_compute. reflexivity.
  - eexists. split; vm_compute; reflexivity.
  - eexists. split; [vm_compute; reflexivity|]. vm_compute. lia.
Qed.

(** The decimal literals of the program in binary64: the quotient that
    stands for each is the double nearest to the decimal. *)
Module Literals.
Import PrimFloat.

Lemma binary64_literals :
  (dec 15 100, dec 85 100, dec 5 10, dec 25 100, dec 275 1000,
   dec 1 100, dec 1 10000, dec 51 100, dec 99 100)
  = (0x1.3333333333333p-3, 0x1.b333333333333p-1, 0x1p-1, 0x1p-2,
     0x1.199999999999ap-2, 0x1.47ae147ae147bp-7, 0x1.a36e2eb1c432dp-14,
     0x1.051eb851eb852p-1, 0x1.fae147ae147aep-1)%float.
Proof. vm_compute. reflexivity. Qed.
End Literals.

(** In binary64 the end-cap loop takes 29 turns, not 28: the 29th value of
    [t], twenty-eight additions of the double nearest 1/29 to itself, is
    still below 1. *)
Lemma binary64_end_cap_turns :
  exists ts : list PrimFloat.float,
    ticks LOOP_FUEL (fun t => t <? ofZ 1)%num (ofZ 1 / ofZ 29)%num
      (ofZ 1 / ofZ 29)%num = Normal ts
    /\ length ts = 29%nat
    /\ (last ts (ofZ 0) <? ofZ 1)%num = true.
Proof. eexists. repeat split; vm_compute; reflexivity. Qed.

(** *** The loops over the reals *)

Section ExactDecide.
Local Open Scope R_scope.

Lemma exact_ltb_true a b : a < b -> Exact.ltb a b = true.
Proof. intros H. unfold Exact.ltb. destruct (Rlt_dec a b); [reflexivity|contradiction]. Qed.

Lemma exact_ltb_false a b : ~ a < b -> Exact.ltb a b = false.
Proof. intros H. unfold Exact.ltb. destruct (Rlt_dec a b); [contradiction|reflexivity]. Qed.

Lemma exact_leb_true a b : a <= b -> Exact.leb a b = true.
Proof. intros H. unfold Exact.leb. destruct (Rle_dec a b); [reflexivity|contradiction]. Qed.

Lemma exact_leb_false a b : ~ a <= b -> Exact.leb a b = false.
Proof. intros H. unfold Exact.leb. destruct (Rle_dec a b); [contradiction|reflexivity]. Qed.

Lemma exact_eqb_true a b : a = b -> Exact.eqb a b = true.
Proof. intros H. unfold Exact.eqb. destruct (Req_dec_T a b); [reflexivity|contradiction]. Qed.

Lemma exact_eqb_false a b : a <> b -> Exact.eqb a b = false.
Proof. intros H. unfold Exact.eqb. destruct (Req_dec_T a b); [contradiction|reflexivity]. Qed.

Lemma exact_ltb_spec a b : Exact.ltb a b = true <-> a < b.
Proof. unfold Exact.ltb. destruct (Rlt_dec a b); split; auto; discriminate. Qed.

Lemma exact_leb_spec a b : Exact.leb a b = true <-> a <= b.
Proof. unfold Exact.leb. destruct (Rle_dec a b); split; auto; discriminate. Qed.

Lemma exact_eqb_spec a b : Exact.eqb a b = true <-> a = b.
Proof. unfold Exact.eqb. destruct (Req_dec_T a b); split; auto; discriminate. Qed.
End ExactDecide.

(** Decides the comparisons of closed real expressions in the goal. *)
Ltac decide_R :=
  repeat match goal with
    | |- context [Exact.ltb ?a ?b] =>
        first [ rewrite (exact_ltb_true a b) by lra | rewrite (exact_ltb_false a b) by lra ]
    | |- context [Exact.leb ?a ?b] =>
        first [ rewrite (exact_leb_true a b) by lra | rewrite (exact_leb_false a b) by lra ]
    | |- context [Exact.eqb ?a ?b] =>
        first [ rewrite (exact_eqb_true a b) by lra | rewrite (exact_eqb_false a b) by lra ]
    end.

(** One turn of a counting loop over the reals. *)
Lemma forT_turn (A : Type) (fuel : nat) (cond : R -> bool) (step t : R)
    (body : R -> A -> Completion A) (acc : A) :
  forT (S fuel) cond step t body acc
  = if cond t
    then bind (body t acc) (fun acc' => forT fuel cond step (t + step)%R body acc')
    else Normal acc.
Proof. reflexivity. Qed.

Ltac turn_R :=
  rewrite forT_turn; cbn [bind nleb nltb nadd ndiv ofZ real_numbers]; decide_R.

#[export] Instance real_counters : Counters R.
Proof.
  split.
  - cbn [truthy ofZ real_numbers]. unfold Exact.to_boolean. now rewrite exact_eqb_true.
  - eexists. unfold ticks, LOOP_FUEL. do 15 turn_R. reflexivity.
  - eexists. unfold ticks, LOOP_FUEL. split; [do 14 turn_R; reflexivity | reflexivity].
  - eexists. unfold ticks, LOOP_FUEL. split; [do 29 turn_R; reflexivity | simpl; lia].
Qed.

(** ** Vectors over the reals *)

Section ExactVec.
Local Open Scope R_scope.

Lemma dpr_self_nonneg (v : Vec R) : 0 <= dpr v v.
Proof. destruct v as [a b]. cbn. nra. Qed.

Lemma len_nonneg (v : Vec R) : 0 <= len v.
Proof. unfold len. cbn [nsqrt real_numbers]. apply sqrt_pos. Qed.

Lemma len_sqr (v : Vec R) : len v * len v = dpr v v.
Proof. unfold len. cbn [nsqrt real_numbers]. apply sqrt_sqrt, dpr_self_nonneg. Qed.

Lemma dist_nonneg (a b : Vec R) : 0 <= dist a b.
Proof. apply len_nonneg. Qed.

Lemma len_zero : len (N := R) (0, 0) = 0.
Proof.
  unfold len, dpr. cbn. replace (0 * 0 + 0 * 0) with 0 by lra. apply sqrt_0.
Qed.

Lemma uni_of_zero_length (v : Vec R) : len v = 0 -> uni v = (0, 0).
Proof.
  intros Hl. unfold uni. cbn [neqb ofZ real_numbers]. rewrite Hl.
  now rewrite exact_eqb_true.
Qed.

Lemma uni_unit_length (v : Vec R) : len v <> 0 -> len (uni v) = 1.
Proof.
  intros Hl. unfold uni. cbn [neqb ofZ real_numbers]. rewrite (exact_eqb_false _ _ Hl).
  pose proof (len_sqr v) as Hs. destruct v as [a b].
  unfold len at 1. unfold dpr in *. cbn [fst snd nadd nmul ndiv nsqrt real_numbers] in *.
  set (l := len (a, b)) in *.
  replace (a / l * (a / l) + b / l * (b / l)) with 1.
  - apply sqrt_1.
  - field_simplify_eq; [lra | exact Hl].
Qed.
End ExactVec.

(** ** C5: the radius *)

(** In binary64, 0 times a finite number is a zero. *)
Lemma binary64_zero_times_finite (x : PrimFloat.float) :
  Binary64.finite x = true ->
  (ofZ 0 * x = ofZ 0 \/ ofZ 0 * x = - ofZ 0)%num.
Proof.
  cbn [nmul nneg ofZ binary64].
  unfold Binary64.finite. rewrite FloatAxioms.classify_spec. intros H.
  pose proof (FloatAxioms.mul_spec (Binary64.of_Z 0) x) as Hm.
  apply (f_equal FloatOps.SF2Prim) in Hm.
  rewrite FloatAxioms.SF2Prim_Prim2SF in Hm. rewrite Hm.
  destruct (FloatOps.Prim2SF x) as [s|s| |s m e]; cbn in H; try discriminate.
  - destruct s; [right|left]; reflexivity.
  - destruct s; discriminate.
  - destruct s; [right|left]; reflexivity.
Qed.

(** C5. [getStrokeRadius(size, thinning, pressure, easing)] is
    [size * easing(0.5 - thinning * (0.5 - pressure))], in every number
    model.  With [thinning = 0] it is [size * easing(0.5)] whatever the
    pressure: over the reals, and in binary64 as long as [0.5 - pressure]
    is finite.  Nothing clamps it: it can be negative (at size 16,
    thinning 2, pressure 0 it is -8, over the reals and in binary64). *)
Theorem getStrokeRadius_value :
  (forall (N : Type) (num : Num N) (size thinning pressure : N) (easing : N -> N),
      getStrokeRadius size thinning pressure easing
      = (size * easing (dec 5 10 - thinning * (dec 5 10 - pressure)))%num)
  /\ (forall (size pressure : R) (easing : R -> R),
         getStrokeRadius size 0%R pressure easing = (size * easing (1 / 2))%R)
  /\ (forall (size pressure : PrimFloat.float)
             (easing : PrimFloat.float -> PrimFloat.float),
         Binary64.finite (dec 5 10 - pressure)%num = true ->
         getStrokeRadius size (ofZ 0) pressure easing
         = (size * easing (dec 5 10))%num)
  /\ (getStrokeRadius 16 2 0 linear = -8)%R
  /\ getStrokeRadius (ofZ 16) (ofZ 2) (ofZ 0) linear = PrimFloat.opp (ofZ 8).
Proof.
  split; [|split; [|split; [|split]]].
  - reflexivity.
  - intros size pressure easing. unfold getStrokeRadius, dec. cbn.
    do 2 f_equal. lra.
  - intros size pressure easing Hfinite. unfold getStrokeRadius.
    destruct (binary64_zero_times_finite _ Hfinite) as [-> | ->]; reflexivity.
  - unfold getStrokeRadius, dec, linear. cbn. lra.
  - reflexivity.
Qed.

(** ** C8: normalising the zero vector *)

(** C8. [uni] of a zero-length vector is [(0,0)]: for the zero vector over
    the reals and in binary64 (whatever the signs of its zeros; the result
    has no NaN), and for every real vector of length 0.  Every other real
    vector is normalised to length 1, so [uni] always yields a pair of
    numbers. *)
Theorem uni_zero_length :
  uni (N := R) (0%R, 0%R) = (0%R, 0%R)
  /\ (forall v : Vec R, len v = 0%R -> uni v = (0%R, 0%R))
  /\ (forall v : Vec R, len v <> 0%R -> len (uni v) = 1%R)
  /\ (forall v : Vec PrimFloat.float,
         In v [(ofZ 0, ofZ 0); (- ofZ 0, ofZ 0);
               (ofZ 0, - ofZ 0); (- ofZ 0, - ofZ 0)]%num ->
         uni v = (ofZ 0, ofZ 0)
         /\ PrimFloat.is_nan (fst (uni v)) = false
         /\ PrimFloat.is_nan (snd (uni v)) = false).
Proof.
  split; [|split; [|split]].
  - apply uni_of_zero_length, len_zero.
  - apply uni_of_zero_length.
  - apply uni_unit_length.
  - intros v Hv. cbn [In] in Hv.
    destruct Hv as [<-|[<-|[<-|[<-|[]]]]]; repeat split; vm_compute; reflexivity.
Qed.

(** ** The outline never throws *)

Section OutlineControl.
Context {N : Type} {num : Num N} {trig : Trig N} {cnt : Counters N}.
Local Open Scope num_scope.

Lemma grows_refl (st : OutlineState N) : grows st st.
Proof. split; exists []; now rewrite app_nil_r. Qed.

Lemma grows_trans (st1 st2 st3 : OutlineState N) :
  grows st1 st2 -> grows st2 st3 -> grows st1 st3.
Proof.
  intros [[l1 Hl1] [r1 Hr1]] [[l2 Hl2] [r2 Hr2]]. split.
  - exists (l1 ++ l2). now rewrite Hl2, Hl1, app_assoc.
  - exists (r1 ++ r2). now rewrite Hr2, Hr1, app_assoc.
Qed.

Lemma grows_sided (st st' : OutlineState N) :
  grows st st' -> sided st -> sided st'.
Proof.
  intros [[ls Hl] [rs Hr]] [Hln Hrn]. split.
  - rewrite Hl. destruct (leftPts st); [contradiction | discriminate].
  - rewrite Hr. destruct (rightPts st); [contradiction | discriminate].
Qed.

Lemma cornerTurns_grow pt offset ts :
  forall st, grows st (fold_left (fun a t => cornerTurn pt offset t a) ts st).
Proof.
  induction ts as [|t ts IH]; intros st; simpl.
  - apply grows_refl.
  - eapply grows_trans; [|apply IH].
    split; eexists; reflexivity.
Qed.

Lemma cornerLoop_runs pt offset st :
  exists ts,
    forT LOOP_FUEL (fun t => t <=? ofZ 1) (ofZ 1 / ofZ 13) (ofZ 0)
      (cornerBody pt offset) st
    = Normal (fold_left (fun a t => cornerTurn pt offset t a) ts st).
Proof.
  destruct corner_ticks as [ts Hts]. exists ts.
  rewrite (forT_ext _ (cornerBody pt offset)
             (fun t a => Normal (cornerTurn pt offset t a)))
    by reflexivity.
  now apply forT_ticks.
Qed.

Lemma lookup_lt (A : Type) (l : list A) (i : nat) :
  (i < length l)%nat -> exists a, lookup l i = Normal a.
Proof.
  intros Hi. unfold lookup.
  destruct (nth_error l i) eqn:E; [eauto|].
  apply nth_error_None in E. lia.
Qed.

(** One turn of the main loop returns, keeps the points gathered so far,
    and at the last index adds one point to each side. *)
Lemma outlineStep_returns o points total md i p st :
  (i < length points)%nat ->
  exists st',
    outlineStep o points total md i p st = Normal st'
    /\ grows st st'
    /\ (i = (length points - 1)%nat ->
        exists l r, leftPts st' = leftPts st ++ [l]
                    /\ rightPts st' = rightPts st ++ [r]).
Proof.
  intros Hi. unfold outlineStep.
  destruct ((i <? length points - 1)%nat && (total - runningLength p <? ofZ 3))
    eqn:Hskip.
  - exists st. split; [reflexivity|]. split; [apply grows_refl|].
    intros ->. apply andb_prop in Hskip as [Hlt _].
    apply Nat.ltb_lt in Hlt. lia.
  - destruct (i =? length points - 1)%nat eqn:Hlast.
    + eexists. split; [reflexivity|]. split.
      * split; eexists; reflexivity.
      * intros _. cbn. eauto.
    + apply Nat.eqb_neq in Hlast.
      destruct (lookup_lt _ points (i + 1)) as [next Hnext]; [lia|].
      rewrite Hnext. cbn [bind].
      destruct (dpr (vector p) (vector next) <? ofZ 0).
      * match goal with
        | |- context [forT _ _ _ _ (cornerBody ?pt ?off) ?s] =>
            destruct (cornerLoop_runs pt off s) as [ts ->];
            pose proof (cornerTurns_grow pt off ts s) as Hg
        end.
        cbn [bind]. eexists. split; [reflexivity|]. split; [|intros ->; lia].
        destruct Hg as [[ls Hl] [rs Hr]]. cbn in Hl, Hr.
        split; cbn; eauto.
      * eexists. split; [reflexivity|]. split; [|intros ->; lia].
        split; cbn.
        -- destruct ((i <=? 1)%nat || _); [eexists; reflexivity|].
           exists []. now rewrite app_nil_r.
        -- destruct ((i <=? 1)%nat || _); [eexists; reflexivity|].
           exists []. now rewrite app_nil_r.
Qed.

(** The main loop, from index [i] on, returns; if it has a turn to run,
    both sides end with a point. *)
Lemma outlineLoop_returns o points total md :
  forall rest i st,
    (i + length rest = length points)%nat ->
    exists st',
      outlineLoop o points total md i rest st = Normal st'
      /\ grows st st'
      /\ (rest <> [] -> sided st').
Proof.
  induction rest as [|p rest IH]; intros i st Hlen; simpl in *.
  - exists st. split; [reflexivity|]. split; [apply grows_refl|].
    intros []. reflexivity.
  - destruct (outlineStep_returns o points total md i p st) as (st1 & -> & Hg1 & Hl1);
      [lia|].
    cbn [bind].
    destruct (IH (S i) st1) as (st2 & -> & Hg2 & Hs2); [lia|].
    exists st2. split; [reflexivity|]. split; [eapply grows_trans; eauto|].
    intros _. destruct rest as [|q rest].
    + simpl in Hg2. destruct Hl1 as (l & r & Hl & Hr); [simpl in Hlen; lia|].
      eapply grows_sided; [exact Hg2|].
      split.
      * rewrite Hl. destruct (leftPts st); discriminate.
      * rewrite Hr. destruct (rightPts st); discriminate.
    + apply Hs2. discriminate.
Qed.
End OutlineControl.

(** ** The shape of the outline *)

Section OutlineShape.
Context {N : Type} {num : Num N} {trig : Trig N} {cnt : Counters N}.
Local Open Scope num_scope.

Lemma dot_returns firstPoint lastPoint (st : OutlineState N) :
  exists pts,
    dot firstPoint lastPoint st = Normal pts /\ length pts = 13%nat.
Proof.
  destruct round_ticks as (ts & Hts & Hlen).
  eexists. unfold dot. split.
  - apply forT_push. exact Hts.
  - now rewrite length_map.
Qed.

Lemma startCap_returns o n firstPoint (st : OutlineState N) :
  n <> 1%nat -> sided st ->
  exists cap,
    startCapOf o n firstPoint st = Normal cap
    /\ length cap = startCapLength o.
Proof.
  intros Hn [Hl Hr]. unfold startCapOf, startCapLength.
  apply Nat.eqb_neq in Hn. rewrite Hn, andb_false_r, orb_false_r.
  destruct (truthy (taperStart o)); [eexists; split; reflexivity|].
  destruct (leftPts st) as [|l0 ls] eqn:El; [contradiction|].
  destruct (rightPts st) as [|r0 rs] eqn:Er; [contradiction|].
  destruct (capStart o).
  - destruct round_ticks as (ts & Hts & Hlen).
    eexists. split.
    + rewrite (forT_ext _ _
                 (fun t cap => Normal (cap ++ [rotAround r0 firstPoint (FIXED_PI * t)])))
        by reflexivity.
      apply forT_push. exact Hts.
    + now rewrite length_map.
  - eexists. split; reflexivity.
Qed.

Lemma endCap_returns o n lastPoint pLast (st : OutlineState N) :
  n <> 1%nat ->
  exists cap,
    endCapOf o n lastPoint pLast st = Normal cap
    /\ (endCapLength o <= length cap)%nat.
Proof.
  intros Hn. unfold endCapOf, endCapLength.
  apply Nat.eqb_neq in Hn. rewrite Hn, andb_false_r, orb_false_r.
  destruct (truthy (taperEnd o)); [eexists; split; [reflexivity | simpl; lia]|].
  destruct (capEnd o).
  - destruct end_ticks as (ts & Hts & Hlen).
    eexists. split.
    + apply forT_push. exact Hts.
    + now rewrite length_map.
  - eexists. split; [reflexivity | simpl; lia].
Qed.

(** The main loop on a stroke of one point. *)
Lemma outlineLoop_single o p total md :
  total = runningLength p ->
  outlineLoop o [p] total md 0 [p] (initialState o [p] p)
  = Normal
      {| leftPts := [sub (point p) (mul (per (vector p)) (singleRadius o p))];
         rightPts := [add (point p) (mul (per (vector p)) (singleRadius o p))];
         prevPressure := initialPressure o [p] p;
         radius := singleRadius o p;
         firstRadius := Some (singleFirstRadius o p);
         prevVector := vector p;
         pL := point p;
         pR := point p;
         tL := point p;
         tR := point p |}.
Proof. intros ->. reflexivity. Qed.

(** What [getStrokeOutlinePoints] does with one stroke point. *)
Lemma outline_single o p :
  (size o <=? ofZ 0) = false ->
  getStrokeOutlinePoints [p] o
  = if negb (truthy (taperStart o) || truthy (taperEnd o)) || isComplete o
    then
      let r := if truthy (singleFirstRadius o p)
               then singleFirstRadius o p else singleRadius o p in
      let firstPoint := point p in
      let lastPoint := add (point p) (ofZ 1, ofZ 1) in
      let start := prj firstPoint (uni (per (sub firstPoint lastPoint))) (- r) in
      forT LOOP_FUEL (fun t => t <=? ofZ 1) (ofZ 1 / ofZ 13) (ofZ 1 / ofZ 13)
        (fun t dotPts =>
           Normal (dotPts ++ [rotAround start firstPoint (FIXED_PI * ofZ 2 * t)]))
        []
    else
      Normal [sub (point p) (mul (per (vector p)) (singleRadius o p));
              add (point p) (mul (per (vector p)) (singleRadius o p))].
Proof.
  intros Hsize. unfold getStrokeOutlinePoints. rewrite Hsize.
  cbn [last length].
  change (outlineLoop o [p] (runningLength p)
            (let s := size o * smoothing o in s * s) 0 [p] _)
    with (outlineLoop o [p] (runningLength p)
            (let s := size o * smoothing o in s * s) 0 [p] (initialState o [p] p)).
  rewrite outlineLoop_single by reflexivity.
  cbn [bind Nat.eqb Nat.ltb Nat.leb].
  destruct (negb (truthy (taperStart o) || truthy (taperEnd o)) || isComplete o);
    reflexivity.
Qed.

(** The outline of a stroke of several points: the left side, the end
    cap, the right side backwards, the start cap. *)
Lemma outline_several o p0 p1 rest :
  (size o <=? ofZ 0) = false ->
  exists left right startCap endCap,
    getStrokeOutlinePoints (p0 :: p1 :: rest) o
    = Normal (left ++ endCap ++ rev right ++ startCap)
    /\ left <> [] /\ right <> []
    /\ length startCap = startCapLength o
    /\ (endCapLength o <= length endCap)%nat.
Proof.
  intros Hsize. unfold getStrokeOutlinePoints. rewrite Hsize.
  set (points := p0 :: p1 :: rest).
  match goal with
  | |- context [outlineLoop o points ?total ?md 0 points ?st0] =>
      destruct (outlineLoop_returns o points total md points 0%nat st0)
        as (st & -> & _ & Hsided); [reflexivity|]
  end.
  specialize (Hsided ltac:(discriminate)).
  cbn [bind]. change (length points) with (S (S (length rest))).
  cbn [Nat.eqb].
  match goal with
  | |- context [startCapOf o ?n ?fp st] =>
      destruct (startCap_returns o n fp st) as (startCap & -> & Hs);
        [discriminate | exact Hsided |]
  end.
  cbn [bind].
  match goal with
  | |- context [endCapOf o ?n ?lp ?pl st] =>
      destruct (endCap_returns o n lp pl st) as (endCap & -> & He);
        [discriminate |]
  end.
  cbn [bind]. destruct Hsided as [Hl Hr].
  exists (leftPts st), (rightPts st), startCap, endCap. auto.
Qed.

End OutlineShape.

(** ** C6: degenerate inputs *)



(** ** C9: one point of a tapered, unfinished stroke *)

(** C9, as amended: if the size is positive, there is exactly one stroke
    point, a taper is set on at least one end and the stroke is not
    complete, the outline is the two points [point - per(vector) * radius]
    and [point + per(vector) * radius], where [radius] is the tapered radius
    computed for that point. *)
Theorem single_tapered_point_gives_two_points
    (N : Type) (num : Num N) (trig : Trig N)
    (p : StrokePoint N) (o : StrokeOptions N) :
  (size o <=? ofZ 0)%num = false ->
  truthy (taperStart o) || truthy (taperEnd o) = true ->
  isComplete o = false ->
  getStrokeOutlinePoints [p] o
  = Normal [sub (point p) (mul (per (vector p)) (singleRadius o p));
            add (point p) (mul (per (vector p)) (singleRadius o p))].
Proof.
  intros Hsize Htaper Hlast.
  rewrite outline_single by exact Hsize.
  now rewrite Htaper, Hlast.
Qed.

Lemma single_tapered_point_witness :
  let o := withTapers 1%R 0%R defaultOptions in
  getStrokeOutlinePoints [originPoint] o
  = Normal [sub (0%R, 0%R) (mul (per (0%R, 0%R)) (singleRadius o originPoint));
            add (0%R, 0%R) (mul (per (0%R, 0%R)) (singleRadius o originPoint))].
Proof.
  intros o.
  change (0%R, 0%R) with (point (originPoint (N := R))) at 1 3.
  change (0%R, 0%R) with (vector (originPoint (N := R))).
  apply (single_tapered_point_gives_two_points R real_numbers real_trig originPoint o).
  - apply exact_leb_false. cbn. lra.
  - cbn. unfold Exact.to_boolean. rewrite exact_eqb_false by lra. reflexivity.
  - reflexivity.
Defined.

(** C9 as stated fails when the size is not positive: with one stroke
    point, a start taper of 1, an unfinished stroke and size 0, the outline
    is empty, not two points; over the reals and in binary64. *)
Lemma single_tapered_point_needs_positive_size :
  (let o := withSize 0%R (withTapers 1%R 0%R defaultOptions) in
   truthy (taperStart o) = true
   /\ isComplete o = false
   /\ getStrokeOutlinePoints [originPoint] o = Normal [])
  /\ (let o := withSize (ofZ 0)
                 (withTapers (ofZ 1) (ofZ 0)
                    (defaultOptions (N := PrimFloat.float))) in
      truthy (taperStart o) = true
      /\ isComplete o = false
      /\ forall trig : Trig PrimFloat.float,
           getStrokeOutlinePoints [originPoint] o = Normal []).
Proof.
  split.
  - intros o. split; [|split].
    + cbn. unfold Exact.to_boolean. rewrite exact_eqb_false by lra. reflexivity.
    + reflexivity.
    + unfold getStrokeOutlinePoints. cbn [size o withSize nleb ofZ real_numbers originPoint].
      rewrite exact_leb_true by lra. reflexivity.
  - intros o. split; [|split]; [reflexivity | reflexivity |].
    intros trig. reflexivity.
Qed.

(** ** Lists *)

Lemma nth_error_last (A : Type) (l : list A) (d : A) :
  l <> [] -> nth_error l (length l - 1) = Some (last l d).
Proof.
  induction l as [|x l IH]; intros Hne; [contradiction|].
  destruct l as [|y l]; [reflexivity|].
  change (last (x :: y :: l) d) with (last (y :: l) d).
  rewrite <- IH by discriminate. simpl. now rewrite Nat.sub_0_r.
Qed.

Lemma last_default (A : Type) (l : list A) (d d' : A) :
  l <> [] -> last l d = last l d'.
Proof.
  intros Hne. destruct (exists_last Hne) as (l' & a & ->).
  now rewrite !last_last.
Qed.

(** ** The turns of the resampling loop *)

Section ResampleTurns.
Context {N : Type} {num : Num N}.
Local Open Scope num_scope.

(** The position is that of the previous stroke point: nothing changes. *)
Lemma resampleStep_same complete t sz max i raw st :
  isEqual (point (prev st)) (candidate complete t max i raw st) = true ->
  resampleStep complete t sz max i raw st = st.
Proof.
  intros Heq. unfold resampleStep. fold (candidate complete t max i raw st).
  now rewrite Heq.
Qed.

(** The start of the line is still too short: only the running length
    changes. *)
Lemma resampleStep_gated complete t sz max i raw st pt d rl :
  candidate complete t max i raw st = pt ->
  isEqual (point (prev st)) pt = false ->
  dist pt (point (prev st)) = d ->
  totalLength st + d = rl ->
  (i <? max)%nat = true ->
  hasReachedMinimumLength st = false ->
  (rl <? sz) = true ->
  resampleStep complete t sz max i raw st
  = {| strokePoints := strokePoints st;
       hasReachedMinimumLength := false;
       totalLength := rl;
       prev := prev st |}.
Proof.
  intros Hpt Hne Hd Hrl Hi Hreached Hshort.
  unfold resampleStep. fold (candidate complete t max i raw st).
  rewrite Hpt, Hne, Hd, Hrl, Hi, Hreached, Hshort. reflexivity.
Qed.

(** A stroke point is made. *)
Lemma resampleStep_emits complete t sz max i raw st pt d rl :
  candidate complete t max i raw st = pt ->
  isEqual (point (prev st)) pt = false ->
  dist pt (point (prev st)) = d ->
  totalLength st + d = rl ->
  (i <? max)%nat && negb (hasReachedMinimumLength st) && (rl <? sz) = false ->
  resampleStep complete t sz max i raw st
  = {| strokePoints := strokePoints st ++ [emitted raw st pt d rl];
       hasReachedMinimumLength := hasReachedMinimumLength st || (i <? max)%nat;
       totalLength := rl;
       prev := emitted raw st pt d rl |}.
Proof.
  intros Hpt Hne Hd Hrl Hgate.
  unfold resampleStep. fold (candidate complete t max i raw st).
  rewrite Hpt, Hne, Hd, Hrl. unfold emitted.
  destruct ((i <? max)%nat); destruct (hasReachedMinimumLength st);
    cbn [andb negb orb] in *; try reflexivity.
  now rewrite Hgate.
Qed.

Lemma resampleLoop_cons complete t sz max i raw rest st :
  resampleLoop complete t sz max i (raw :: rest) st
  = resampleLoop complete t sz max (S i) rest
      (resampleStep complete t sz max i raw st).
Proof. reflexivity. Qed.

(** The outcomes of a turn. *)
Lemma resampleStep_cases complete t sz max i raw st :
  let pt := candidate complete t max i raw st in
  let d := dist pt (point (prev st)) in
  let rl := totalLength st + d in
  (isEqual (point (prev st)) pt = true
   /\ resampleStep complete t sz max i raw st = st)
  \/ (isEqual (point (prev st)) pt = false
      /\ (i <? max)%nat = true
      /\ hasReachedMinimumLength st = false
      /\ resampleStep complete t sz max i raw st
         = {| strokePoints := strokePoints st;
              hasReachedMinimumLength := false;
              totalLength := rl;
              prev := prev st |})
  \/ (isEqual (point (prev st)) pt = false
      /\ ((i <? max)%nat = false \/ hasReachedMinimumLength st = true
          \/ (rl <? sz) = false)
      /\ resampleStep complete t sz max i raw st
         = {| strokePoints := strokePoints st ++ [emitted raw st pt d rl];
              hasReachedMinimumLength :=
                hasReachedMinimumLength st || (i <? max)%nat;
              totalLength := rl;
              prev := emitted raw st pt d rl |}).
Proof.
  intros pt d rl.
  destruct (isEqual (point (prev st)) pt) eqn:Heq.
  - left. split; [reflexivity|]. now apply resampleStep_same.
  - right.
    destruct ((i <? max)%nat && negb (hasReachedMinimumLength st) && (rl <? sz))
      eqn:Hgate.
    + left. apply andb_prop in Hgate as [Hgate Hshort].
      apply andb_prop in Hgate as [Hi Hreached].
      apply negb_true_iff in Hreached.
      repeat (split; [assumption || reflexivity|]).
      now apply (resampleStep_gated complete t sz max i raw st pt d rl).
    + right. split; [reflexivity|]. split.
      * destruct ((i <? max)%nat); [|now left].
        destruct (hasReachedMinimumLength st); [now right; left|].
        right; right. exact Hgate.
      * now apply (resampleStep_emits complete t sz max i raw st pt d rl).
Qed.
End ResampleTurns.

(** ** The resampled stroke, for every number model *)

Section Resampled.
Context {N : Type} {num : Num N}.
Local Open Scope num_scope.

Lemma preparePoints_nonempty (points : Points N) :
  toArrays points <> [] -> preparePoints points <> [].
Proof.
  unfold preparePoints. destruct (toArrays points) as [|a [|b [|c l]]];
    intros H; try contradiction; discriminate.
Qed.

Lemma getStrokePoints_loop points o p0 rest :
  preparePoints points = p0 :: rest ->
  toArrays points <> [] ->
  getStrokePoints points o
  = setFirstVector
      (strokePoints
         (resampleLoop (isComplete o) (interpolation o) (size o)
            (length rest) 1 rest (startState p0))).
Proof.
  intros Hpts Hne. unfold getStrokePoints. rewrite Hpts.
  destruct (toArrays points); [contradiction | reflexivity].
Qed.

(** A property of the loop's state that every turn keeps. *)
Lemma resampleLoop_invariant (I : ResampleState N -> Prop)
    complete t sz max (all : list (InputPoint N)) :
  (forall i raw st, In raw all -> I st -> I (resampleStep complete t sz max i raw st)) ->
  forall rest i st,
    incl rest all -> I st -> I (resampleLoop complete t sz max i rest st).
Proof.
  intros Hstep. induction rest as [|raw rest IH]; intros i st Hincl Hst; simpl.
  - exact Hst.
  - apply IH.
    + intros x Hx. apply Hincl. now right.
    + apply Hstep; [apply Hincl; now left | exact Hst].
Qed.

Lemma resampleStep_pressures complete t sz max i raw st all first :
  In raw all ->
  pressuresFrom all first (strokePoints st) ->
  pressuresFrom all first (strokePoints (resampleStep complete t sz max i raw st)).
Proof.
  intros Hin (more & Hsps & Hall).
  destruct (resampleStep_cases complete t sz max i raw st)
    as [[_ ->]|[(_ & _ & _ & ->)|(_ & _ & ->)]]; cbn [strokePoints].
  - exists more. auto.
  - exists more. auto.
  - exists (more ++ [emitted raw st (candidate complete t max i raw st)
                       (dist (candidate complete t max i raw st) (point (prev st)))
                       (totalLength st
                        + dist (candidate complete t max i raw st) (point (prev st)))]).
    split; [now rewrite Hsps|].
    apply Forall_app. split; [exact Hall|].
    constructor; [|constructor]. exists raw. split; [exact Hin | reflexivity].
Qed.

Lemma setFirstVector_pressures all first sps :
  pressuresFrom all first sps ->
  exists first' more,
    setFirstVector sps = first' :: more
    /\ pressure first' = pressure first
    /\ point first' = point first
    /\ distance first' = distance first
    /\ runningLength first' = runningLength first
    /\ Forall (fun sp => exists raw,
                   In raw all /\ pressure sp = pressureOr raw (dec 5 10)) more.
Proof.
  intros (more & -> & Hall). cbn [setFirstVector].
  eexists. exists more. repeat split; auto.
Qed.

(** The stroke points of a non-empty input: the first one has the
    position of the first raw point and its pressure, or 0.25 in its
    place; the others have the pressure of a raw point, or 0.5. *)
Lemma getStrokePoints_pressures points o p0 rest :
  preparePoints points = p0 :: rest ->
  toArrays points <> [] ->
  exists first more,
    getStrokePoints points o = first :: more
    /\ pressure first = pressureOr p0 (dec 25 100)
    /\ point first = (in_x p0, in_y p0)
    /\ distance first = ofZ 0
    /\ runningLength first = ofZ 0
    /\ Forall (fun sp => exists raw,
                   In raw rest /\ pressure sp = pressureOr raw (dec 5 10)) more.
Proof.
  intros Hpts Hne. rewrite (getStrokePoints_loop points o p0 rest Hpts Hne).
  apply (setFirstVector_pressures rest (firstStrokePoint p0)).
  apply (resampleLoop_invariant
           (fun st => pressuresFrom rest (firstStrokePoint p0) (strokePoints st))
           _ _ _ _ rest).
  - intros i raw st Hin Hst. now apply resampleStep_pressures.
  - apply incl_refl.
  - exists []. split; [reflexivity | constructor].
Qed.

(** A non-empty input has a first stroke point. *)
Lemma getStrokePoints_nonempty points o :
  toArrays points <> [] -> getStrokePoints points o <> [].
Proof.
  intros Hne.
  destruct (preparePoints points) as [|p0 rest] eqn:Hpts.
  - now apply preparePoints_nonempty in Hne.
  - destruct (getStrokePoints_pressures points o p0 rest Hpts Hne)
      as (first & more & -> & _).
    discriminate.
Qed.
End Resampled.

(** ** C7: the default pressures *)

Section DefaultPressures.
Context {N : Type} {num : Num N}.
Local Open Scope num_scope.

Lemma preparePoints_head (points : Points N) p l :
  toArrays points = p :: l -> exists rest, preparePoints points = p :: rest.
Proof.
  intros H. unfold preparePoints. rewrite H.
  destruct l as [|q [|r l]]; eexists; reflexivity.
Qed.

(** The stroke points of the input [p :: l], once it is an array of
    arrays. *)
Lemma getStrokePoints_default_pressures (points : Points N) o p l :
  toArrays points = p :: l ->
  exists first more,
    getStrokePoints points o = first :: more
    /\ pressure first = pressureOr p (dec 25 100)
    /\ Forall (fun sp => exists raw,
                   In raw (tl (preparePoints points))
                   /\ pressure sp = pressureOr raw (dec 5 10)) more.
Proof.
  intros Harr. destruct (preparePoints_head points p l Harr) as [rest Hpts].
  destruct (getStrokePoints_pressures points o p rest Hpts)
    as (first & more & Hsps & Hp & _ & _ & _ & Hall).
  - rewrite Harr. discriminate.
  - exists first, more. rewrite Hpts. auto.
Qed.
End DefaultPressures.

(** The stroke points of an array of records. *)
Lemma getStrokePoints_of_records (N : Type) (num : Num N)
    (p : InputPoint N) (l : list (InputPoint N)) (o : StrokeOptions N) :
  exists first more,
    getStrokePoints (Objects (p :: l)) o = first :: more
    /\ pressure first
       = match in_pressure p with
         | Some v => if (v >=? ofZ 0)%num then v else dec 25 100
         | None => if (dec 5 10 >=? ofZ 0)%num then dec 5 10 else dec 25 100
         end
    /\ Forall (fun sp => exists raw,
                   In raw (tl (preparePoints (Objects (p :: l))))
                   /\ pressure sp = pressureOr raw (dec 5 10)) more.
Proof.
  destruct (getStrokePoints_default_pressures (Objects (p :: l)) o
              {| in_x := in_x p; in_y := in_y p;
                 in_pressure := Some (match in_pressure p with
                                      | Some v => v
                                      | None => dec 5 10
                                      end) |}
              (map (fun q =>
                      {| in_x := in_x q; in_y := in_y q;
                         in_pressure := Some (match in_pressure q with
                                              | Some v => v
                                              | None => dec 5 10
                                              end) |}) l)
              eq_refl)
    as (first & more & Hsps & Hp & Hall).
  exists first, more. split; [exact Hsps|]. split; [|exact Hall].
  rewrite Hp. unfold pressureOr. cbn [in_pressure].
  destruct (in_pressure p); reflexivity.
Qed.

(** *** The array point a stroke point is made from *)

Section MadeFrom.
Context {N : Type} {num : Num N}.
Local Open Scope num_scope.

Lemma tracedTo_snoc complete t pts idx sps i raw a b d :
  tracedTo complete t pts idx sps ->
  Forall (fun j => (j < i)%nat) idx ->
  last sps d = a ->
  (1 <= i)%nat ->
  nth_error pts i = Some raw ->
  madeFrom complete t (length pts - 1) i raw a b ->
  tracedTo complete t pts (idx ++ [i]) (sps ++ [b]).
Proof.
  intros (Hlen & Hinc & Hmade) Hbelow Hlast Hi Hraw Hab.
  assert (Hne : sps <> []) by (destruct sps; [discriminate | discriminate]).
  split; [|split].
  - rewrite !length_app, Hlen. cbn [length]. lia.
  - intros j k x y Hjk Hx Hy.
    assert (Hk : (k < length (idx ++ [i]))%nat)
      by (apply nth_error_Some; congruence).
    rewrite length_app in Hk. cbn [length] in Hk.
    rewrite nth_error_app1 in Hx by lia.
    destruct (Nat.eq_dec k (length idx)) as [->|Hneq].
    + rewrite nth_error_app2, Nat.sub_diag in Hy by lia. injection Hy as <-.
      rewrite Forall_forall in Hbelow. apply Hbelow.
      eapply nth_error_In. exact Hx.
    + rewrite nth_error_app1 in Hy by lia. exact (Hinc j k x y Hjk Hx Hy).
  - intros k j x y Hj Hx Hy.
    assert (Hk : (k < length (idx ++ [i]))%nat)
      by (apply nth_error_Some; congruence).
    rewrite length_app in Hk. cbn [length] in Hk.
    destruct (Nat.eq_dec k (length idx)) as [->|Hneq].
    + rewrite nth_error_app2, Nat.sub_diag in Hj by lia. injection Hj as <-.
      rewrite nth_error_app1 in Hx by lia.
      rewrite nth_error_app2 in Hy by lia.
      replace (S (length idx) - length sps)%nat with 0%nat in Hy by lia.
      injection Hy as <-.
      replace (length idx) with (length sps - 1)%nat in Hx by lia.
      rewrite (nth_error_last _ sps d Hne), Hlast in Hx. injection Hx as <-.
      split; [exact Hi|]. exists raw. auto.
    + rewrite nth_error_app1 in Hj by lia.
      rewrite nth_error_app1 in Hx, Hy by lia.
      exact (Hmade k j x y Hj Hx Hy).
Qed.

Lemma resampleStep_tracing complete t sz pts i raw d st :
  (1 <= i)%nat ->
  nth_error pts i = Some raw ->
  tracing complete t pts i d st ->
  tracing complete t pts (S i) d
    (resampleStep complete t sz (length pts - 1) i raw st).
Proof.
  intros Hi Hraw (Hprev & idx & Htr & Hbelow).
  assert (Hweak : Forall (fun j => (j < S i)%nat) idx)
    by (eapply Forall_impl; [|exact Hbelow]; cbv beta; intros; lia).
  destruct (resampleStep_cases complete t sz (length pts - 1) i raw st)
    as [[_ ->]|[(_ & _ & _ & ->)|(_ & _ & ->)]];
    unfold tracing; cbn [strokePoints prev].
  - split; [exact Hprev|]. exists idx. auto.
  - split; [exact Hprev|]. exists idx. auto.
  - split; [now rewrite last_last|]. exists (idx ++ [i]). split.
    + apply (tracedTo_snoc complete t pts idx (strokePoints st) i raw (prev st) _ d);
        auto.
      split; reflexivity.
    + apply Forall_app. split; [exact Hweak|]. constructor; [lia | constructor].
Qed.

Lemma resampleLoop_tracing complete t sz pts d :
  forall rest i st,
    (1 <= i)%nat ->
    (forall k raw, nth_error rest k = Some raw -> nth_error pts (i + k) = Some raw) ->
    tracing complete t pts i d st ->
    tracing complete t pts (i + length rest) d
      (resampleLoop complete t sz (length pts - 1) i rest st).
Proof.
  induction rest as [|raw rest IH]; intros i st Hi Hnth Hst.
  - cbn [length resampleLoop]. now rewrite Nat.add_0_r.
  - rewrite resampleLoop_cons. cbn [length].
    replace (i + S (length rest))%nat with (S i + length rest)%nat by lia.
    apply IH; [lia | |].
    + intros k q Hq. replace (S i + k)%nat with (i + S k)%nat by lia.
      now apply Hnth.
    + apply resampleStep_tracing; [exact Hi | | exact Hst].
      rewrite <- (Nat.add_0_r i). now apply Hnth.
Qed.

Lemma setFirstVector_traced complete t pts idx (sps : list (StrokePoint N)) :
  tracedTo complete t pts idx sps ->
  tracedTo complete t pts idx (setFirstVector sps).
Proof.
  intros (Hlen & Hinc & Hmade).
  destruct sps as [|x sps]; [discriminate|].
  split; [exact Hlen|]. split; [exact Hinc|].
  intros k i a b Hi Ha Hb. cbn [setFirstVector nth_error] in Hb.
  destruct k as [|k].
  - cbn [setFirstVector nth_error] in Ha. injection Ha as <-.
    destruct (Hmade 0%nat i x b Hi eq_refl Hb) as (H1 & raw & Hraw & Hp & Hpr).
    split; [exact H1|]. exists raw. split; [exact Hraw|]. split; assumption.
  - cbn [setFirstVector nth_error] in Ha. exact (Hmade (S k) i a b Hi Ha Hb).
Qed.

(** The stroke points of a non-empty input are made from the array the
    loop runs over. *)
Lemma getStrokePoints_traced (points : Points N) (o : StrokeOptions N) :
  toArrays points <> [] ->
  exists idx,
    tracedTo (isComplete o) (interpolation o) (preparePoints points) idx
      (getStrokePoints points o).
Proof.
  intros Hne.
  destruct (toArrays points) as [|a l] eqn:Harr; [contradiction|].
  destruct (preparePoints_head points a l Harr) as [rest Hpts].
  rewrite (getStrokePoints_loop points o a rest Hpts)
    by (rewrite Harr; discriminate).
  rewrite Hpts.
  destruct (resampleLoop_tracing (isComplete o) (interpolation o) (size o)
              (a :: rest) (firstStrokePoint a) rest 1%nat (startState a))
    as (_ & idx & Htr & _).
  - lia.
  - intros k raw Hk. exact Hk.
  - split; [reflexivity|]. exists []. split; [|constructor].
    split; [reflexivity|]. split.
    + intros j k i i' _ H. now destruct j.
    + intros k i x y H. now destruct k.
  - exists idx. apply setFirstVector_traced.
    replace (length (a :: rest) - 1)%nat with (length rest) in Htr
      by (cbn [length]; lia).
    exact Htr.
Qed.
End MadeFrom.

(** C7, as amended: the first stroke point takes the pressure of the first
    raw point once the input is an array of arrays, or 0.25 if that is
    absent or negative; in a tuple the pressure is as given, but a record
    without a pressure has been given 0.5 by then, so its first stroke
    point has pressure 0.5 (if [0.5 >= 0], as in both number models), not
    0.25.  Every later stroke point is made from one point of the array the
    loop runs over, at an index that increases from one stroke point to the
    next: its position is computed from that array point, and its pressure
    is the pressure of that same array point, or 0.5 if that is absent or
    negative.  In every number model. *)
Theorem default_pressures (N : Type) (num : Num N)
    (p : InputPoint N) (l : list (InputPoint N)) (o : StrokeOptions N) :
  (exists first more idx,
      getStrokePoints (Tuples (p :: l)) o = first :: more
      /\ pressure first
         = match in_pressure p with
           | Some v => if (v >=? ofZ 0)%num then v else dec 25 100
           | None => dec 25 100
           end
      /\ tracedTo (isComplete o) (interpolation o)
           (preparePoints (Tuples (p :: l))) idx (first :: more))
  /\ (exists first more idx,
         getStrokePoints (Objects (p :: l)) o = first :: more
         /\ pressure first
            = match in_pressure p with
              | Some v => if (v >=? ofZ 0)%num then v else dec 25 100
              | None => if (dec 5 10 >=? ofZ 0)%num then dec 5 10 else dec 25 100
              end
         /\ tracedTo (isComplete o) (interpolation o)
              (preparePoints (Objects (p :: l))) idx (first :: more)).
Proof.
  split.
  - destruct (getStrokePoints_default_pressures (Tuples (p :: l)) o p l eq_refl)
      as (first & more & Hsps & Hp & _).
    destruct (getStrokePoints_traced (Tuples (p :: l)) o) as (idx & Htr);
      [discriminate|].
    rewrite Hsps in Htr. exists first, more, idx. auto.
  - destruct (getStrokePoints_of_records N num p l o)
      as (first & more & Hsps & Hp & _).
    destruct (getStrokePoints_traced (Objects (p :: l)) o) as (idx & Htr);
      [discriminate|].
    rewrite Hsps in Htr. exists first, more, idx. auto.
Qed.

(** C7 as stated fails on records: the record [{x: 0, y: 0}] has no
    pressure, and its first stroke point has pressure 0.5, in binary64 and
    over the reals. *)
Lemma first_pressure_of_record_is_half :
  map pressure
    (getStrokePoints (Objects [tuple (ofZ 0) (ofZ 0)])
       (defaultOptions (N := PrimFloat.float)))
  = [dec 5 10; dec 5 10]
  /\ (exists more,
         map pressure
           (getStrokePoints (Objects [tuple 0%R 0%R]) (defaultOptions (N := R)))
         = (1 / 2)%R :: more)
  /\ neqb (dec 5 10 : PrimFloat.float) (dec 25 100) = false
  /\ (1 / 2 <> 1 / 4)%R.
Proof.
  split; [|split; [|split]].
  - vm_compute. reflexivity.
  - destruct (getStrokePoints_of_records R real_numbers (tuple 0%R 0%R) [] defaultOptions)
      as (first & more & -> & Hp & _).
    exists (map pressure more). cbn [map]. f_equal. rewrite Hp.
    cbn [in_pressure tuple]. unfold dec. cbn [nleb ofZ ndiv real_numbers].
    rewrite exact_leb_true by lra. lra.
  - vm_compute. reflexivity.
  - lra.
Qed.

(** ** C3: the last point of a complete stroke *)

Section LastPoint.
Context {N : Type} {num : Num N}.
Local Open Scope num_scope.





End LastPoint.



(** ** C1: running lengths *)

Section RunningLength.
Local Open Scope R_scope.

Lemma measured_snoc sps a b d :
  sps <> [] -> last sps d = a -> measured sps ->
  follows (length sps - 1) a b -> measured (sps ++ [b]).
Proof.
  intros Hne Hlast [Hfirst Hnext] Hab. split.
  - intros first. destruct sps as [|x sps]; [contradiction|]. apply Hfirst.
  - intros i x y Hx Hy.
    assert (Hi : (S i < length (sps ++ [b]))%nat)
      by (apply nth_error_Some; congruence).
    rewrite last_length in Hi.
    destruct (Nat.eq_dec (S i) (length sps)) as [Heq|Hneq].
    + rewrite nth_error_app1 in Hx by lia.
      rewrite nth_error_app2 in Hy by lia.
      replace (S i - length sps)%nat with 0%nat in Hy by lia.
      injection Hy as <-.
      replace i with (length sps - 1)%nat in * by lia.
      rewrite (nth_error_last _ sps d Hne), Hlast in Hx.
      injection Hx as <-. exact Hab.
    + rewrite nth_error_app1 in Hx, Hy by lia. now apply Hnext.
Qed.

Lemma resampleStep_resampling complete t sz max i raw d st :
  (i <= max)%nat ->
  resampling max i d st ->
  resampling max (S i) d (resampleStep complete t sz max i raw st).
Proof.
  intros Hi (Hm & Hne & Hprev & Hle & Hfar).
  pose proof (dist_nonneg (candidate complete t max i raw st) (point (prev st)))
    as Hd.
  destruct (resampleStep_cases complete t sz max i raw st)
    as [[_ ->]|[(_ & Hlt & Hreached & ->)|(_ & Hgate & ->)]];
    unfold resampling;
    cbn [strokePoints prev totalLength hasReachedMinimumLength nadd real_numbers].
  - split; [exact Hm|]. split; [exact Hne|]. split; [exact Hprev|].
    split; [exact Hle|].
    intros H2. destruct (Hfar H2) as [[H|H] Heq]; (split; [|exact Heq]);
      [now left | right; lia].
  - split; [exact Hm|]. split; [exact Hne|]. split; [exact Hprev|].
    split; [lra|].
    intros H2. destruct (Hfar H2) as [[H|H] _]; [congruence | lia].
  - set (pt := candidate complete t max i raw st) in *.
    set (dd := dist pt (point (prev st))) in *.
    assert (Hfollows : follows (length (strokePoints st) - 1) (prev st)
                         (emitted raw st pt dd (totalLength st + dd))).
    { unfold follows. cbn [emitted runningLength distance].
      split; [lra|]. split; [lra|].
      intros Hk. destruct Hfar as [_ Heq]; [lia|]. lra. }
    split; [apply (measured_snoc (strokePoints st) (prev st) _ d); auto|].
    split; [intros E; apply app_eq_nil in E as [_ E]; discriminate|].
    split; [now rewrite last_last|].
    split; [cbn [emitted runningLength]; lra|].
    intros _. split; [|reflexivity].
    destruct (hasReachedMinimumLength st); [now left|].
    cbn [orb]. destruct (i <? max)%nat eqn:E; [now left|].
    right. apply Nat.ltb_ge in E. lia.
Qed.

Lemma resampleLoop_resampling complete t sz max d :
  forall rest i st,
    (i + length rest = S max)%nat ->
    resampling max i d st ->
    resampling max (S max) d (resampleLoop complete t sz max i rest st).
Proof.
  induction rest as [|raw rest IH]; intros i st Hlen Hst.
  - simpl in Hlen. rewrite Nat.add_0_r in Hlen. subst i. exact Hst.
  - rewrite resampleLoop_cons. apply IH; [simpl in Hlen; lia|].
    apply resampleStep_resampling; [simpl in Hlen; lia | exact Hst].
Qed.

Lemma setFirstVector_nth (sps : list (StrokePoint R)) i a :
  nth_error (setFirstVector sps) i = Some a ->
  exists a',
    nth_error sps i = Some a'
    /\ runningLength a = runningLength a'
    /\ distance a = distance a'.
Proof.
  destruct sps as [|x sps]; [now destruct i|].
  destruct i as [|i]; cbn [setFirstVector nth_error].
  - intros [= <-]. eexists. split; [reflexivity|]. split; reflexivity.
  - intros H. exists a. auto.
Qed.

Lemma setFirstVector_measured (sps : list (StrokePoint R)) :
  measured sps -> measured (setFirstVector sps).
Proof.
  intros [Hfirst Hnext]. split.
  - intros first Hf. apply setFirstVector_nth in Hf as (a & Ha & -> & _).
    now apply Hfirst.
  - intros i a b Ha Hb.
    apply setFirstVector_nth in Ha as (a' & Ha' & Hra & Hda).
    apply setFirstVector_nth in Hb as (b' & Hb' & Hrb & Hdb).
    specialize (Hnext i a' b' Ha' Hb'). unfold follows in *.
    rewrite Hra, Hrb, Hdb. exact Hnext.
Qed.

Lemma getStrokePoints_measured (points : Points R) (o : StrokeOptions R) :
  measured (getStrokePoints points o).
Proof.
  destruct (toArrays points) as [|a l] eqn:Harr.
  - unfold getStrokePoints. rewrite Harr. split.
    + intros first H. discriminate.
    + intros i x y H. now destruct i.
  - destruct (preparePoints_head points a l Harr) as [rest Hpts].
    rewrite (getStrokePoints_loop points o a rest Hpts)
      by (rewrite Harr; discriminate).
    apply setFirstVector_measured.
    apply (resampleLoop_resampling _ _ _ (length rest) (firstStrokePoint a)
             rest 1%nat); [reflexivity|].
    unfold resampling, startState. cbn [strokePoints prev totalLength length].
    split; [|split; [discriminate|split; [reflexivity|split]]].
    + split.
      * intros first [= <-]. reflexivity.
      * intros i x y Hx Hy. destruct i; discriminate.
    + cbn. lra.
    + intros H. lia.
Qed.
End RunningLength.

(** *** Running lengths in every number model *)

Section Summed.
Context {N : Type} {num : Num N}.
Local Open Scope num_scope.

Lemma summed_snoc (sps : list (StrokePoint N)) a b d :
  sps <> [] -> last sps d = a -> summed sps ->
  ((2 <= length sps)%nat -> runningLength b = runningLength a + distance b) ->
  summed (sps ++ [b]).
Proof.
  intros Hne Hlast Hs Hab i x y Hi Hx Hy.
  assert (Hlt : (S i < length (sps ++ [b]))%nat)
    by (apply nth_error_Some; congruence).
  rewrite last_length in Hlt.
  destruct (Nat.eq_dec (S i) (length sps)) as [Heq|Hneq].
  - rewrite nth_error_app1 in Hx by lia.
    rewrite nth_error_app2 in Hy by lia.
    replace (S i - length sps)%nat with 0%nat in Hy by lia.
    injection Hy as <-.
    replace i with (length sps - 1)%nat in Hx by lia.
    rewrite (nth_error_last _ sps d Hne), Hlast in Hx.
    injection Hx as <-. apply Hab. lia.
  - rewrite nth_error_app1 in Hx, Hy by lia. now apply (Hs i).
Qed.

Lemma resampleStep_summing complete t sz max i raw d st :
  (i <= max)%nat ->
  summing max i d st ->
  summing max (S i) d (resampleStep complete t sz max i raw st).
Proof.
  intros Hi (Hs & Hne & Hprev & Hfar).
  destruct (resampleStep_cases complete t sz max i raw st)
    as [[_ ->]|[(_ & Hlt & Hreached & ->)|(_ & Hgate & ->)]];
    unfold summing;
    cbn [strokePoints prev totalLength hasReachedMinimumLength].
  - split; [exact Hs|]. split; [exact Hne|]. split; [exact Hprev|].
    intros H2. destruct (Hfar H2) as [[H|H] Heq]; (split; [|exact Heq]);
      [now left | right; lia].
  - split; [exact Hs|]. split; [exact Hne|]. split; [exact Hprev|].
    intros H2. destruct (Hfar H2) as [[H|H] _]; [congruence | lia].
  - split; [|split; [|split]].
    + apply (summed_snoc (strokePoints st) (prev st) _ d); auto.
      intros H2. destruct (Hfar H2) as [_ Heq].
      cbn [emitted runningLength distance]. now rewrite Heq.
    + intros E. apply app_eq_nil in E as [_ E]. discriminate.
    + now rewrite last_last.
    + intros _. split; [|reflexivity].
      destruct (hasReachedMinimumLength st); [now left|].
      cbn [orb]. destruct (i <? max)%nat eqn:E; [now left|].
      right. apply Nat.ltb_ge in E. lia.
Qed.

Lemma resampleLoop_summing complete t sz max d :
  forall rest i st,
    (i + length rest = S max)%nat ->
    summing max i d st ->
    summing max (S max) d (resampleLoop complete t sz max i rest st).
Proof.
  induction rest as [|raw rest IH]; intros i st Hlen Hst.
  - simpl in Hlen. rewrite Nat.add_0_r in Hlen. subst i. exact Hst.
  - rewrite resampleLoop_cons. apply IH; [simpl in Hlen; lia|].
    apply resampleStep_summing; [simpl in Hlen; lia | exact Hst].
Qed.

Lemma setFirstVector_summed (sps : list (StrokePoint N)) :
  summed sps -> summed (setFirstVector sps).
Proof.
  intros Hs i a b Hi Ha Hb.
  destruct sps as [|x sps]; [now destruct i|].
  destruct i as [|i]; [lia|]. cbn [setFirstVector nth_error] in Ha, Hb.
  exact (Hs (S i) a b Hi Ha Hb).
Qed.

Lemma getStrokePoints_summed (points : Points N) (o : StrokeOptions N) :
  summed (getStrokePoints points o).
Proof.
  destruct (toArrays points) as [|a l] eqn:Harr.
  - unfold getStrokePoints. rewrite Harr. intros i x y _ H. now destruct i.
  - destruct (preparePoints_head points a l Harr) as [rest Hpts].
    rewrite (getStrokePoints_loop points o a rest Hpts)
      by (rewrite Harr; discriminate).
    apply setFirstVector_summed.
    apply (resampleLoop_summing _ _ _ (length rest) (firstStrokePoint a)
             rest 1%nat); [reflexivity|].
    unfold summing, startState. cbn [strokePoints prev totalLength length].
    split; [|split; [discriminate|split; [reflexivity|]]].
    + intros i x y Hi Hx Hy. destruct i as [|[|i]]; discriminate.
    + intros H. lia.
Qed.

Lemma getStrokePoints_starts_at_zero (points : Points N) (o : StrokeOptions N) first :
  nth_error (getStrokePoints points o) 0 = Some first ->
  runningLength first = ofZ 0.
Proof.
  destruct (toArrays points) as [|a l] eqn:Harr.
  - unfold getStrokePoints. rewrite Harr. discriminate.
  - destruct (preparePoints_head points a l Harr) as [rest Hpts].
    destruct (getStrokePoints_pressures points o a rest Hpts)
      as (f & more & -> & _ & _ & _ & Hr & _); [rewrite Harr; discriminate|].
    now intros [= <-].
Qed.
End Summed.

(** *** Tracing the loop over the reals *)

Section ExactTrace.
Local Open Scope R_scope.

Lemma dist_level (a b c d r : R) :
  c = d -> 0 <= r -> a - b = r -> dist (a, c) (b, d) = r.
Proof.
  intros -> Hr <-. unfold dist, len, sub, dpr. cbn.
  replace ((a - b) * (a - b) + (d - d) * (d - d)) with ((a - b) * (a - b)) by ring.
  now apply sqrt_square.
Qed.

Lemma isEqual_apart (a b c d : R) : a <> b -> isEqual (a, c) (b, d) = false.
Proof. intros H. unfold isEqual. cbn. now rewrite exact_eqb_false. Qed.

Lemma isEqual_same (a b c d : R) : a = b -> c = d -> isEqual (a, c) (b, d) = true.
Proof. intros -> ->. unfold isEqual. cbn. now rewrite !exact_eqb_true. Qed.

Lemma lrp_value (a b c d t x y : R) :
  a + (c - a) * t = x -> b + (d - b) * t = y -> lrp (a, b) (c, d) t = (x, y).
Proof. intros <- <-. reflexivity. Qed.

(** [t] is 0.575 at the default streamline. *)
Lemma interpolation_default :
  interpolation (defaultOptions (N := R)) = 23 / 40.
Proof. unfold interpolation, dec. cbn. lra. Qed.
End ExactTrace.

(** A turn on a level line that only adds to the running length: the
    position tried is [(x, 0)], the running length becomes [rl]. *)
Ltac turn_gated x d rl :=
  rewrite resampleLoop_cons;
  rewrite (resampleStep_gated _ _ _ _ _ _ _ (x, 0%R) d rl);
  [ cbn [strokePoints prev totalLength hasReachedMinimumLength]
  | apply lrp_value; cbn; lra
  | apply isEqual_apart; cbn; lra
  | apply dist_level; cbn; lra
  | cbn; lra
  | reflexivity
  | reflexivity
  | apply exact_ltb_true; cbn; lra ].

(** A turn on a level line that makes the stroke point [(x, 0)] at distance
    [d], the running length becoming [rl]. *)
Ltac turn_emits x d rl :=
  rewrite resampleLoop_cons;
  rewrite (resampleStep_emits _ _ _ _ _ _ _ (x, 0%R) d rl);
  [ cbn [strokePoints prev totalLength hasReachedMinimumLength app orb
         Nat.ltb Nat.leb emitted point]
  | first [ apply lrp_value; cbn; lra | reflexivity ]
  | apply isEqual_apart; cbn; lra
  | apply dist_level; cbn; lra
  | cbn; lra
  | cbn [andb negb hasReachedMinimumLength Nat.ltb Nat.leb];
    first [ reflexivity | apply exact_ltb_false; cbn; lra ] ].

(** The stroke points of four samples ten apart on a level line, at the
    default options: the second sample is dropped by the gate at the start
    of the line. *)
Lemma four_level_points :
  map (fun p => (point p, distance p, runningLength p))
    (getStrokePoints
       (Tuples [tuple 0 0; tuple 10 0; tuple 20 0; tuple 30 0]%R)
       defaultOptions)
  = [((0, 0), 0, 0);
     ((23 / 2, 0), 23 / 2, 69 / 4);
     ((1771 / 80, 0), 851 / 80, 2231 / 80)]%R.
Proof.
  rewrite (getStrokePoints_loop _ _ (tuple 0%R 0%R)
             [tuple 10 0; tuple 20 0; tuple 30 0]%R)
    by (reflexivity || discriminate).
  rewrite interpolation_default.
  cbn [isComplete size defaultOptions length ofZ real_numbers].
  unfold startState, firstStrokePoint. cbn [in_x in_y tuple].
  turn_gated (23 / 4)%R (23 / 4)%R (23 / 4)%R.
  turn_emits (23 / 2)%R (23 / 2)%R (69 / 4)%R.
  turn_emits (1771 / 80)%R (851 / 80)%R (2231 / 80)%R.
  reflexivity.
Qed.

(** C1, as amended.  In every number model: the running length of the
    first stroke point is 0 and, from the third stroke point on, the running
    length of a stroke point is the running length of the stroke point
    before it plus its own distance, as the program adds them.  (The second
    stroke point's running length also counts the positions tried and
    dropped at the start of the line.)  Over the reals, moreover: the
    running length never decreases along the stroke points; the distance of
    a stroke point is never negative and at most the increase of the running
    length since the stroke point before it, and it is that increase from
    the third stroke point on.  In binary64 the distance need not be that
    difference, even for the third stroke point: for the tuples
    [[0,0],[30,0],[3,0],[40,0]] at the default options the sum is exact and
    the difference is not. *)
Theorem running_length_of_stroke_points :
  (forall (N : Type) (num : Num N) (points : Points N) (o : StrokeOptions N),
      (forall first,
          nth_error (getStrokePoints points o) 0 = Some first ->
          runningLength first = ofZ 0)
      /\ (forall i a b,
             (1 <= i)%nat ->
             nth_error (getStrokePoints points o) i = Some a ->
             nth_error (getStrokePoints points o) (S i) = Some b ->
             runningLength b = (runningLength a + distance b)%num))
  /\ (forall (points : Points R) (o : StrokeOptions R) i a b,
         nth_error (getStrokePoints points o) i = Some a ->
         nth_error (getStrokePoints points o) (S i) = Some b ->
         (runningLength a <= runningLength b)%R
         /\ (0 <= distance b <= runningLength b - runningLength a)%R
         /\ ((1 <= i)%nat ->
             distance b = (runningLength b - runningLength a)%R))
  /\ (exists a b c more,
         getStrokePoints
           (Tuples [tuple (ofZ 0) (ofZ 0); tuple (ofZ 30) (ofZ 0);
                    tuple (ofZ 3) (ofZ 0); tuple (ofZ 40) (ofZ 0)])
           (defaultOptions (N := PrimFloat.float))
         = a :: b :: c :: more
         /\ (runningLength c === runningLength b + distance c)%num = true
         /\ (distance c === runningLength c - runningLength b)%num = false).
Proof.
  split; [|split].
  - intros N num points o. split.
    + apply getStrokePoints_starts_at_zero.
    + apply getStrokePoints_summed.
  - intros points o. apply (getStrokePoints_measured points o).
  - do 4 eexists. split; [vm_compute; reflexivity|].
    split; vm_compute; reflexivity.
Qed.

(** C1 as stated fails: for the tuples [[0,0],[10,0],[20,0],[30,0]] and the
    default options, the second stroke point has distance 11.5 and running
    length 17.25, after a first stroke point of running length 0: the
    position tried for [[10,0]] was dropped, and its distance 5.75 stayed
    in the running length.  Over the reals, and in binary64. *)
Lemma distance_is_not_the_first_increment :
  (exists a b more,
      getStrokePoints
        (Tuples [tuple 0 0; tuple 10 0; tuple 20 0; tuple 30 0]%R)
        defaultOptions
      = a :: b :: more
      /\ runningLength a = 0%R
      /\ distance b = (23 / 2)%R
      /\ runningLength b = (69 / 4)%R
      /\ distance b <> (runningLength b - runningLength a)%R)
  /\ (exists a b more,
         getStrokePoints
           (Tuples [tuple (ofZ 0) (ofZ 0); tuple (ofZ 10) (ofZ 0);
                    tuple (ofZ 20) (ofZ 0); tuple (ofZ 30) (ofZ 0)])
           (defaultOptions (N := PrimFloat.float))
         = a :: b :: more
         /\ runningLength a = ofZ 0
         /\ distance b = dec 115 10
         /\ runningLength b = dec 1725 100
         /\ (distance b === runningLength b - runningLength a)%num = false).
Proof.
  split.
  - pose proof four_level_points as H.
    destruct (getStrokePoints _ _) as [|a [|b more]]; try discriminate.
    cbn [map] in H. injection H as Ha0 Ha1 Ha2 Hb0 Hb1 Hb2 _.
    exists a, b, more. repeat (split; [reflexivity || assumption|]).
    rewrite Hb1, Hb2, Ha2. lra.
  - eexists. eexists. eexists.
    split; [vm_compute; reflexivity|].
    repeat split; vm_compute; reflexivity.
Qed.

(** ** C2: the outline of a resampled stroke *)

Section OutlineLength.
Context {N : Type} {num : Num N} {trig : Trig N} {cnt : Counters N}.
Local Open Scope num_scope.


(** The length of the outline of a non-empty stroke of positive size. *)
Lemma outline_length (sps : list (StrokePoint N)) (o : StrokeOptions N) :
  sps <> [] ->
  (size o <=? ofZ 0) = false ->
  exists outline,
    getStrokeOutlinePoints sps o = Normal outline
    /\ (length sps = 1%nat -> drawsDot o = true -> length outline = 13%nat)
    /\ (length sps = 1%nat -> drawsDot o = false -> length outline = 2%nat)
    /\ ((2 <= length sps)%nat ->
        (2 + startCapLength o + endCapLength o <= length outline)%nat).
Proof.
  intros Hne Hsize. destruct sps as [|p0 [|p1 rest]]; [contradiction| |].
  - rewrite outline_single by exact Hsize. fold (drawsDot o).
    destruct (drawsDot o).
    + destruct round_ticks as (ts & Hts & Hlen).
      eexists. split; [cbv zeta; apply forT_push; exact Hts|].
      split; [|split].
      * intros _ _. now rewrite length_map.
      * discriminate.
      * cbn. lia.
    + eexists. split; [reflexivity|].
      split; [discriminate|]. split; [reflexivity|]. cbn. lia.
  - destruct (outline_several o p0 p1 rest Hsize)
      as (l & r & s & e & -> & Hl & Hr & Hs & He).
    eexists. split; [reflexivity|].
    split; [discriminate|]. split; [discriminate|].
    intros _. rewrite !length_app, length_rev, Hs.
    destruct l; [contradiction|]. destruct r; [contradiction|].
    cbn [length]. lia.
Qed.
End OutlineLength.

Section TwoPoints.
Context {N : Type} {num : Num N} {trig : Trig N}.
Local Open Scope num_scope.

End TwoPoints.




(** ** C4: the dot of a one-point stroke *)

Section Dot.
Local Open Scope R_scope.

(** Turning a point about a pivot keeps its distance to the pivot. *)
Lemma dist_rotAround (A C : Vec R) (r : R) :
  dist (rotAround A C r) C = dist A C.
Proof.
  destruct A as [ax ay], C as [cx cy].
  unfold dist, len, rotAround, sub, dpr.
  cbn [fst snd nadd nsub nmul nsqrt nsin ncos real_numbers real_trig].
  f_equal.
  pose proof (sin2_cos2 r) as H. unfold Rsqr in H.
  set (s := sin r) in *. set (c := cos r) in *.
  set (px := ax - cx). set (py := ay - cy).
  replace (px * c - py * s + cx - cx) with (px * c - py * s) by ring.
  replace (px * s + py * c + cy - cy) with (px * s + py * c) by ring.
  transitivity ((px * px + py * py) * (s * s + c * c)); [ring|].
  rewrite H. ring.
Qed.

(** A point moved by [k] along a unit vector is at distance [|k|]. *)
Lemma dist_prj (A u : Vec R) (k : R) :
  len u = 1 -> dist (prj A u k) A = Rabs k.
Proof.
  intros Hu. pose proof (len_sqr u) as Hs. rewrite Hu in Hs.
  destruct A as [ax ay], u as [ux uy].
  unfold dist, len, prj, add, mul, sub, dpr in *.
  cbn [fst snd nadd nsub nmul nsqrt real_numbers] in *.
  replace ((ax + ux * k - ax) * (ax + ux * k - ax)
           + (ay + uy * k - ay) * (ay + uy * k - ay))
    with (k * k * (ux * ux + uy * uy)) by ring.
  rewrite <- Hs. replace (k * k * (1 * 1)) with (Rsqr k) by (unfold Rsqr; ring).
  apply sqrt_Rsqr_abs.
Qed.

(** The direction in which the dot starts is a unit vector. *)
Lemma dot_direction_unit (P : Vec R) :
  len (uni (per (sub P (add P (1, 1))))) = 1.
Proof.
  apply uni_unit_length. destruct P as [x y].
  unfold len, per, sub, add, dpr. cbn [fst snd nadd nsub nmul nneg nsqrt real_numbers].
  replace ((y - (y + 1)) * (y - (y + 1)) + - (x - (x + 1)) * - (x - (x + 1)))
    with 2 by ring.
  intros H. pose proof (sqrt_lt_R0 2 ltac:(lra)). lra.
Qed.

(** At rest (distance 0), the simulated pressure is the pressure before. *)
Lemma simulated_at_rest (sz acc : R) :
  acc <= 1 -> simulated sz 0 acc = acc.
Proof.
  intros Hacc. unfold simulated, RATE_OF_PRESSURE_CHANGE, dec.
  cbn [nmin nadd nsub nmul ndiv ofZ real_numbers].
  replace (0 / sz) with 0 by (unfold Rdiv; ring).
  rewrite (Rmin_right 1 0) by lra.
  replace (acc + (Rmin 1 (1 - 0) - acc) * (0 * (275 / 1000))) with acc by ring.
  now apply Rmin_right.
Qed.

(** The pressure used for the only point of a one-point stroke is the
    point's own, if it is at most 1 and the point is at distance 0. *)
Lemma single_point_pressure (o : StrokeOptions R) (p : StrokePoint R) :
  distance p = 0 -> pressure p <= 1 ->
  pressureAt o p (initialPressure o [p] p) = pressure p.
Proof.
  intros Hd Hp. unfold pressureAt, initialPressure. cbn [firstn fold_left].
  destruct (truthy (thinning o)); [|reflexivity].
  destruct (simulatePressure o); [|reflexivity].
  rewrite Hd, !simulated_at_rest; cbn [nadd ndiv ofZ real_numbers]; try lra.
  rewrite simulated_at_rest by lra. lra.
Qed.

Lemma dot_points (o : StrokeOptions R) (p : StrokePoint R) :
  (size o <=? ofZ 0)%num = false ->
  drawsDot o = true ->
  exists outline,
    getStrokeOutlinePoints [p] o = Normal outline
    /\ length outline = 13%nat
    /\ Forall (fun q => dist q (point p) = Rabs (dotRadius o p)) outline.
Proof.
  intros Hsize Hdot. rewrite outline_single by exact Hsize.
  fold (drawsDot o). rewrite Hdot. fold (dotRadius o p). cbv zeta.
  destruct (round_ticks (N := R)) as (ts & Hts & Hlen).
  eexists. split; [apply forT_push; exact Hts|].
  split; [now rewrite length_map|].
  apply Forall_forall. intros q Hq. apply in_map_iff in Hq as (t & <- & _).
  rewrite dist_rotAround, dist_prj by apply dot_direction_unit.
  cbn [nneg real_numbers]. apply Rabs_Ropp.
Qed.
End Dot.

(** *** The dot in every number model *)

Section DotEveryModel.
Context {N : Type} {num : Num N} {trig : Trig N} {cnt : Counters N}.
Local Open Scope num_scope.

(** The dot, in every number model: one point for each turn of the loop
    [for (t = 1/13; t <= 1; t += 1/13)], of which there are 13. *)
Lemma dot_turns (o : StrokeOptions N) (p : StrokePoint N) :
  (size o <=? ofZ 0) = false ->
  drawsDot o = true ->
  exists ts,
    ticks LOOP_FUEL (fun t => t <=? ofZ 1) (ofZ 1 / ofZ 13) (ofZ 1 / ofZ 13)
    = Normal ts
    /\ length ts = 13%nat
    /\ getStrokeOutlinePoints [p] o = Normal (map (dotPoint o p) ts).
Proof.
  intros Hsize Hdot. rewrite outline_single by exact Hsize.
  fold (drawsDot o). rewrite Hdot. fold (dotRadius o p). cbv zeta.
  destruct round_ticks as (ts & Hts & Hlen).
  exists ts. split; [exact Hts|]. split; [exact Hlen|].
  apply (forT_push _ (dotPoint o p)). exact Hts.
Qed.
End DotEveryModel.

(** *** The dot over the reals *)

Section DotExact.
Local Open Scope R_scope.

(** Over the reals the loop of the dot runs at [t = k/13] for [k] from 1 to
    13. *)
Lemma exact_round_ticks :
  ticks LOOP_FUEL (fun t => t <=? ofZ 1)%num (ofZ 1 / ofZ 13)%num
    (ofZ 1 / ofZ 13)%num
  = Normal (map (fun k => IZR k / 13) [1; 2; 3; 4; 5; 6; 7; 8; 9; 10; 11; 12; 13]%Z).
Proof.
  unfold ticks, LOOP_FUEL. do 14 turn_R. cbn [app map].
  apply f_equal. repeat (apply f_equal2; [lra|]). reflexivity.
Qed.

Lemma dist_dotStart (o : StrokeOptions R) (p : StrokePoint R) :
  dist (dotStart o p) (point p) = Rabs (dotRadius o p).
Proof.
  unfold dotStart. rewrite dist_prj by apply dot_direction_unit.
  cbn [nneg real_numbers]. apply Rabs_Ropp.
Qed.

(** Two turns of a point about a pivot, by angles less than a full turn
    apart, give two points, unless the point is the pivot. *)
Lemma rotAround_apart (A C : Vec R) (a b : R) :
  dist A C <> 0 -> 0 < b - a < 2 * PI ->
  rotAround A C a <> rotAround A C b.
Proof.
  intros Hne Hab Heq.
  destruct A as [ax ay], C as [cx cy].
  unfold rotAround in Heq. cbn [fst snd nadd nsub nmul nsin ncos real_numbers real_trig] in Heq.
  injection Heq as Hx Hy.
  set (px := ax - cx) in *. set (py := ay - cy) in *.
  assert (Hsq : px * px + py * py <> 0).
  { intros H0. apply Hne. unfold dist, len, sub, dpr.
    cbn [fst snd nadd nsub nmul nsqrt real_numbers]. fold px py.
    rewrite H0. apply sqrt_0. }
  assert (Hx' : px * (cos a - cos b) - py * (sin a - sin b) = 0) by lra.
  assert (Hy' : px * (sin a - sin b) + py * (cos a - cos b) = 0) by lra.
  assert (Hc : (px * px + py * py) * (cos a - cos b) = 0).
  { replace ((px * px + py * py) * (cos a - cos b))
      with (px * (px * (cos a - cos b) - py * (sin a - sin b))
            + py * (px * (sin a - sin b) + py * (cos a - cos b))) by ring.
    rewrite Hx', Hy'. ring. }
  assert (Hs : (px * px + py * py) * (sin a - sin b) = 0).
  { replace ((px * px + py * py) * (sin a - sin b))
      with (px * (px * (sin a - sin b) + py * (cos a - cos b))
            - py * (px * (cos a - cos b) - py * (sin a - sin b))) by ring.
    rewrite Hx', Hy'. ring. }
  apply Rmult_integral in Hc, Hs.
  destruct Hc as [Hc|Hc]; [contradiction|].
  destruct Hs as [Hs|Hs]; [contradiction|].
  assert (Hcos : cos (b - a) = 1).
  { rewrite cos_minus. replace (cos b) with (cos a) by lra.
    replace (sin b) with (sin a) by lra.
    pose proof (sin2_cos2 a) as H. unfold Rsqr in H. lra. }
  assert (Hsin : sin (b - a) = 0).
  { pose proof (sin2_cos2 (b - a)) as H. unfold Rsqr in H. rewrite Hcos in H.
    nra. }
  destruct (sin_eq_O_2PI_0 (b - a)) as [H|[H|H]]; try lra.
  rewrite H, cos_PI in Hcos. lra.
Qed.

(** The 13 points of the dot are 13 different points, unless its radius
    is 0. *)
Lemma dot_points_differ (o : StrokeOptions R) (p : StrokePoint R) :
  dotRadius o p <> 0 ->
  NoDup (map (fun k => dotPoint o p (IZR k / 13))
           [1; 2; 3; 4; 5; 6; 7; 8; 9; 10; 11; 12; 13]%Z).
Proof.
  intros Hr.
  assert (Hd : dist (dotStart o p) (point p) <> 0).
  { rewrite dist_dotStart. now apply Rabs_no_R0. }
  assert (Hpi : 3 < PI) by (pose proof PI2_3_2; lra).
  assert (Hapart : forall j k : Z,
            (1 <= j)%Z -> (j < k)%Z -> (k <= 13)%Z ->
            dotPoint o p (IZR j / 13) <> dotPoint o p (IZR k / 13)).
  { intros j k Hj Hjk Hk. unfold dotPoint. apply rotAround_apart; [exact Hd|].
    unfold FIXED_PI, dec. cbn [nadd nmul ndiv nPI ofZ real_numbers real_trig].
    apply IZR_le in Hj, Hk. apply IZR_lt in Hjk.
    replace ((PI + 1 / 10000) * 2 * (IZR k / 13) - (PI + 1 / 10000) * 2 * (IZR j / 13))
      with ((PI + 1 / 10000) * 2 * ((IZR k - IZR j) / 13)) by field.
    assert (H1 : 0 < (IZR k - IZR j) / 13 <= 12 / 13) by lra.
    nra. }
  apply NoDup_map_NoDup_ForallPairs.
  - intros j k Hj Hk Heq. cbn [In] in Hj, Hk.
    destruct (Z.lt_total j k) as [Hlt|[Heq'|Hgt]]; [|exact Heq'|].
    + exfalso. apply (Hapart j k); [lia | exact Hlt | lia | exact Heq].
    + exfalso. apply (Hapart k j); [lia | exact Hgt | lia | now symmetry].
  - repeat (constructor; [cbn [In]; intuition discriminate|]). constructor.
Qed.

(** With a thinning that is not 0 and the default easing, the radius at a
    pressure is the radius at pressure 0.5 for no other pressure than 0.5. *)
Lemma getStrokeRadius_at_half (sz th pr : R) :
  0 < sz -> th <> 0 ->
  getStrokeRadius sz th pr linear = getStrokeRadius sz th (1 / 2) linear
  <-> pr = 1 / 2.
Proof.
  intros Hsz Hth. unfold getStrokeRadius, linear, dec.
  cbn [nmul nsub ndiv ofZ real_numbers]. split.
  - intros H. assert (H' : th * (5 / 10 - pr) = 0) by nra.
    apply Rmult_integral in H'. destruct H' as [H'|H']; [contradiction | lra].
  - intros ->. reflexivity.
Qed.

Lemma dot_exact (o : StrokeOptions R) (p : StrokePoint R) :
  0 < size o ->
  (taperStart o = 0 /\ taperEnd o = 0) \/ isComplete o = true ->
  exists outline,
    getStrokeOutlinePoints [p] o = Normal outline
    /\ outline = map (fun k => dotPoint o p (IZR k / 13))
                   [1; 2; 3; 4; 5; 6; 7; 8; 9; 10; 11; 12; 13]%Z
    /\ length outline = 13%nat
    /\ Forall (fun q => dist q (point p) = Rabs (dotRadius o p)) outline
    /\ (dotRadius o p <> 0 -> NoDup outline).
Proof.
  intros Hsize Hdot.
  destruct (dot_turns o p) as (ts & Hts & Hlen & Hout).
  - apply exact_leb_false. cbn. lra.
  - unfold drawsDot. destruct Hdot as [[Hs He]|Hl].
    + rewrite Hs, He. cbn. unfold Exact.to_boolean. now rewrite exact_eqb_true.
    + rewrite Hl. apply orb_true_r.
  - rewrite exact_round_ticks in Hts. injection Hts as <-.
    eexists. split; [exact Hout|]. split; [reflexivity|].
    split; [reflexivity|]. split.
    + apply Forall_forall. intros q Hq. apply in_map_iff in Hq as (k & <- & _).
      unfold dotPoint. rewrite dist_rotAround. apply dist_dotStart.
    + apply dot_points_differ.
Qed.
End DotExact.

(** C4, as amended.  For exactly one stroke point and a positive size, if
    no taper is set or the stroke is complete, in every number model whose
    counting loops end: the outline is exactly the 13 points the loop
    [for (t = 1/13; t <= 1; t += 1/13)] pushes, each the starting point of
    the dot turned about the stroke point by [(PI + 0.0001) * 2 * t], and
    nothing else.  Over the reals, moreover: [t] is [k/13] for [k] from 1
    to 13; each point is at distance [|r|] from the stroke point; the 13
    points are different from one another unless [r] is 0; [r] is the first
    radius computed (or, if that is 0, the radius kept for the point):
    [size / 2] if [thinning] is 0, else [getStrokeRadius] at the pressure
    used for the point, which is the point's own pressure when the point is
    at distance 0 and its pressure is at most 1; so, for a thinning that is
    not 0 and the default easing, the first radius is
    [getStrokeRadius(size, thinning, 0.5)] for the pressure 0.5 and for no
    other. *)
Theorem dot_of_one_point_stroke :
  (forall (N : Type) (num : Num N) (trig : Trig N) (cnt : Counters N)
          (p : StrokePoint N) (o : StrokeOptions N),
      (size o <=? ofZ 0)%num = false ->
      drawsDot o = true ->
      exists ts,
        ticks LOOP_FUEL (fun t => t <=? ofZ 1)%num (ofZ 1 / ofZ 13)%num
          (ofZ 1 / ofZ 13)%num = Normal ts
        /\ length ts = 13%nat
        /\ getStrokeOutlinePoints [p] o = Normal (map (dotPoint o p) ts))
  /\ (forall (p : StrokePoint R) (o : StrokeOptions R),
         (0 < size o)%R ->
         (taperStart o = 0%R /\ taperEnd o = 0%R) \/ isComplete o = true ->
         exists outline,
           getStrokeOutlinePoints [p] o = Normal outline
           /\ outline
              = map (fun k => dotPoint o p (IZR k / 13)%R)
                  [1; 2; 3; 4; 5; 6; 7; 8; 9; 10; 11; 12; 13]%Z
           /\ length outline = 13%nat
           /\ Forall (fun q => dist q (point p) = Rabs (dotRadius o p)) outline
           /\ (dotRadius o p <> 0%R -> NoDup outline)
           /\ (singleFirstRadius o p <> 0%R ->
               dotRadius o p = singleFirstRadius o p)
           /\ (singleFirstRadius o p = 0%R -> dotRadius o p = singleRadius o p)
           /\ (distance p = 0%R -> (pressure p <= 1)%R ->
               singleFirstRadius o p
               = if truthy (thinning o)
                 then getStrokeRadius (size o) (thinning o) (pressure p) (easing o)
                 else (size o / 2)%R)
           /\ (distance p = 0%R -> (pressure p <= 1)%R ->
               thinning o <> 0%R -> easing o = linear ->
               (singleFirstRadius o p
                = getStrokeRadius (size o) (thinning o) (1 / 2)%R (easing o)
                <-> pressure p = (1 / 2)%R))).
Proof.
  split.
  - intros N num trig cnt p o Hsize Hdot. exact (dot_turns o p Hsize Hdot).
  - intros p o Hsize Hdot.
    destruct (dot_exact o p Hsize Hdot) as (outline & Hout & Hmap & Hlen & Hall & Hnd).
    exists outline. split; [exact Hout|]. split; [exact Hmap|].
    split; [exact Hlen|]. split; [exact Hall|]. split; [exact Hnd|].
    split; [|split; [|split]].
    + intros Hr. unfold dotRadius. cbn [truthy real_numbers]. unfold Exact.to_boolean.
      now rewrite exact_eqb_false.
    + intros Hr. unfold dotRadius. cbn [truthy real_numbers]. unfold Exact.to_boolean.
      now rewrite exact_eqb_true.
    + intros Hd Hp. unfold singleFirstRadius.
      now rewrite single_point_pressure.
    + intros Hd Hp Hth Hease. unfold singleFirstRadius.
      rewrite single_point_pressure by assumption.
      unfold radiusAt. cbn [truthy real_numbers]. unfold Exact.to_boolean.
      rewrite (exact_eqb_false _ _ Hth). cbn [negb]. rewrite Hease.
      now apply getStrokeRadius_at_half.
Qed.

Lemma dot_of_one_point_stroke_witness :
  exists outline,
    getStrokeOutlinePoints [originPoint] (defaultOptions (N := R))
    = Normal outline
    /\ length outline = 13%nat
    /\ Forall (fun q => dist q (point originPoint)
                        = Rabs (dotRadius defaultOptions originPoint)) outline.
Proof.
  destruct dot_of_one_point_stroke as (_ & Hexact).
  destruct (Hexact originPoint defaultOptions)
    as (outline & Hout & _ & Hlen & Hall & _).
  - cbn. lra.
  - left. split; reflexivity.
  - exists outline. split; [exact Hout|]. split; [exact Hlen | exact Hall].
Defined.

(** A turn that tries the position of the previous stroke point. *)
Ltac turn_same :=
  rewrite resampleLoop_cons;
  rewrite resampleStep_same;
  [ | unfold candidate, lrp, add, mul, sub, xy;
      cbn [andb Nat.eqb fst snd in_x in_y ofVec point prev];
      apply isEqual_same; cbn; lra ].

(** Two samples at the same place, as a complete stroke: one stroke point,
    with the pressure 0.25 that the first stroke point takes when the raw
    point has none. *)
Lemma two_points_at_the_origin :
  getStrokePoints (Tuples [tuple 0 0; tuple 0 0]%R)
    (withLast true defaultOptions)
  = [originPoint].
Proof.
  unfold getStrokePoints.
  cbn [toArrays preparePoints addExtraPoints addOffsetPoint map].
  cbn [isComplete size streamline withLast defaultOptions length].
  do 4 turn_same. reflexivity.
Qed.

(** One raw point of a complete stroke gives two stroke points, over the
    reals: the point added at an offset of (1,1) is kept. *)
Lemma one_raw_point_gives_two_stroke_points (p : InputPoint R) (o : StrokeOptions R) :
  isComplete o = true -> length (getStrokePoints (Tuples [p]) o) = 2%nat.
Proof.
  intros Hlast. unfold getStrokePoints.
  cbn [toArrays preparePoints addExtraPoints addOffsetPoint length].
  rewrite Hlast. cbn [resampleLoop].
  match goal with
  | |- context [resampleStep true ?t ?sz 1 1 ?raw ?st] =>
      pose proof (resampleStep_cases true t sz 1 1 raw st) as Hcases
  end.
  unfold candidate in Hcases. cbn [andb Nat.eqb Nat.ltb Nat.leb] in Hcases.
  destruct Hcases as [[Heq _]|[(_ & Hlt & _)|(_ & _ & ->)]].
  - exfalso. unfold isEqual, xy, add in Heq.
    cbn [fst snd in_x in_y point prev neqb nadd ofZ real_numbers] in Heq.
    apply andb_prop in Heq as [Hx _]. apply exact_eqb_spec in Hx. lra.
  - discriminate.
  - reflexivity.
Qed.

(** C4 as stated fails.  Read for one stroke point: the tuples
    [[0,0],[0,0]], as a complete stroke, give one stroke point, of pressure
    0.25; at the default options its outline is 13 points at distance 6
    from it, whereas [getStrokeRadius(16, 0.5, 0.5)] is 8.  Read for one raw
    point: the tuple [[0,0]], as a complete stroke, gives two stroke points,
    and their outline has at least 43 points, not 13.  Over the reals; the
    same values are computed in binary64, where the second outline has 44
    points (whatever [Math.sin] and [Math.cos] are). *)
Lemma dot_radius_is_not_at_half_pressure :
  (let o := withLast true (defaultOptions (N := R)) in
   (getStrokePoints (Tuples [tuple 0 0; tuple 0 0]%R) o = [originPoint]
    /\ (exists outline,
           getStrokeOutlinePoints [originPoint] o = Normal outline
           /\ length outline = 13%nat
           /\ Forall (fun q => dist q (0, 0)%R = 6%R) outline)
    /\ getStrokeRadius (size o) (thinning o) (1 / 2)%R (easing o) = 8%R)
   /\ (length (getStrokePoints (Tuples [tuple 0%R 0%R]) o) = 2%nat
       /\ exists outline,
            getStrokeOutlinePoints (getStrokePoints (Tuples [tuple 0%R 0%R]) o) o
            = Normal outline
            /\ (43 <= length outline)%nat))
  /\ (let o := withLast true (defaultOptions (N := PrimFloat.float)) in
      (getStrokePoints (Tuples [tuple (ofZ 0) (ofZ 0); tuple (ofZ 0) (ofZ 0)]) o
       = [originPoint]
       /\ dotRadius o originPoint = ofZ 6
       /\ getStrokeRadius (size o) (thinning o) (dec 5 10) (easing o) = ofZ 8)
      /\ (length (getStrokePoints (Tuples [tuple (ofZ 0) (ofZ 0)]) o) = 2%nat
          /\ forall trig : Trig PrimFloat.float,
               exists outline,
                 getStrokeOutlinePoints
                   (getStrokePoints (Tuples [tuple (ofZ 0) (ofZ 0)]) o) o
                 = Normal outline
                 /\ length outline = 44%nat)).
Proof.
  split.
  - intros o. split; [split; [|split]|split].
    + apply two_points_at_the_origin.
    + destruct (dot_points o originPoint) as (outline & Hout & Hlen & Hall).
      * apply exact_leb_false. cbn. lra.
      * apply orb_true_r.
      * exists outline. split; [exact Hout|]. split; [exact Hlen|].
        assert (Hr : dotRadius o originPoint = 6%R).
        { assert (Hfirst : singleFirstRadius o originPoint = 6%R).
          { unfold singleFirstRadius.
            rewrite single_point_pressure by (unfold dec; cbn; lra).
            unfold radiusAt, getStrokeRadius, dec, linear. cbn.
            unfold Exact.to_boolean. rewrite exact_eqb_false by lra. cbn. lra. }
          unfold dotRadius. rewrite Hfirst. cbn [truthy real_numbers].
          unfold Exact.to_boolean. now rewrite exact_eqb_false by lra. }
        rewrite Hr in Hall. rewrite Rabs_right in Hall by lra. exact Hall.
    + unfold getStrokeRadius, dec, linear. cbn. lra.
    + now apply one_raw_point_gives_two_stroke_points.
    + pose proof (one_raw_point_gives_two_stroke_points (tuple 0%R 0%R) o eq_refl)
        as Hlen.
      destruct (outline_length (getStrokePoints (Tuples [tuple 0%R 0%R]) o) o)
        as (outline & Hout & _ & _ & Hmany).
      * intros E. rewrite E in Hlen. discriminate.
      * apply exact_leb_false. cbn. lra.
      * exists outline. split; [exact Hout|].
        specialize (Hmany ltac:(lia)).
        assert (Hs : startCapLength o = 13%nat).
        { unfold startCapLength. cbn. unfold Exact.to_boolean.
          now rewrite exact_eqb_true. }
        assert (He : endCapLength o = 28%nat).
        { unfold endCapLength. cbn. unfold Exact.to_boolean.
          now rewrite exact_eqb_true. }
        lia.
  - intros o. split; [split; [|split]|split]; try (vm_compute; reflexivity).
    intros trig. eexists. split; vm_compute; reflexivity.
Qed.

(** ** C10: without thinning, pressures do not matter *)

Section Pressureless.
Context {N : Type} {num : Num N} {trig : Trig N}.
Local Open Scope num_scope.

Lemma alike_eq (A : Type) (c c' : Completion A) : alike eq c c' -> c = c'.
Proof. destruct c, c'; cbn; intros H; try contradiction; congruence. Qed.

Lemma alike_bind (A B : Type) (R : A -> A -> Prop) (S : B -> B -> Prop)
    (m m' : Completion A) (k k' : A -> Completion B) :
  alike R m m' ->
  (forall a a', R a a' -> alike S (k a) (k' a')) ->
  alike S (bind m k) (bind m' k').
Proof. destruct m, m'; cbn; intros H Hk; try contradiction; auto. Qed.

Lemma forT_alike (A : Type) (R : A -> A -> Prop)
    (body body' : N -> A -> Completion A) :
  (forall t a a', R a a' -> alike R (body t a) (body' t a')) ->
  forall fuel cond step t acc acc',
    R acc acc' ->
    alike R (forT fuel cond step t body acc) (forT fuel cond step t body' acc').
Proof.
  intros Hbody. induction fuel as [|fuel IH]; intros cond step t acc acc' Hacc.
  - exact I.
  - cbn [forT]. destruct (cond t); [|exact Hacc].
    apply alike_bind with (R := R); [now apply Hbody|].
    intros a a' Ha. now apply IH.
Qed.

Lemma geometry_length (l l' : list (StrokePoint N)) :
  map geometry l = map geometry l' -> length l = length l'.
Proof. intros H. apply (f_equal (@length _)) in H. now rewrite !length_map in H. Qed.

Lemma geometry_lookup (l l' : list (StrokePoint N)) (i : nat) :
  map geometry l = map geometry l' ->
  alike (fun p p' => geometry p = geometry p') (lookup l i) (lookup l' i).
Proof.
  intros H. unfold lookup.
  pose proof (f_equal (fun m => nth_error m i) H) as Hi. cbn beta in Hi.
  rewrite !nth_error_map in Hi.
  destruct (nth_error l i), (nth_error l' i); cbn in *; first [congruence | exact I].
Qed.

Lemma geometry_last (l l' : list (StrokePoint N)) (d d' : StrokePoint N) :
  map geometry l = map geometry l' -> geometry d = geometry d' ->
  geometry (last l d) = geometry (last l' d').
Proof.
  revert l'. induction l as [|a l IH]; intros [|a' l'] H Hd; try discriminate.
  - exact Hd.
  - cbn [map] in H.
    assert (Ha : geometry a = geometry a') by congruence.
    assert (Hl : map geometry l = map geometry l') by congruence.
    destruct l as [|b l], l' as [|b' l']; try discriminate.
    + exact Ha.
    + change (geometry (last (b :: l) d) = geometry (last (b' :: l') d')).
      now apply IH.
Qed.

(** With [thinning] 0, a turn of the main loop does the same to the
    variables other than [prevPressure] and [radius] whatever the
    pressures, and the last turn leaves the same [radius]. *)
Lemma outlineStep_pressureless o points points' total md i p p' st st' :
  truthy (thinning o) = false ->
  map geometry points = map geometry points' ->
  geometry p = geometry p' ->
  view st = view st' ->
  alike (fun s s' =>
           view s = view s'
           /\ (i = (length points - 1)%nat -> radius s = radius s'))
    (outlineStep o points total md i p st)
    (outlineStep o points' total md i p' st').
Proof.
  intros Hthin Hpts Hp Hst.
  unfold geometry in Hp. injection Hp as Hpoint Hvector Hdistance Hrl.
  pose proof (geometry_length _ _ Hpts) as Hlen.
  unfold view in Hst.
  injection Hst as HleftPts HrightPts HfirstRadius HprevVector HpL HpR HtL HtR.
  unfold outlineStep, radiusAt, tapered. rewrite Hthin, <- Hlen, <- Hrl.
  rewrite <- ?Hpoint, <- ?Hvector, <- ?HleftPts, <- ?HrightPts,
    <- ?HfirstRadius, <- ?HprevVector, <- ?HpL, <- ?HpR, <- ?HtL, <- ?HtR.
  destruct ((i <? length points - 1)%nat && (total - runningLength p <? ofZ 3))
    eqn:Hskip.
  - cbn. split.
    + unfold view. congruence.
    + intros ->. apply andb_prop in Hskip as [Hlt _].
      rewrite Nat.ltb_irrefl in Hlt. discriminate.
  - destruct (i =? length points - 1)%nat eqn:Hlast.
    + cbn. unfold view. cbn. split; reflexivity.
    + apply Nat.eqb_neq in Hlast.
      apply alike_bind with (R := fun q q' => geometry q = geometry q');
        [now apply geometry_lookup|].
      intros next next' Hnext. unfold geometry in Hnext.
      assert (Hnv : vector next = vector next') by congruence.
      rewrite <- Hnv.
      destruct (dpr (vector p) (vector next) <? ofZ 0).
      * apply alike_bind with (R := fun s s' => view s = view s').
        -- apply forT_alike.
           ++ intros t a a' Ha. unfold view in Ha.
              injection Ha as Ha1 Ha2 Ha3 Ha4 Ha5 Ha6 Ha7 Ha8.
              cbn. unfold view. cbn.
              now rewrite Ha1, Ha2, Ha3, Ha4, Ha5, Ha6.
           ++ unfold view. cbn. reflexivity.
        -- intros s s' Hs. unfold view in Hs.
           injection Hs as Hs1 Hs2 Hs3 Hs4 Hs5 Hs6 Hs7 Hs8.
           cbn. split; [|intros ->; contradiction].
           unfold view. cbn. now rewrite Hs1, Hs2, Hs4, Hs7, Hs8.
      * cbn. split; [|intros ->; contradiction].
        unfold view. cbn. reflexivity.
Qed.

Lemma alike_weaken (A : Type) (R S : A -> A -> Prop) (c c' : Completion A) :
  (forall a a', R a a' -> S a a') -> alike R c c' -> alike S c c'.
Proof. destruct c, c'; cbn; auto. Qed.

Lemma alike_refl (A : Type) (c : Completion A) : alike eq c c.
Proof. destruct c; cbn; auto. Qed.

Lemma outlineLoop_pressureless o points points' total md :
  truthy (thinning o) = false ->
  map geometry points = map geometry points' ->
  forall rest rest' i st st',
    map geometry rest = map geometry rest' ->
    (i + length rest = length points)%nat ->
    view st = view st' ->
    alike (fun s s' => view s = view s' /\ (rest <> [] -> radius s = radius s'))
      (outlineLoop o points total md i rest st)
      (outlineLoop o points' total md i rest' st').
Proof.
  intros Hthin Hpts.
  induction rest as [|p rest IH]; intros [|p' rest'] i st st' Hrest Hlen Hst;
    try discriminate.
  - cbn. split; [exact Hst | contradiction].
  - cbn [map] in Hrest.
    assert (Hp : geometry p = geometry p') by congruence.
    assert (Hrest1 : map geometry rest = map geometry rest') by congruence.
    cbn [outlineLoop].
    eapply alike_bind;
      [exact (outlineStep_pressureless o points points' total md i p p' st st'
                Hthin Hpts Hp Hst)|].
    cbn beta. intros s s' [Hs Hradius].
    destruct rest as [|q rest].
    + destruct rest' as [|q' rest']; [|discriminate].
      cbn. split; [exact Hs|]. intros _. apply Hradius. cbn in Hlen. lia.
    + eapply alike_weaken; [|apply IH; [exact Hrest1 | cbn in *; lia | exact Hs]].
      cbn beta. intros a a' [Ha Hr]. split; [exact Ha|].
      intros _. apply Hr. discriminate.
Qed.

(** With [thinning] 0 (a value that fails the test [if (thinning)]), the
    outline is the same for stroke points that differ in their pressures
    only. *)
Lemma outline_pressureless o points points' :
  truthy (thinning o) = false ->
  map geometry points = map geometry points' ->
  getStrokeOutlinePoints points o = getStrokeOutlinePoints points' o.
Proof.
  intros Hthin Hpts. apply alike_eq.
  destruct points as [|p0 points1], points' as [|p0' points1'];
    try discriminate; [apply alike_refl|].
  pose proof (geometry_length _ _ Hpts) as Hlen.
  assert (Hp0 : geometry p0 = geometry p0') by (cbn [map] in Hpts; congruence).
  pose proof (geometry_last _ _ p0 p0' Hpts Hp0) as Hlast.
  unfold geometry in Hp0, Hlast.
  assert (Hpoint0 : point p0 = point p0') by congruence.
  assert (Hvector0 : vector p0 = vector p0') by congruence.
  assert (HpointL : point (last (p0 :: points1) p0)
                    = point (last (p0' :: points1') p0')) by congruence.
  assert (HvectorL : vector (last (p0 :: points1) p0)
                     = vector (last (p0' :: points1') p0')) by congruence.
  assert (HrlL : runningLength (last (p0 :: points1) p0)
                 = runningLength (last (p0' :: points1') p0')) by congruence.
  unfold getStrokeOutlinePoints.
  destruct (size o <=? ofZ 0); [apply alike_refl|].
  rewrite <- Hlen, <- HrlL, <- Hpoint0, <- HpointL.
  eapply alike_bind.
  - apply (outlineLoop_pressureless o (p0 :: points1) (p0' :: points1') _ _
             Hthin Hpts (p0 :: points1) (p0' :: points1') 0%nat);
      [exact Hpts | reflexivity |].
    unfold view. cbn. now rewrite Hpoint0, Hvector0.
  - cbn beta. intros s s' [Hs Hradius]. specialize (Hradius ltac:(discriminate)).
    unfold view in Hs. injection Hs as Hs1 Hs2 Hs3 Hs4 Hs5 Hs6 Hs7 Hs8.
    unfold dot, startCapOf, endCapOf.
    rewrite <- Hs1, <- Hs2, <- Hs3, <- Hradius, <- HvectorL.
    apply alike_refl.
Qed.
End Pressureless.

(** C10. With [thinning = 0], the outline is the same for any two
    sequences of stroke points that are identical except in their
    pressures. *)
Theorem outline_ignores_pressure_without_thinning
    (N : Type) (num : Num N) (trig : Trig N) (cnt : Counters N)
    (o : StrokeOptions N) (points points' : list (StrokePoint N)) :
  thinning o = ofZ 0 ->
  map geometry points = map geometry points' ->
  getStrokeOutlinePoints points o = getStrokeOutlinePoints points' o.
Proof.
  intros Hthin Hpts. apply outline_pressureless; [|exact Hpts].
  rewrite Hthin. apply truthy_zero.
Qed.

Lemma outline_ignores_pressure_witness :
  getStrokeOutlinePoints [originPoint] (withThinning 0%R defaultOptions)
  = getStrokeOutlinePoints
      [{| point := (0, 0); pressure := 1; vector := (0, 0);
          distance := 0; runningLength := 0 |}%R]
      (withThinning 0%R defaultOptions).
Proof.
  apply (outline_ignores_pressure_without_thinning R real_numbers real_trig
           real_counters).
  - reflexivity.
  - reflexivity.
Defined.

(** * Further properties *)

(** ** getStrokePoints: the chain of stroke points *)

Section Chains.
Context {N : Type} {num : Num N}.
Local Open Scope num_scope.

Lemma chained_snoc (P : StrokePoint N -> StrokePoint N -> Prop) sps a b d :
  sps <> [] -> last sps d = a -> chained P sps -> P a b ->
  chained P (sps ++ [b]).
Proof.
  intros Hne Hlast Hnext Hab i x y Hx Hy.
  assert (Hi : (S i < length (sps ++ [b]))%nat)
    by (apply nth_error_Some; congruence).
  rewrite last_length in Hi.
  destruct (Nat.eq_dec (S i) (length sps)) as [Heq|Hneq].
  - rewrite nth_error_app1 in Hx by lia.
    rewrite nth_error_app2 in Hy by lia.
    replace (S i - length sps)%nat with 0%nat in Hy by lia.
    injection Hy as <-.
    replace i with (length sps - 1)%nat in * by lia.
    rewrite (nth_error_last _ sps d Hne), Hlast in Hx.
    injection Hx as <-. exact Hab.
  - rewrite nth_error_app1 in Hx, Hy by lia. now apply (Hnext i).
Qed.

(** The loop keeps the stroke points linked, and [prev] is the last of
    them. *)
Lemma resampleStep_linked complete t sz max i raw d st :
  chained linked (strokePoints st) /\ strokePoints st <> []
  /\ prev st = last (strokePoints st) d ->
  let st' := resampleStep complete t sz max i raw st in
  chained linked (strokePoints st') /\ strokePoints st' <> []
  /\ prev st' = last (strokePoints st') d.
Proof.
  intros (Hc & Hne & Hprev).
  destruct (resampleStep_cases complete t sz max i raw st)
    as [[_ ->]|[(_ & _ & _ & ->)|(Hdiff & _ & ->)]];
    cbn [strokePoints prev]; auto.
  split; [|split].
  - apply (chained_snoc linked (strokePoints st) (prev st) _ d); auto.
    unfold linked, emitted. cbn [point distance vector]. auto.
  - intros E. apply app_eq_nil in E as [_ E]. discriminate.
  - now rewrite last_last.
Qed.

Lemma setFirstVector_chained (P : StrokePoint N -> StrokePoint N -> Prop)
    (sps : list (StrokePoint N)) :
  (forall a a' b, point a' = point a -> P a b -> P a' b) ->
  chained P sps -> chained P (setFirstVector sps).
Proof.
  intros Hpoint Hc. destruct sps as [|x sps]; [exact Hc|].
  intros i a b Ha Hb. cbn [setFirstVector] in Ha, Hb.
  destruct i as [|i]; cbn [nth_error] in Ha, Hb.
  - injection Ha as <-. apply (Hpoint x); [reflexivity|].
    apply (Hc 0%nat); [reflexivity | exact Hb].
  - apply (Hc (S i)); assumption.
Qed.

Lemma getStrokePoints_linked (points : Points N) (o : StrokeOptions N) :
  chained linked (getStrokePoints points o).
Proof.
  destruct (toArrays points) as [|a l] eqn:Harr.
  - unfold getStrokePoints. rewrite Harr. intros i x y H. now destruct i.
  - destruct (preparePoints_head points a l Harr) as [rest Hpts].
    rewrite (getStrokePoints_loop points o a rest Hpts)
      by (rewrite Harr; discriminate).
    apply setFirstVector_chained.
    + intros x x' y Hp (H1 & H2 & H3). unfold linked. rewrite Hp. auto.
    + apply (resampleLoop_invariant
               (fun st => chained linked (strokePoints st)
                          /\ strokePoints st <> []
                          /\ prev st = last (strokePoints st) (firstStrokePoint a))
               _ _ _ _ rest).
      * intros i raw st _ Hst. now apply resampleStep_linked.
      * apply incl_refl.
      * unfold startState. cbn [strokePoints prev last].
        split; [|split; [discriminate | reflexivity]].
        intros i x y Hx Hy. destruct i; discriminate.
Qed.

(** A turn adds at most one stroke point, and never removes one. *)
Lemma resampleStep_length complete t sz max i raw (st : ResampleState N) :
  let n := length (strokePoints (resampleStep complete t sz max i raw st)) in
  (length (strokePoints st) <= n <= S (length (strokePoints st)))%nat.
Proof.
  destruct (resampleStep_cases complete t sz max i raw st)
    as [[_ ->]|[(_ & _ & _ & ->)|(_ & _ & ->)]];
    cbn [strokePoints]; rewrite ?last_length; lia.
Qed.

Lemma resampleLoop_length complete t sz max :
  forall rest i (st : ResampleState N),
    let n := length (strokePoints (resampleLoop complete t sz max i rest st)) in
    (length (strokePoints st) <= n <= length (strokePoints st) + length rest)%nat.
Proof.
  induction rest as [|raw rest IH]; intros i st; cbn [resampleLoop length].
  - lia.
  - pose proof (resampleStep_length complete t sz max i raw st) as H1.
    specialize (IH (S i) (resampleStep complete t sz max i raw st)).
    cbv zeta in *. lia.
Qed.

Lemma setFirstVector_length (sps : list (StrokePoint N)) :
  length (setFirstVector sps) = length sps.
Proof. destruct sps; reflexivity. Qed.

Lemma preparePoints_length (points : Points N) :
  length (preparePoints points) = preparedLength (length (toArrays points)).
Proof.
  unfold preparePoints.
  destruct (toArrays points) as [|a [|b [|c l]]]; reflexivity.
Qed.
End Chains.

(** X1. Two stroke points that follow one another never have the same
    position ([isEqual] is false on them); the distance of the later one is
    the distance between the two positions, and its vector is the
    normalised difference from its position back to the earlier one.  In
    every number model. *)
Theorem stroke_points_are_linked (N : Type) (num : Num N)
    (points : Points N) (o : StrokeOptions N) (i : nat) (a b : StrokePoint N) :
  nth_error (getStrokePoints points o) i = Some a ->
  nth_error (getStrokePoints points o) (S i) = Some b ->
  isEqual (point a) (point b) = false
  /\ distance b = dist (point b) (point a)
  /\ vector b = uni (sub (point a) (point b)).
Proof. intros Ha Hb. exact (getStrokePoints_linked points o i a b Ha Hb). Qed.

Lemma stroke_points_are_linked_witness :
  exists a b : StrokePoint PrimFloat.float,
    nth_error (getStrokePoints
                 (Tuples [tuple (ofZ 0) (ofZ 0); tuple (ofZ 10) (ofZ 0);
                          tuple (ofZ 20) (ofZ 0)]) defaultOptions) 0 = Some a
    /\ nth_error (getStrokePoints
                 (Tuples [tuple (ofZ 0) (ofZ 0); tuple (ofZ 10) (ofZ 0);
                          tuple (ofZ 20) (ofZ 0)]) defaultOptions) 1 = Some b
    /\ isEqual (point a) (point b) = false
    /\ distance b = dist (point b) (point a)
    /\ vector b = uni (sub (point a) (point b)).
Proof.
  eexists. eexists.
  split; [vm_compute; reflexivity|].
  split; [vm_compute; reflexivity|].
  apply (stroke_points_are_linked PrimFloat.float binary64
           (Tuples [tuple (ofZ 0) (ofZ 0); tuple (ofZ 10) (ofZ 0);
                    tuple (ofZ 20) (ofZ 0)]) defaultOptions 0);
    vm_compute; reflexivity.
Defined.

(** X2. The resampler makes no more stroke points than the array it runs
    over has points: at most [n] for an input of [n >= 3] points, at most 5
    for two points and at most 2 for one.  It returns no stroke point for
    the empty input only.  In every number model. *)
Theorem stroke_points_count (N : Type) (num : Num N)
    (points : Points N) (o : StrokeOptions N) :
  (length (getStrokePoints points o)
   <= preparedLength (length (toArrays points)))%nat
  /\ (getStrokePoints points o = [] <-> toArrays points = []).
Proof.
  destruct (toArrays points) as [|a l] eqn:Harr.
  - unfold getStrokePoints. rewrite Harr. split; [cbn; lia|]. split; auto.
  - split.
    + destruct (preparePoints_head points a l Harr) as [rest Hpts].
      rewrite (getStrokePoints_loop points o a rest Hpts)
        by (rewrite Harr; discriminate).
      rewrite setFirstVector_length.
      pose proof (resampleLoop_length (isComplete o) (interpolation o) (size o)
                    (length rest) rest 1 (startState a)) as H.
      cbv zeta in H. cbn [startState strokePoints length] in H.
      rewrite <- Harr, <- preparePoints_length, Hpts. cbn [length]. lia.
    + split; [|discriminate]. intros E. exfalso.
      apply (getStrokePoints_nonempty points o); [rewrite Harr; discriminate | exact E].
Qed.

(** ** getStrokePoints: vectors and distances over the reals *)

Section ExactLinks.
Local Open Scope R_scope.

Lemma len_zero_iff (v : Vec R) : len v = 0 -> v = (0, 0).
Proof.
  intros H. pose proof (len_sqr v) as Hs. rewrite H in Hs.
  destruct v as [a b]. unfold dpr in Hs. cbn [fst snd nadd nmul real_numbers] in Hs.
  assert (a = 0) by nra. assert (b = 0) by nra. now subst.
Qed.

Lemma isEqual_false_apart (a b : Vec R) : isEqual a b = false -> a <> b.
Proof.
  intros H E. subst b. destruct a as [x y]. unfold isEqual in H.
  cbn [fst snd neqb real_numbers] in H. now rewrite !exact_eqb_true in H.
Qed.

Lemma len_sub_apart (a b : Vec R) : a <> b -> len (sub a b) <> 0.
Proof.
  intros Hne H. apply len_zero_iff in H. apply Hne.
  destruct a as [ax ay], b as [bx by']. unfold sub in H.
  cbn [fst snd nsub real_numbers] in H. injection H as H1 H2.
  f_equal; lra.
Qed.

Lemma linked_exact (a b : StrokePoint R) :
  linked a b ->
  point a <> point b /\ 0 < distance b /\ len (vector b) = 1.
Proof.
  intros (Hne & Hd & Hv). apply isEqual_false_apart in Hne.
  split; [exact Hne|]. split.
  - rewrite Hd. unfold dist.
    pose proof (len_nonneg (sub (point b) (point a))).
    pose proof (len_sub_apart (point b) (point a) ltac:(congruence)). lra.
  - rewrite Hv. apply uni_unit_length. now apply len_sub_apart.
Qed.
End ExactLinks.

(** In a stroke of two points or more every vector has length 1, and
    every stroke point but the first is at a positive distance. *)
Lemma getStrokePoints_unit
    (points : Points R) (o : StrokeOptions R) (i : nat) (sp : StrokePoint R) :
  (2 <= length (getStrokePoints points o))%nat ->
  nth_error (getStrokePoints points o) i = Some sp ->
  len (vector sp) = 1%R /\ ((1 <= i)%nat -> (0 < distance sp)%R).
Proof.
  intros Hlen Hsp.
  pose proof (getStrokePoints_linked points o) as Hc.
  destruct i as [|i].
  - destruct (getStrokePoints points o) as [|a [|b l]] eqn:E;
      cbn [length] in Hlen; try lia.
    split; [|lia].
    assert (Ha : a = sp) by (cbn in Hsp; congruence). subst a.
    destruct (linked_exact sp b (Hc 0%nat sp b eq_refl eq_refl)) as (_ & _ & Hb).
    (* the first vector is the second one's *)
    assert (Hv : vector sp = vector b).
    { destruct (toArrays points) as [|p l'] eqn:Harr.
      - unfold getStrokePoints in E. rewrite Harr in E. discriminate.
      - destruct (preparePoints_head points p l' Harr) as [rest Hpts].
        rewrite (getStrokePoints_loop points o p rest Hpts) in E
          by (rewrite Harr; discriminate).
        destruct (strokePoints _) as [|x [|y l'']] in E; cbn in E;
          try discriminate.
        injection E as <- <- _. reflexivity. }
    now rewrite Hv.
  - assert (Hi : (i < length (getStrokePoints points o))%nat).
    { assert (S i < length (getStrokePoints points o))%nat
        by (apply nth_error_Some; congruence). lia. }
    destruct (nth_error (getStrokePoints points o) i) as [a|] eqn:Ha;
      [|apply nth_error_None in Ha; lia].
    destruct (linked_exact a sp (Hc i a sp Ha Hsp)) as (_ & Hd & Hv).
    split; [exact Hv | intros _; exact Hd].
Qed.

(** X3. Over the reals, in a stroke of two points or more every vector has
    length 1 (that of the first stroke point is the second one's), and
    every stroke point but the first has a positive distance. *)
Theorem stroke_vectors_have_length_one
    (points : Points R) (o : StrokeOptions R) (i : nat) (sp : StrokePoint R) :
  (2 <= length (getStrokePoints points o))%nat ->
  nth_error (getStrokePoints points o) i = Some sp ->
  len (vector sp) = 1%R /\ ((1 <= i)%nat -> (0 < distance sp)%R).
Proof. exact (getStrokePoints_unit points o i sp). Qed.

Lemma stroke_vectors_have_length_one_witness :
  exists sp,
    nth_error (getStrokePoints
                 (Tuples [tuple 0 0; tuple 10 0; tuple 20 0; tuple 30 0]%R)
                 defaultOptions) 1 = Some sp
    /\ len (vector sp) = 1%R /\ (0 < distance sp)%R.
Proof.
  pose proof four_level_points as H.
  assert (Hlen : length (getStrokePoints
                 (Tuples [tuple 0 0; tuple 10 0; tuple 20 0; tuple 30 0]%R)
                 defaultOptions) = 3%nat).
  { apply (f_equal (@length _)) in H. now rewrite length_map in H. }
  destruct (nth_error (getStrokePoints
                 (Tuples [tuple 0 0; tuple 10 0; tuple 20 0; tuple 30 0]%R)
                 defaultOptions) 1) as [sp|] eqn:E.
  - exists sp. split; [reflexivity|].
    destruct (stroke_vectors_have_length_one _ _ 1 sp ltac:(rewrite Hlen; lia) E)
      as [Hv Hd].
    split; [exact Hv | apply Hd; lia].
  - apply nth_error_None in E. rewrite Hlen in E. lia.
Defined.

(** ** getStrokePoints: the first stroke point and the pressures *)

Section FirstPoint.
Context {N : Type} {num : Num N}.
Local Open Scope num_scope.

Lemma resampleStep_first complete t sz max i raw (st : ResampleState N) first :
  (exists more, strokePoints st = first :: more) ->
  exists more,
    strokePoints (resampleStep complete t sz max i raw st) = first :: more.
Proof.
  intros [more Hsps].
  destruct (resampleStep_cases complete t sz max i raw st)
    as [[_ ->]|[(_ & _ & _ & ->)|(_ & _ & ->)]]; cbn [strokePoints].
  - eauto.
  - eauto.
  - rewrite Hsps. eexists. reflexivity.
Qed.

Lemma getStrokePoints_first (points : Points N) (o : StrokeOptions N) p l :
  toArrays points = p :: l ->
  exists first more,
    getStrokePoints points o = first :: more
    /\ point first = xy p
    /\ distance first = ofZ 0
    /\ runningLength first = ofZ 0
    /\ vector first = match more with
                      | second :: _ => vector second
                      | [] => (ofZ 0, ofZ 0)
                      end.
Proof.
  intros Harr. destruct (preparePoints_head points p l Harr) as [rest Hpts].
  rewrite (getStrokePoints_loop points o p rest Hpts)
    by (rewrite Harr; discriminate).
  destruct (resampleLoop_invariant
              (fun st => exists more,
                   strokePoints st = firstStrokePoint p :: more)
              (isComplete o) (interpolation o) (size o) (length rest) rest
              (fun i raw st _ => resampleStep_first _ _ _ _ i raw st _)
              rest 1%nat (startState p) (incl_refl _)
              (ex_intro _ [] eq_refl)) as [more ->].
  cbn [setFirstVector]. eexists. exists more.
  split; [reflexivity|]. cbn. auto.
Qed.
End FirstPoint.

(** X4. The first stroke point is at the position of the first input
    point, with distance 0 and running length 0, and its vector is the
    vector of the second stroke point, or (0,0) if there is none.  For
    tuples and for records, in every number model. *)
Theorem first_stroke_point (N : Type) (num : Num N)
    (p : InputPoint N) (l : list (InputPoint N)) (o : StrokeOptions N) :
  (exists first more,
      getStrokePoints (Tuples (p :: l)) o = first :: more
      /\ point first = (in_x p, in_y p)
      /\ distance first = ofZ 0
      /\ runningLength first = ofZ 0
      /\ vector first = match more with
                        | second :: _ => vector second
                        | [] => (ofZ 0, ofZ 0)
                        end)
  /\ (exists first more,
         getStrokePoints (Objects (p :: l)) o = first :: more
         /\ point first = (in_x p, in_y p)
         /\ distance first = ofZ 0
         /\ runningLength first = ofZ 0
         /\ vector first = match more with
                           | second :: _ => vector second
                           | [] => (ofZ 0, ofZ 0)
                           end).
Proof.
  split.
  - apply (getStrokePoints_first (Tuples (p :: l)) o p l). reflexivity.
  - destruct (getStrokePoints_first (Objects (p :: l)) o _ _ eq_refl)
      as (first & more & H). exists first, more. exact H.
Qed.

(** X5. For an input of exactly two points, every stroke point after the
    first has pressure 0.5, whatever pressures were given: the second point
    is replaced by four points interpolated between the two positions, and
    these carry no pressure ([lrp] of ./vec, as specified, yields a
    position).  In every number model. *)
Theorem two_points_lose_their_pressures (N : Type) (num : Num N)
    (a b : InputPoint N) (o : StrokeOptions N) :
  (exists first more,
      getStrokePoints (Tuples [a; b]) o = first :: more
      /\ Forall (fun sp => pressure sp = dec 5 10) more)
  /\ (exists first more,
         getStrokePoints (Objects [a; b]) o = first :: more
         /\ Forall (fun sp => pressure sp = dec 5 10) more).
Proof.
  split.
  - destruct (getStrokePoints_pressures (Tuples [a; b]) o a _ eq_refl)
      as (first & more & Hsps & _ & _ & _ & _ & Hall); [discriminate|].
    exists first, more. split; [exact Hsps|].
    eapply Forall_impl; [|exact Hall].
    intros sp (raw & Hin & ->). cbn [In] in Hin.
    destruct Hin as [<-|[<-|[<-|[<-|[]]]]]; reflexivity.
  - destruct (getStrokePoints_pressures (Objects [a; b]) o _ _ eq_refl)
      as (first & more & Hsps & _ & _ & _ & _ & Hall); [discriminate|].
    exists first, more. split; [exact Hsps|].
    eapply Forall_impl; [|exact Hall].
    intros sp (raw & Hin & ->). cbn [In] in Hin.
    destruct Hin as [<-|[<-|[<-|[<-|[]]]]]; reflexivity.
Qed.

(** ** getStrokePoints: the minimum length at the start of the line *)

Section MinimumLength.
Local Open Scope R_scope.

Lemma resampleStep_minimum complete t sz max i raw (st : ResampleState R) :
  (i <= max)%nat ->
  minimumLengthKept sz max i st ->
  minimumLengthKept sz max (S i) (resampleStep complete t sz max i raw st).
Proof.
  intros Hi (Hpos & Hreached & Hnot).
  pose proof (dist_nonneg (candidate complete t max i raw st) (point (prev st)))
    as Hd.
  destruct (resampleStep_cases complete t sz max i raw st)
    as [[_ ->]|[(_ & Hlt & Hr & ->)|(_ & Hgate & ->)]];
    unfold minimumLengthKept;
    cbn [strokePoints prev totalLength hasReachedMinimumLength nadd real_numbers].
  - split; [exact Hpos|]. split; [exact Hreached|].
    intros H. destruct (Hnot H) as [H1|[H1 H2]]; [now left | right; split; [lia|exact H2]].
  - split; [lra|]. split; [discriminate|].
    intros _. destruct (Hnot Hr) as [H1|[H1 H2]]; [now left | lia].
  - set (pt := candidate complete t max i raw st) in *.
    set (dd := dist pt (point (prev st))) in *.
    split; [lra|].
    destruct (hasReachedMinimumLength st) eqn:Hr; cbn [orb].
    + destruct (Hreached eq_refl) as [Hsz Hall].
      split; [|discriminate]. intros _. split; [lra|].
      destruct (strokePoints st) as [|x sps]; cbn [tl app].
      * constructor.
      * apply Forall_app. split; [exact Hall|].
        constructor; [cbn [emitted runningLength]; lra | constructor].
    + destruct (Hnot eq_refl) as [H1|[H1 H2]]; [|lia].
      destruct (strokePoints st) as [|x [|y sps]]; cbn [length] in H1;
        try discriminate.
      cbn [app tl length].
      destruct (i <? max)%nat eqn:Hlt.
      * split; [|discriminate]. intros _.
        destruct Hgate as [H|[H|H]]; try discriminate.
        assert (Hge : sz <= totalLength st + dd).
        { cbn [nltb nadd real_numbers] in H.
          unfold Exact.ltb in H.
          destruct (Rlt_dec (totalLength st + dd) sz); [discriminate | lra]. }
        split; [exact Hge|].
        constructor; [cbn [emitted runningLength]; exact Hge | constructor].
      * split; [discriminate|]. intros _. right.
        apply Nat.ltb_ge in Hlt. split; [lia | reflexivity].
Qed.

Lemma resampleLoop_minimum complete t sz max :
  forall rest i (st : ResampleState R),
    (i + length rest = S max)%nat ->
    minimumLengthKept sz max i st ->
    minimumLengthKept sz max (S max) (resampleLoop complete t sz max i rest st).
Proof.
  induction rest as [|raw rest IH]; intros i st Hlen Hst.
  - simpl in Hlen. rewrite Nat.add_0_r in Hlen. subst i. exact Hst.
  - rewrite resampleLoop_cons. apply IH; [simpl in Hlen; lia|].
    apply resampleStep_minimum; [simpl in Hlen; lia | exact Hst].
Qed.

Lemma getStrokePoints_minimum (points : Points R) (o : StrokeOptions R) :
  (3 <= length (getStrokePoints points o))%nat ->
  Forall (fun sp => size o <= runningLength sp) (tl (getStrokePoints points o)).
Proof.
  destruct (toArrays points) as [|a l] eqn:Harr.
  - unfold getStrokePoints. rewrite Harr. cbn. lia.
  - destruct (preparePoints_head points a l Harr) as [rest Hpts].
    rewrite (getStrokePoints_loop points o a rest Hpts)
      by (rewrite Harr; discriminate).
    destruct (resampleLoop_minimum (isComplete o) (interpolation o) (size o)
                (length rest) rest 1%nat (startState a) eq_refl)
      as (_ & Hreached & Hnot).
    { unfold minimumLengthKept, startState.
      cbn [strokePoints totalLength hasReachedMinimumLength length ofZ real_numbers].
      split; [lra|]. split; [discriminate|]. intros _. now left. }
    rewrite setFirstVector_length.
    destruct (strokePoints _) as [|x sps] eqn:E; cbn [setFirstVector tl length] in *.
    + lia.
    + intros Hlen.
      destruct (hasReachedMinimumLength
                  (resampleLoop (isComplete o) (interpolation o) (size o)
                     (length rest) 1 rest (startState a))).
      * now destruct (Hreached eq_refl).
      * destruct (Hnot eq_refl) as [H|[_ H]]; lia.
Qed.
End MinimumLength.

(** X6. Over the reals, in a stroke of three points or more every stroke
    point but the first has a running length of [size] at least: at the
    start of the line no stroke point is made before the running length
    reaches [size], except from the last point of the array. *)
Theorem later_stroke_points_are_past_the_minimum_length
    (points : Points R) (o : StrokeOptions R) (i : nat) (sp : StrokePoint R) :
  (3 <= length (getStrokePoints points o))%nat ->
  (1 <= i)%nat ->
  nth_error (getStrokePoints points o) i = Some sp ->
  (size o <= runningLength sp)%R.
Proof.
  intros Hlen Hi Hsp.
  pose proof (getStrokePoints_minimum points o Hlen) as Hall.
  destruct (getStrokePoints points o) as [|x sps]; [now destruct i|].
  destruct i as [|i]; [lia|]. cbn [nth_error tl] in *.
  rewrite Forall_forall in Hall. apply Hall.
  eapply nth_error_In. exact Hsp.
Qed.

Lemma later_stroke_points_are_past_the_minimum_length_witness :
  exists sp,
    nth_error (getStrokePoints
                 (Tuples [tuple 0 0; tuple 10 0; tuple 20 0; tuple 30 0]%R)
                 defaultOptions) 1 = Some sp
    /\ (16 <= runningLength sp)%R.
Proof.
  pose proof four_level_points as H.
  assert (Hlen : length (getStrokePoints
                 (Tuples [tuple 0 0; tuple 10 0; tuple 20 0; tuple 30 0]%R)
                 defaultOptions) = 3%nat).
  { apply (f_equal (@length _)) in H. now rewrite length_map in H. }
  destruct (nth_error (getStrokePoints
                 (Tuples [tuple 0 0; tuple 10 0; tuple 20 0; tuple 30 0]%R)
                 defaultOptions) 1) as [sp|] eqn:E.
  - exists sp. split; [reflexivity|].
    exact (later_stroke_points_are_past_the_minimum_length _ defaultOptions 1 sp
             ltac:(rewrite Hlen; lia) ltac:(lia) E).
  - apply nth_error_None in E. rewrite Hlen in E. lia.
Defined.

Section Pressures.
Local Open Scope R_scope.

Lemma pressureOr_nonneg (p : InputPoint R) (d : R) :
  0 <= d -> 0 <= pressureOr p d.
Proof.
  intros Hd. unfold pressureOr. destruct (in_pressure p) as [v|]; [|exact Hd].
  cbn [nleb ofZ real_numbers]. unfold Exact.leb.
  destruct (Rle_dec 0 v); [assumption | exact Hd].
Qed.
End Pressures.

(** X7. Over the reals, no stroke point has a negative pressure: a
    negative input pressure is replaced by 0.25 for the first stroke point
    and by 0.5 for the others, as an absent one is. *)
Theorem stroke_pressures_are_not_negative
    (points : Points R) (o : StrokeOptions R) :
  Forall (fun sp => (0 <= pressure sp)%R) (getStrokePoints points o).
Proof.
  destruct (toArrays points) as [|a l] eqn:Harr.
  - unfold getStrokePoints. rewrite Harr. constructor.
  - destruct (preparePoints_head points a l Harr) as [rest Hpts].
    destruct (getStrokePoints_pressures points o a rest Hpts)
      as (first & more & -> & Hp & _ & _ & _ & Hall);
      [rewrite Harr; discriminate|].
    constructor.
    + rewrite Hp. apply pressureOr_nonneg. unfold dec. cbn. lra.
    + eapply Forall_impl; [|exact Hall].
      intros sp (raw & _ & ->). apply pressureOr_nonneg. unfold dec. cbn. lra.
Qed.

(** ** getStrokePoints: translations *)

Section MovedVectors.
Local Open Scope R_scope.

Lemma vec_eq (a b c d : R) : a = c -> b = d -> (a, b) = (c, d).
Proof. now intros -> ->. Qed.

Lemma input_eq (x y x' y' : R) (p : option R) :
  x = x' -> y = y' ->
  {| in_x := x; in_y := y; in_pressure := p |}
  = {| in_x := x'; in_y := y'; in_pressure := p |}.
Proof. now intros -> ->. Qed.

Lemma lrp_move (a b v : Vec R) (t : R) :
  lrp (add a v) (add b v) t = add (lrp a b t) v.
Proof.
  destruct a, b, v. unfold lrp, add, mul, sub.
  cbn [fst snd nadd nsub nmul real_numbers]. apply vec_eq; ring.
Qed.

Lemma sub_move (a b v : Vec R) : sub (add a v) (add b v) = sub a b.
Proof.
  destruct a, b, v. unfold add, sub.
  cbn [fst snd nadd nsub real_numbers]. apply vec_eq; ring.
Qed.

Lemma dist_move (a b v : Vec R) : dist (add a v) (add b v) = dist a b.
Proof. unfold dist. now rewrite sub_move. Qed.

Lemma dist2_move (a b v : Vec R) : dist2 (add a v) (add b v) = dist2 a b.
Proof. unfold dist2. cbv zeta. now rewrite sub_move. Qed.

Lemma exact_eqb_move (a b c : R) : Exact.eqb (a + c) (b + c) = Exact.eqb a b.
Proof.
  destruct (Req_dec_T a b) as [E|E].
  - subst. now rewrite !exact_eqb_true.
  - rewrite (exact_eqb_false a b E). apply exact_eqb_false. lra.
Qed.

Lemma isEqual_move (a b v : Vec R) : isEqual (add a v) (add b v) = isEqual a b.
Proof.
  destruct a, b, v. unfold isEqual, add.
  cbn [fst snd nadd neqb real_numbers]. now rewrite !exact_eqb_move.
Qed.

Lemma xy_move (v : Vec R) (p : InputPoint R) : xy (moveInput v p) = add (xy p) v.
Proof. reflexivity. Qed.

Lemma pressureOr_move (v : Vec R) (p : InputPoint R) (d : R) :
  pressureOr (moveInput v p) d = pressureOr p d.
Proof. reflexivity. Qed.

Lemma toArrays_move (v : Vec R) (points : Points R) :
  toArrays (movePoints v points) = map (moveInput v) (toArrays points).
Proof.
  destruct points as [l|l]; cbn [movePoints toArrays]; [reflexivity|].
  rewrite !map_map. apply map_ext. reflexivity.
Qed.

Lemma ofVec_move (v a : Vec R) : ofVec (add a v) = moveInput v (ofVec a).
Proof. reflexivity. Qed.

Lemma addExtraPoints_move (v : Vec R) (pts : list (InputPoint R)) :
  addExtraPoints (map (moveInput v) pts) = map (moveInput v) (addExtraPoints pts).
Proof.
  destruct pts as [|a [|b [|c l]]]; try reflexivity.
  cbn [map addExtraPoints]. rewrite !xy_move, !lrp_move, !ofVec_move.
  reflexivity.
Qed.

Lemma addOffsetPoint_move (v : Vec R) (pts : list (InputPoint R)) :
  addOffsetPoint (map (moveInput v) pts) = map (moveInput v) (addOffsetPoint pts).
Proof.
  destruct pts as [|a [|b l]]; try reflexivity.
  destruct a as [ax ay ap], v as [vx vy].
  cbn [map addOffsetPoint in_x in_y in_pressure moveInput xy add fst snd nadd
       ofZ real_numbers].
  f_equal. f_equal. apply input_eq; cbn; ring.
Qed.

Lemma preparePoints_move (v : Vec R) (points : Points R) :
  preparePoints (movePoints v points)
  = map (moveInput v) (preparePoints points).
Proof.
  unfold preparePoints.
  now rewrite toArrays_move, addExtraPoints_move, addOffsetPoint_move.
Qed.

Lemma candidate_move (v : Vec R) complete t max i raw st :
  candidate complete t max i (moveInput v raw) (moveResample v st)
  = add (candidate complete t max i raw st) v.
Proof.
  unfold candidate. cbn [prev moveResample moveStroke point].
  destruct (complete && (i =? max)%nat).
  - apply xy_move.
  - rewrite xy_move. apply lrp_move.
Qed.

Lemma resampleStep_move (v : Vec R) complete t sz max i raw st :
  resampleStep complete t sz max i (moveInput v raw) (moveResample v st)
  = moveResample v (resampleStep complete t sz max i raw st).
Proof.
  pose proof (candidate_move v complete t max i raw st) as Hc.
  unfold resampleStep.
  fold (candidate complete t max i (moveInput v raw) (moveResample v st)).
  fold (candidate complete t max i raw st).
  rewrite Hc. cbn [prev moveResample moveStroke point totalLength strokePoints
                   hasReachedMinimumLength].
  rewrite isEqual_move, dist_move, sub_move, pressureOr_move.
  destruct (isEqual (point (prev st)) (candidate complete t max i raw st));
    [reflexivity|].
  destruct ((i <? max)%nat && negb (hasReachedMinimumLength st));
    [destruct (_ <? sz)%num|];
    unfold moveResample;
    cbn [strokePoints prev totalLength hasReachedMinimumLength moveStroke point
         pressure vector distance runningLength];
    rewrite ?map_app; reflexivity.
Qed.

Lemma resampleLoop_move (v : Vec R) complete t sz max :
  forall rest i st,
    resampleLoop complete t sz max i (map (moveInput v) rest) (moveResample v st)
    = moveResample v (resampleLoop complete t sz max i rest st).
Proof.
  induction rest as [|raw rest IH]; intros i st; cbn [map resampleLoop].
  - reflexivity.
  - rewrite resampleStep_move. apply IH.
Qed.

Lemma setFirstVector_move (v : Vec R) (sps : list (StrokePoint R)) :
  setFirstVector (map (moveStroke v) sps) = map (moveStroke v) (setFirstVector sps).
Proof. destruct sps as [|a [|b l]]; reflexivity. Qed.
End MovedVectors.

Lemma getStrokePoints_moved
    (v : Vec R) (points : Points R) (o : StrokeOptions R) :
  getStrokePoints (movePoints v points) o
  = map (moveStroke v) (getStrokePoints points o).
Proof.
  destruct (toArrays points) as [|a l] eqn:Harr.
  - unfold getStrokePoints. now rewrite toArrays_move, Harr.
  - destruct (preparePoints_head points a l Harr) as [rest Hpts].
    rewrite (getStrokePoints_loop points o a rest Hpts)
      by (rewrite Harr; discriminate).
    rewrite (getStrokePoints_loop (movePoints v points) o (moveInput v a)
               (map (moveInput v) rest)).
    + rewrite length_map.
      change (startState (moveInput v a)) with (moveResample v (startState a)).
      rewrite resampleLoop_move. cbn [strokePoints moveResample].
      apply setFirstVector_move.
    + now rewrite preparePoints_move, Hpts.
    + rewrite toArrays_move, Harr. discriminate.
Qed.

(** X8. Over the reals, the resampler commutes with translations: moving
    every input point by [v] moves the position of every stroke point by
    [v] and changes neither their number nor their pressures, vectors,
    distances and running lengths. *)
Theorem moved_input_gives_moved_stroke_points
    (v : Vec R) (points : Points R) (o : StrokeOptions R) :
  getStrokePoints (movePoints v points) o
  = map (moveStroke v) (getStrokePoints points o).
Proof. exact (getStrokePoints_moved v points o). Qed.

(** ** getStrokePoints: no streamline *)

Section Unsmoothed.
Local Open Scope R_scope.

Lemma lrp_whole (a b : Vec R) : lrp a b 1 = b.
Proof.
  destruct a, b. unfold lrp, add, mul, sub.
  cbn [fst snd nadd nsub nmul real_numbers]. apply vec_eq; ring.
Qed.

Lemma interpolation_unsmoothed (o : StrokeOptions R) :
  streamline o = 0 -> interpolation o = 1.
Proof. intros H. unfold interpolation, dec. rewrite H. cbn. lra. Qed.

Lemma resampleStep_on_input complete sz max i raw (st : ResampleState R) all :
  In raw all ->
  Forall (fun sp => exists r, In r all /\ point sp = xy r) (strokePoints st) ->
  Forall (fun sp => exists r, In r all /\ point sp = xy r)
    (strokePoints (resampleStep complete 1 sz max i raw st)).
Proof.
  intros Hin Hall.
  destruct (resampleStep_cases complete 1 sz max i raw st)
    as [[_ ->]|[(_ & _ & _ & ->)|(_ & _ & ->)]]; cbn [strokePoints]; auto.
  apply Forall_app. split; [exact Hall|].
  constructor; [|constructor]. exists raw. split; [exact Hin|].
  cbn [emitted point]. unfold candidate.
  destruct (complete && (i =? max)%nat); [reflexivity | apply lrp_whole].
Qed.
End Unsmoothed.

(** X9. Over the reals, with [streamline = 0] the interpolation level is 1
    and every stroke point is at the position of a point of the array the
    loop runs over: an input point, or one of the points added to an input
    of one or two points. *)
Theorem without_streamline_stroke_points_are_input_points
    (points : Points R) (o : StrokeOptions R) :
  streamline o = 0%R ->
  Forall (fun sp => exists raw,
              In raw (preparePoints points) /\ point sp = xy raw)
    (getStrokePoints points o).
Proof.
  intros Hs.
  destruct (toArrays points) as [|a l] eqn:Harr.
  - unfold getStrokePoints. rewrite Harr. constructor.
  - destruct (preparePoints_head points a l Harr) as [rest Hpts].
    rewrite (getStrokePoints_loop points o a rest Hpts)
      by (rewrite Harr; discriminate).
    rewrite (interpolation_unsmoothed o Hs), Hpts.
    assert (Hloop :
              Forall (fun sp => exists r, In r (a :: rest) /\ point sp = xy r)
                (strokePoints
                   (resampleLoop (isComplete o) 1%R (size o) (length rest) 1 rest
                      (startState a)))).
    { apply (resampleLoop_invariant
               (fun st => Forall (fun sp => exists r,
                                      In r (a :: rest) /\ point sp = xy r)
                            (strokePoints st))
               _ _ _ _ (a :: rest)).
      - intros i raw st Hin Hst. now apply resampleStep_on_input.
      - intros x Hx. now right.
      - constructor; [|constructor]. exists a. split; [now left | reflexivity]. }
    destruct (strokePoints _) as [|x sps]; [constructor|].
    cbn [setFirstVector]. inversion Hloop as [|? ? Hx Hrest]; subst.
    constructor; [exact Hx | exact Hrest].
Qed.

Lemma without_streamline_stroke_points_are_input_points_witness :
  Forall (fun sp => exists raw,
              In raw [tuple 0 0; tuple 10 0; tuple 20 0]%R /\ point sp = xy raw)
    (getStrokePoints (Tuples [tuple 0 0; tuple 10 0; tuple 20 0]%R)
       {| size := 16; thinning := 1 / 2; smoothing := 1 / 2; streamline := 0;
          easing := linear; simulatePressure := true; capStart := true;
          taperStart := 0; taperStartEase := defaultStartEase; capEnd := true;
          taperEnd := 0; taperEndEase := defaultEndEase; isComplete := false |}%R).
Proof.
  apply (without_streamline_stroke_points_are_input_points
           (Tuples [tuple 0 0; tuple 10 0; tuple 20 0]%R)).
  reflexivity.
Defined.

(** ** getStrokePoints: the stroke points stay in the box of the input *)

Section Box.
Local Open Scope R_scope.

Lemma lrp_inBox (lo hi a b : Vec R) (t : R) :
  0 <= t <= 1 -> inBox lo hi a -> inBox lo hi b -> inBox lo hi (lrp a b t).
Proof.
  intros Ht [Hax Hay] [Hbx Hby].
  destruct a as [ax ay], b as [bx by'], lo as [lx ly], hi as [hx hy].
  unfold inBox, lrp, add, mul, sub in *.
  cbn [fst snd nadd nsub nmul real_numbers] in *.
  replace (ax + (bx - ax) * t) with ((1 - t) * ax + t * bx) by ring.
  replace (ay + (by' - ay) * t) with ((1 - t) * ay + t * by') by ring.
  assert (H1 : 0 <= (1 - t) * (ax - lx)) by (apply Rmult_le_pos; lra).
  assert (H2 : 0 <= t * (bx - lx)) by (apply Rmult_le_pos; lra).
  assert (H3 : 0 <= (1 - t) * (hx - ax)) by (apply Rmult_le_pos; lra).
  assert (H4 : 0 <= t * (hx - bx)) by (apply Rmult_le_pos; lra).
  assert (H5 : 0 <= (1 - t) * (ay - ly)) by (apply Rmult_le_pos; lra).
  assert (H6 : 0 <= t * (by' - ly)) by (apply Rmult_le_pos; lra).
  assert (H7 : 0 <= (1 - t) * (hy - ay)) by (apply Rmult_le_pos; lra).
  assert (H8 : 0 <= t * (hy - by')) by (apply Rmult_le_pos; lra).
  repeat split; lra.
Qed.

Lemma toArrays_inBox (lo hi : Vec R) (points : Points R) (l : list (InputPoint R)) :
  points = Tuples l \/ points = Objects l ->
  Forall (fun p => inBox lo hi (xy p)) l ->
  Forall (fun p => inBox lo hi (xy p)) (toArrays points).
Proof.
  intros [-> | ->] H; cbn [toArrays]; [exact H|].
  apply Forall_forall. intros p Hp. apply in_map_iff in Hp as (q & <- & Hq).
  rewrite Forall_forall in H. exact (H q Hq).
Qed.

Lemma preparePoints_inBox (lo hi : Vec R) (points : Points R) :
  (2 <= length (toArrays points))%nat ->
  Forall (fun p => inBox lo hi (xy p)) (toArrays points) ->
  Forall (fun p => inBox lo hi (xy p)) (preparePoints points).
Proof.
  unfold preparePoints. intros Hlen H.
  destruct (toArrays points) as [|a [|b [|c l]]];
    cbn [length] in Hlen; try lia; cbn [addExtraPoints addOffsetPoint map];
    [|exact H].
  inversion H as [|? ? Ha H']; subst. inversion H' as [|? ? Hb _]; subst.
  constructor; [exact Ha|].
  repeat (constructor;
          [apply (lrp_inBox lo hi (xy a) (xy b)); [| exact Ha | exact Hb];
           cbn [ndiv ofZ real_numbers]; lra|]).
  constructor.
Qed.

Lemma interpolation_between (o : StrokeOptions R) :
  0 <= streamline o <= 1 -> 15 / 100 <= interpolation o <= 1.
Proof.
  intros H. unfold interpolation, dec. cbn [nadd nsub nmul ndiv ofZ real_numbers].
  lra.
Qed.

Lemma resampleStep_inBox (lo hi : Vec R) complete t sz max i raw
    (st : ResampleState R) :
  0 <= t <= 1 ->
  inBox lo hi (xy raw) ->
  Forall (fun sp => inBox lo hi (point sp)) (strokePoints st)
  /\ inBox lo hi (point (prev st)) ->
  let st' := resampleStep complete t sz max i raw st in
  Forall (fun sp => inBox lo hi (point sp)) (strokePoints st')
  /\ inBox lo hi (point (prev st')).
Proof.
  intros Ht Hraw [Hall Hprev].
  destruct (resampleStep_cases complete t sz max i raw st)
    as [[_ ->]|[(_ & _ & _ & ->)|(_ & _ & ->)]]; cbn [strokePoints prev]; auto.
  assert (Hpt : inBox lo hi (candidate complete t max i raw st)).
  { unfold candidate. destruct (complete && (i =? max)%nat); [exact Hraw|].
    now apply lrp_inBox. }
  split; [|exact Hpt].
  apply Forall_app. split; [exact Hall|]. constructor; [exact Hpt | constructor].
Qed.

Lemma getStrokePoints_inBox (lo hi : Vec R) (points : Points R) (o : StrokeOptions R) :
  0 <= streamline o <= 1 ->
  (2 <= length (toArrays points))%nat ->
  Forall (fun p => inBox lo hi (xy p)) (toArrays points) ->
  Forall (fun sp => inBox lo hi (point sp)) (getStrokePoints points o).
Proof.
  intros Hs Hlen Hin.
  pose proof (preparePoints_inBox lo hi points Hlen Hin) as Hprep.
  destruct (toArrays points) as [|a l] eqn:Harr; [cbn in Hlen; lia|].
  destruct (preparePoints_head points a l Harr) as [rest Hpts].
  rewrite (getStrokePoints_loop points o a rest Hpts)
    by (rewrite Harr; discriminate).
  rewrite Hpts in Hprep. inversion Hprep as [|? ? Ha Hrest]; subst.
  pose proof (interpolation_between o Hs) as Ht.
  destruct (resampleLoop_invariant
              (fun st => Forall (fun sp => inBox lo hi (point sp)) (strokePoints st)
                         /\ inBox lo hi (point (prev st)))
              (isComplete o) (interpolation o) (size o) (length rest) rest)
    with (rest := rest) (i := 1%nat) (st := startState a) as [Hall _].
  - intros i raw st Hraw Hst. apply resampleStep_inBox; [lra | | exact Hst].
    rewrite Forall_forall in Hrest. now apply Hrest.
  - apply incl_refl.
  - cbn [startState strokePoints prev firstStrokePoint point].
    split; [constructor; [exact Ha | constructor] | exact Ha].
  - destruct (strokePoints _) as [|x sps]; [constructor|].
    cbn [setFirstVector]. inversion Hall; subst. now constructor.
Qed.
End Box.

(** X10. Over the reals, for a streamline between 0 and 1 and an input of
    two points or more, every stroke point is in every box (with sides
    along the axes) that holds the input points: the smoothing never
    leaves the bounding box of the input. *)
Theorem stroke_points_stay_in_the_box_of_the_input
    (lo hi : Vec R) (l : list (InputPoint R)) (o : StrokeOptions R) :
  (0 <= streamline o <= 1)%R ->
  (2 <= length l)%nat ->
  Forall (fun p => inBox lo hi (xy p)) l ->
  Forall (fun sp => inBox lo hi (point sp)) (getStrokePoints (Tuples l) o)
  /\ Forall (fun sp => inBox lo hi (point sp)) (getStrokePoints (Objects l) o).
Proof.
  intros Hs Hlen Hin. split.
  - apply getStrokePoints_inBox; [exact Hs | exact Hlen | exact Hin].
  - apply getStrokePoints_inBox; [exact Hs | |].
    + cbn [toArrays]. now rewrite length_map.
    + apply (toArrays_inBox lo hi (Objects l) l); [now right | exact Hin].
Qed.

Lemma stroke_points_stay_in_the_box_of_the_input_witness :
  Forall (fun sp => inBox (0, 0)%R (20, 0)%R (point sp))
    (getStrokePoints (Tuples [tuple 0 0; tuple 10 0; tuple 20 0]%R) defaultOptions).
Proof.
  destruct (stroke_points_stay_in_the_box_of_the_input (0, 0)%R (20, 0)%R
              [tuple 0 0; tuple 10 0; tuple 20 0]%R defaultOptions) as [H _].
  - unfold dec. cbn. lra.
  - cbn. lia.
  - constructor; [|constructor; [|constructor; [|constructor]]];
      unfold inBox; cbn; lra.
  - exact H.
Defined.

(** ** getStrokeRadius: monotonicity and range *)

Section RadiusBounds.
Local Open Scope R_scope.

(** X11. Over the reals, for a size and a thinning that are not negative
    and an easing that does not decrease, the radius does not decrease
    when the pressure grows. *)
Theorem getStrokeRadius_grows_with_pressure
    (size thinning p q : R) (easing : R -> R) :
  (0 <= size)%R -> (0 <= thinning)%R ->
  (forall x y, (x <= y)%R -> (easing x <= easing y)%R) ->
  (p <= q)%R ->
  (getStrokeRadius size thinning p easing
   <= getStrokeRadius size thinning q easing)%R.
Proof.
  intros Hsize Hth Hmono Hpq. unfold getStrokeRadius, dec.
  cbn [nmul nsub ndiv ofZ real_numbers].
  apply Rmult_le_compat_l; [exact Hsize|]. apply Hmono. nra.
Qed.

Lemma getStrokeRadius_grows_with_pressure_witness :
  (getStrokeRadius 16 (1 / 2) 0 linear <= getStrokeRadius 16 (1 / 2) 1 linear)%R.
Proof.
  apply getStrokeRadius_grows_with_pressure; try lra.
  intros x y H. exact H.
Defined.

(** X12. Over the reals, with the default (linear) easing, a size and a
    thinning that are not negative and a pressure between 0 and 1, the
    radius lies between [size * (1 - thinning) / 2] and
    [size * (1 + thinning) / 2]. *)
Theorem getStrokeRadius_between (size thinning p : R) :
  (0 <= size)%R -> (0 <= thinning)%R -> (0 <= p <= 1)%R ->
  (size * (1 - thinning) / 2 <= getStrokeRadius size thinning p linear
   <= size * (1 + thinning) / 2)%R.
Proof.
  intros Hsize Hth Hp. unfold getStrokeRadius, linear, dec.
  cbn [nmul nsub ndiv ofZ real_numbers].
  assert (Hk : 0 <= size * thinning) by now apply Rmult_le_pos.
  replace (size * (5 / 10 - thinning * (5 / 10 - p)))
    with (size / 2 - size * thinning * (1 / 2 - p)) by field.
  split; nra.
Qed.

Lemma getStrokeRadius_between_witness :
  (16 * (1 - 1 / 2) / 2 <= getStrokeRadius 16 (1 / 2) (1 / 4) linear
   <= 16 * (1 + 1 / 2) / 2)%R.
Proof. apply getStrokeRadius_between; lra. Defined.

End RadiusBounds.

(** ** getStrokeOutlinePoints: the simulated pressure *)

Section SimulatedPressure.
Local Open Scope R_scope.

Lemma simulated_between (sz d acc : R) :
  0 < sz -> 0 <= d -> 0 <= acc ->
  0 <= simulated sz d acc <= 1.
Proof.
  intros Hsz Hd Hacc. unfold simulated, RATE_OF_PRESSURE_CHANGE, dec.
  cbn [nmin nadd nsub nmul ndiv ofZ real_numbers].
  assert (Hq : 0 <= d / sz).
  { unfold Rdiv. apply Rmult_le_pos; [exact Hd|].
    apply Rlt_le, Rinv_0_lt_compat, Hsz. }
  set (sp := Rmin 1 (d / sz)).
  assert (Hsp : 0 <= sp <= 1).
  { unfold sp. split; [apply Rmin_glb; lra | apply Rmin_l]. }
  rewrite (Rmin_right 1 (1 - sp)) by lra.
  split; [|apply Rmin_l].
  apply Rmin_glb; [lra|].
  replace (acc + (1 - sp - acc) * (sp * (275 / 1000)))
    with (acc * (1 - sp * (275 / 1000)) + (1 - sp) * (sp * (275 / 1000))) by ring.
  assert (0 <= acc * (1 - sp * (275 / 1000))) by (apply Rmult_le_pos; nra).
  assert (0 <= (1 - sp) * (sp * (275 / 1000))) by (apply Rmult_le_pos; nra).
  lra.
Qed.

Lemma initialPressure_between (o : StrokeOptions R) (points : list (StrokePoint R))
    (p0 : StrokePoint R) :
  0 < size o ->
  Forall (fun p => 0 <= distance p /\ 0 <= pressure p <= 1) points ->
  0 <= pressure p0 <= 1 ->
  0 <= initialPressure o points p0 <= 1.
Proof.
  intros Hsz Hall Hp0. unfold initialPressure.
  assert (Hfirst : Forall (fun p => 0 <= distance p /\ 0 <= pressure p <= 1)
                     (firstn 10 points)).
  { apply Forall_forall. intros p Hp. rewrite Forall_forall in Hall.
    apply Hall. eapply In_nth_error in Hp as [n Hn].
    eapply nth_error_In. rewrite nth_error_firstn in Hn.
    destruct (n <? 10)%nat; [exact Hn | discriminate]. }
  clear Hall. revert Hp0. generalize (pressure p0).
  induction Hfirst as [|p l (Hd & Hp) _ IH]; intros acc Hacc; cbn [fold_left].
  - exact Hacc.
  - apply IH. cbn [nadd ndiv ofZ real_numbers].
    destruct (simulatePressure o).
    + pose proof (simulated_between (size o) (distance p) acc Hsz Hd ltac:(lra)).
      lra.
    + lra.
Qed.

Lemma pressureAt_between (o : StrokeOptions R) (p : StrokePoint R) (prevP : R) :
  0 < size o -> 0 <= distance p -> 0 <= pressure p <= 1 -> 0 <= prevP ->
  0 <= pressureAt o p prevP <= 1.
Proof.
  intros Hsz Hd Hp Hprev. unfold pressureAt.
  destruct (truthy (thinning o)); [|exact Hp].
  destruct (simulatePressure o); [|exact Hp].
  now apply simulated_between.
Qed.
End SimulatedPressure.

(** X13. Over the reals, the simulated pressure is between 0 and 1 for a
    positive size, a distance that is not negative and a previous pressure
    that is not negative (even one above 1). *)
Theorem simulated_pressure_between (sz d acc : R) :
  (0 < sz)%R -> (0 <= d)%R -> (0 <= acc)%R ->
  (0 <= simulated sz d acc <= 1)%R.
Proof. exact (simulated_between sz d acc). Qed.

Lemma simulated_pressure_between_witness :
  (0 <= simulated 16 4 (1 / 2) <= 1)%R.
Proof. apply simulated_pressure_between; lra. Defined.

(** ** getStrokeOutlinePoints: the simulated pressure changes slowly *)

Section SimulatedStep.
Local Open Scope R_scope.

Lemma simulated_step (sz d acc : R) :
  0 < sz -> 0 <= d -> 0 <= acc <= 1 ->
  let sp := Rmin 1 (d / sz) in
  simulated sz d acc = acc + (1 - sp - acc) * (sp * (275 / 1000))
  /\ Rabs (simulated sz d acc - acc) <= 275 / 1000.
Proof.
  intros Hsz Hd Hacc sp.
  unfold simulated, RATE_OF_PRESSURE_CHANGE, dec.
  cbn [nmin nadd nsub nmul ndiv ofZ real_numbers]. fold sp.
  assert (Hq : 0 <= d / sz).
  { unfold Rdiv. apply Rmult_le_pos; [exact Hd|].
    apply Rlt_le, Rinv_0_lt_compat, Hsz. }
  assert (Hsp : 0 <= sp <= 1).
  { unfold sp. split; [apply Rmin_glb; lra | apply Rmin_l]. }
  rewrite (Rmin_right 1 (1 - sp)) by lra.
  set (w := sp * (275 / 1000)).
  assert (Hw : 0 <= w <= 275 / 1000) by (unfold w; lra).
  assert (Hx : 0 <= acc + (1 - sp - acc) * w <= 1).
  { replace (acc + (1 - sp - acc) * w) with (acc * (1 - w) + (1 - sp) * w) by ring.
    assert (0 <= acc * (1 - w) <= 1 * (1 - w)).
    { split; [apply Rmult_le_pos; lra | apply Rmult_le_compat_r; lra]. }
    assert (0 <= (1 - sp) * w <= 1 * w).
    { split; [apply Rmult_le_pos; lra | apply Rmult_le_compat_r; lra]. }
    lra. }
  rewrite (Rmin_right 1 _) by lra.
  split; [reflexivity|].
  replace (acc + (1 - sp - acc) * w - acc) with ((1 - sp - acc) * w) by ring.
  rewrite Rabs_mult, (Rabs_pos_eq w) by lra.
  assert (Habs : Rabs (1 - sp - acc) <= 1) by (apply Rabs_le; lra).
  pose proof (Rabs_pos (1 - sp - acc)) as Hpos.
  apply Rle_trans with (1 * w); [apply Rmult_le_compat_r; lra | lra].
Qed.
End SimulatedStep.

(** X14. Over the reals, for a previous pressure between 0 and 1 the
    simulated pressure is [acc + (rp - acc) * (sp * 0.275)] (the bound
    [min(1, ...)] is not reached), and it differs from the previous
    pressure by 0.275 at most. *)
Theorem simulated_pressure_changes_slowly (sz d acc : R) :
  (0 < sz)%R -> (0 <= d)%R -> (0 <= acc <= 1)%R ->
  simulated sz d acc
  = (acc + (1 - Rmin 1 (d / sz) - acc) * (Rmin 1 (d / sz) * (275 / 1000)))%R
  /\ (Rabs (simulated sz d acc - acc) <= 275 / 1000)%R.
Proof. exact (simulated_step sz d acc). Qed.

Lemma simulated_pressure_changes_slowly_witness :
  (Rabs (simulated 16 4 (1 / 2) - 1 / 2) <= 275 / 1000)%R.
Proof.
  destruct (simulated_pressure_changes_slowly 16 4 (1 / 2)) as [_ H];
    [lra | lra | lra | exact H].
Defined.

(** ** getStrokeOutlinePoints: the tapers *)

Section TaperEnds.
Local Open Scope R_scope.

Lemma ratio_between (a b : R) : 0 <= a -> a < b -> 0 <= a / b <= 1.
Proof.
  intros Ha Hab. assert (Hb : 0 < b) by lra.
  pose proof (Rinv_0_lt_compat b Hb) as Hi. unfold Rdiv. split.
  - apply Rmult_le_pos; lra.
  - apply (Rmult_le_reg_r b); [exact Hb|]. rewrite Rmult_assoc, Rinv_l; lra.
Qed.

Lemma defaultStartEase_between (x : R) :
  0 <= x <= 1 -> 0 <= defaultStartEase x <= 1.
Proof.
  intros Hx. unfold defaultStartEase. cbn [nmul nsub ofZ real_numbers]. nra.
Qed.

Lemma defaultEndEase_between (x : R) :
  0 <= x <= 1 -> 0 <= defaultEndEase x <= 1.
Proof.
  intros Hx. unfold defaultEndEase. cbn [nadd nmul nsub ofZ real_numbers].
  assert (H : 0 <= (1 - x) * ((1 - x) * (1 - x)) <= 1).
  { assert (0 <= (1 - x) * (1 - x) <= 1) by nra. nra. }
  nra.
Qed.

Lemma tapered_at_the_ends (o : StrokeOptions R) (total r0 : R) (p : StrokePoint R) :
  taperStartEase o = defaultStartEase ->
  taperEndEase o = defaultEndEase ->
  0 <= r0 ->
  0 <= runningLength p <= total ->
  (0 < taperStart o -> runningLength p = 0 -> tapered o total p r0 = 1 / 100)
  /\ (0 < taperEnd o -> runningLength p = total -> tapered o total p r0 = 1 / 100).
Proof.
  intros Hs He Hr0 Hrl. unfold tapered, dec. rewrite Hs, He.
  cbn [nmax nmin nmul nsub ndiv nltb ofZ real_numbers].
  assert (Hfloor : forall m, m = 0 -> Rmax (1 / 100) (r0 * m) = 1 / 100).
  { intros m ->. rewrite Rmult_0_r. apply Rmax_left. lra. }
  split.
  - intros Hts H0. rewrite H0. apply Hfloor.
    rewrite (exact_ltb_true 0 (taperStart o) Hts).
    replace (0 / taperStart o) with 0 by (unfold Rdiv; ring).
    replace (defaultStartEase 0) with 0
      by (unfold defaultStartEase; cbn [nmul nsub ofZ real_numbers]; ring).
    apply Rmin_left.
    destruct (Exact.ltb (total - 0) (taperEnd o)) eqn:E; [|lra].
    apply exact_ltb_spec in E.
    apply defaultEndEase_between, ratio_between; lra.
  - intros Hte Htot. rewrite Htot. apply Hfloor.
    replace (total - total) with 0 by ring.
    rewrite (exact_ltb_true 0 (taperEnd o) Hte).
    replace (0 / taperEnd o) with 0 by (unfold Rdiv; ring).
    replace (defaultEndEase 0) with 0
      by (unfold defaultEndEase; cbn [nadd nmul nsub ofZ real_numbers]; ring).
    apply Rmin_right.
    destruct (Exact.ltb total (taperStart o)) eqn:E; [|lra].
    apply exact_ltb_spec in E.
    apply defaultStartEase_between, ratio_between; lra.
Qed.
End TaperEnds.

(** X15. Over the reals, with the default taper easings the tapered radius
    is the floor 0.01 at both ends of a tapered line: at running length 0 if
    the start is tapered, and at the total length if the end is. *)
Theorem tapers_come_to_a_point
    (o : StrokeOptions R) (total r0 : R) (p : StrokePoint R) :
  taperStartEase o = defaultStartEase ->
  taperEndEase o = defaultEndEase ->
  (0 <= r0)%R ->
  (0 <= runningLength p <= total)%R ->
  ((0 < taperStart o)%R -> runningLength p = 0%R ->
   tapered o total p r0 = (1 / 100)%R)
  /\ ((0 < taperEnd o)%R -> runningLength p = total ->
      tapered o total p r0 = (1 / 100)%R).
Proof. exact (tapered_at_the_ends o total r0 p). Qed.

Lemma tapers_come_to_a_point_witness :
  tapered (withTapers 10%R 10%R defaultOptions) 20%R
    {| point := (0, 0); pressure := 1 / 2; vector := (-1, 0);
       distance := 0; runningLength := 0 |}%R 8%R
  = (1 / 100)%R.
Proof.
  destruct (tapers_come_to_a_point (withTapers 10%R 10%R defaultOptions) 20%R 8%R
              {| point := (0, 0); pressure := 1 / 2; vector := (-1, 0);
                 distance := 0; runningLength := 0 |}%R) as [Hstart _];
    try reflexivity; try (cbn; lra).
  apply Hstart; [cbn; lra | reflexivity].
Defined.

(** ** getStrokeOutlinePoints: the turns of the main loop *)

#[export] Instance binary64_corner_fan : CornerFan PrimFloat.float.
Proof. eexists. split; vm_compute; reflexivity. Qed.

#[export] Instance real_corner_fan : CornerFan R.
Proof.
  eexists. unfold ticks, LOOP_FUEL. split; [do 15 turn_R; reflexivity | reflexivity].
Qed.

Section OutlineTurns.
Context {N : Type} {num : Num N} {trig : Trig N}.
Local Open Scope num_scope.

Lemma cornerTurns_fold pt offset ts :
  forall st : OutlineState N,
    let st' := fold_left (fun a t => cornerTurn pt offset t a) ts st in
    leftPts st' = leftPts st ++ map (fanLeft pt offset) ts
    /\ rightPts st' = rightPts st ++ map (fanRight pt offset) ts
    /\ prevPressure st' = prevPressure st
    /\ radius st' = radius st
    /\ firstRadius st' = firstRadius st
    /\ prevVector st' = prevVector st.
Proof.
  induction ts as [|t ts IH]; intros st; cbn [fold_left map].
  - rewrite !app_nil_r. repeat split.
  - destruct (IH (cornerTurn pt offset t st)) as (Hl & Hr & Hp & Hrad & Hf & Hv).
    cbv zeta. rewrite Hl, Hr, Hp, Hrad, Hf, Hv.
    cbn [cornerTurn leftPts rightPts prevPressure radius firstRadius prevVector].
    rewrite <- !app_assoc. repeat split.
Qed.

Lemma lookup_nth_error (A : Type) (l : list A) (i : nat) (a : A) :
  lookup l i = Normal a -> nth_error l i = Some a.
Proof. unfold lookup. destruct (nth_error l i); [now intros [= ->] | discriminate]. Qed.

(** What one turn of the main loop does, by cases: the point is passed
    over, or it is the last one, or the line turns back on itself at it, or
    none of these. *)
Lemma outlineStep_spec o points total md i p (st : OutlineState N) ts :
  ticks LOOP_FUEL (fun t => t <=? ofZ 1) (ofZ 1 / ofZ 13) (ofZ 0) = Normal ts ->
  (i < length points)%nat ->
  exists st',
    outlineStep o points total md i p st = Normal st'
    /\ let rad := turnRadius o total p (prevPressure st) in
       ((i < length points - 1)%nat
        /\ (total - runningLength p <? ofZ 3) = true
        /\ st' = st)
       \/ (i = (length points - 1)%nat
           /\ leftPts st' = leftPts st ++ [sub (point p) (mul (per (vector p)) rad)]
           /\ rightPts st' = rightPts st ++ [add (point p) (mul (per (vector p)) rad)]
           /\ prevPressure st' = prevPressure st
           /\ radius st' = rad
           /\ prevVector st' = prevVector st)
       \/ (exists next,
              (i < length points - 1)%nat
              /\ nth_error points (i + 1) = Some next
              /\ (dpr (vector p) (vector next) <? ofZ 0) = true
              /\ leftPts st'
                 = leftPts st
                   ++ map (fanLeft (point p) (mul (per (prevVector st)) rad)) ts
              /\ rightPts st'
                 = rightPts st
                   ++ map (fanRight (point p) (mul (per (prevVector st)) rad)) ts
              /\ prevPressure st' = prevPressure st
              /\ radius st' = rad
              /\ prevVector st' = prevVector st)
       \/ (exists next,
              (i < length points - 1)%nat
              /\ nth_error points (i + 1) = Some next
              /\ (dpr (vector p) (vector next) <? ofZ 0) = false
              /\ let off :=
                   mul (per (lrp (vector next) (vector p)
                               (dpr (vector p) (vector next)))) rad in
                 (leftPts st' = leftPts st ++ [sub (point p) off]
                  \/ ((1 < i)%nat /\ leftPts st' = leftPts st))
                 /\ (rightPts st' = rightPts st ++ [add (point p) off]
                     \/ ((1 < i)%nat /\ rightPts st' = rightPts st))
                 /\ prevPressure st' = pressureAt o p (prevPressure st)
                 /\ radius st' = rad
                 /\ prevVector st' = vector p).
Proof.
  intros Hts Hi. unfold outlineStep. fold (turnRadius o total p (prevPressure st)).
  destruct ((i <? length points - 1)%nat && (total - runningLength p <? ofZ 3))
    eqn:Hskip.
  - exists st. split; [reflexivity|]. left.
    apply andb_prop in Hskip as [Hlt Hnear]. apply Nat.ltb_lt in Hlt. auto.
  - destruct (i =? length points - 1)%nat eqn:Hlast.
    + apply Nat.eqb_eq in Hlast. eexists. split; [reflexivity|].
      right; left. cbn [leftPts rightPts prevPressure radius prevVector].
      repeat (split; [first [assumption | reflexivity]|]). reflexivity.
    + apply Nat.eqb_neq in Hlast.
      destruct (lookup_lt _ points (i + 1)) as [next Hnext]; [lia|].
      rewrite Hnext. cbn [bind]. apply lookup_nth_error in Hnext.
      destruct (dpr (vector p) (vector next) <? ofZ 0) eqn:Hdpr.
      * match goal with
        | |- context [forT _ _ _ _ (cornerBody ?pt ?off) ?s] =>
            rewrite (forT_ext _ (cornerBody pt off)
                       (fun t a => Normal (cornerTurn pt off t a)))
              by reflexivity;
            rewrite (forT_ticks _ (fun t a => cornerTurn pt off t a) _ _ _ _ ts s Hts);
            destruct (cornerTurns_fold pt off ts s) as (Hl & Hr & Hp & _ & _ & Hv)
        end.
        cbn [bind]. eexists. split; [reflexivity|].
        right; right; left. exists next.
        cbn [leftPts rightPts prevPressure radius prevVector] in *.
        repeat (split; [first [assumption | lia | reflexivity]|]).
        exact Hv.
      * eexists. split; [reflexivity|].
        right; right; right. exists next.
        split; [lia|]. split; [exact Hnext|]. split; [exact Hdpr|].
        cbn [leftPts rightPts prevPressure radius prevVector].
        split; [|split; [|auto]].
        -- destruct (i <=? 1)%nat eqn:E; cbn [orb]; [now left|].
           apply Nat.leb_gt in E.
           destruct (md <? _); [now left | right; auto].
        -- destruct (i <=? 1)%nat eqn:E; cbn [orb]; [now left|].
           apply Nat.leb_gt in E.
           destruct (md <? _); [now left | right; auto].
Qed.
End OutlineTurns.

(** X16. At a sharp corner (the dot product of the vector of the point and
    of the next one is negative), a turn of the main loop that is not
    passed over adds exactly 14 points to the left side and 14 to the right
    side: the loop [for (t = 0; t <= 1; t += 1/13)] takes 14 turns, over
    the reals and in binary64 ([real_corner_fan], [binary64_corner_fan]). *)
Theorem sharp_corner_adds_fourteen_points
    (N : Type) (num : Num N) (trig : Trig N) (fan : CornerFan N)
    (o : StrokeOptions N) (points : list (StrokePoint N)) (total md : N)
    (i : nat) (p next : StrokePoint N) (st : OutlineState N) :
  nth_error points (i + 1) = Some next ->
  (total - runningLength p <? ofZ 3)%num = false ->
  (dpr (vector p) (vector next) <? ofZ 0)%num = true ->
  exists st' ls rs,
    outlineStep o points total md i p st = Normal st'
    /\ leftPts st' = leftPts st ++ ls
    /\ rightPts st' = rightPts st ++ rs
    /\ length ls = 14%nat
    /\ length rs = 14%nat.
Proof.
  intros Hnext Hfar Hdpr.
  destruct (corner_fan (N := N)) as (ts & Hts & Hlen).
  assert (Hi : (i + 1 < length points)%nat)
    by (apply nth_error_Some; congruence).
  destruct (outlineStep_spec o points total md i p st ts Hts ltac:(lia))
    as (st' & Hrun & Hcases).
  exists st'.
  destruct Hcases as [(_ & Hnear & _)|[(Hlast & _)|[Hcorner|Hregular]]].
  - congruence.
  - lia.
  - destruct Hcorner as (next' & _ & _ & _ & Hl & Hr & _).
    do 2 eexists. split; [exact Hrun|]. split; [exact Hl|]. split; [exact Hr|].
    now rewrite !length_map.
  - destruct Hregular as (next' & _ & Hnext' & Hdpr' & _). congruence.
Qed.

Lemma sharp_corner_adds_fourteen_points_witness :
  let a := {| point := (0, 0); pressure := 1 / 2; vector := (-1, 0);
              distance := 0; runningLength := 0 |}%R in
  let b := {| point := (10, 0); pressure := 1 / 2; vector := (-1, 0);
              distance := 10; runningLength := 10 |}%R in
  let c := {| point := (0, 0); pressure := 1 / 2; vector := (1, 0);
              distance := 10; runningLength := 20 |}%R in
  exists st' ls rs,
    outlineStep defaultOptions [a; b; c] 20%R 64%R 1 b
      (initialState defaultOptions [a; b; c] a) = Normal st'
    /\ leftPts st' = ls /\ rightPts st' = rs
    /\ length ls = 14%nat /\ length rs = 14%nat.
Proof.
  intros a b c.
  destruct (sharp_corner_adds_fourteen_points R real_numbers real_trig
              real_corner_fan defaultOptions [a; b; c] 20%R 64%R 1 b c
              (initialState defaultOptions [a; b; c] a))
    as (st' & ls & rs & Hrun & Hl & Hr & Hll & Hlr).
  - reflexivity.
  - apply exact_ltb_false. cbn. lra.
  - apply exact_ltb_true. cbn. lra.
  - exists st', ls, rs. auto.
Defined.

(** ** getStrokeOutlinePoints: short strokes *)

Section ShortStroke.
Context {N : Type} {num : Num N} {trig : Trig N} {cnt : Counters N}.
Local Open Scope num_scope.

(** The turns on points that are within 3 of the end, and not the last,
    change nothing. *)
Lemma outlineLoop_skipped o points total md :
  forall pre rest i (st : OutlineState N),
    Forall (fun p => (total - runningLength p <? ofZ 3) = true) pre ->
    (i + length pre <= length points - 1)%nat ->
    outlineLoop o points total md i (pre ++ rest) st
    = outlineLoop o points total md (i + length pre) rest st.
Proof.
  induction pre as [|p pre IH]; intros rest i st Hall Hlen; cbn [app length].
  - now rewrite Nat.add_0_r.
  - inversion Hall as [|? ? Hp Hpre]; subst. cbn [length] in Hlen.
    cbn [outlineLoop]. unfold outlineStep at 1.
    replace (i <? length points - 1)%nat with true
      by (symmetry; apply Nat.ltb_lt; lia).
    rewrite Hp. cbn [andb bind].
    rewrite IH by (assumption || lia). f_equal. lia.
Qed.

Lemma outline_short o p0 mid pLast :
  (size o <=? ofZ 0) = false ->
  Forall (fun p => (runningLength pLast - runningLength p <? ofZ 3) = true)
    (p0 :: mid) ->
  let points := p0 :: mid ++ [pLast] in
  let r := turnRadius o (runningLength pLast) pLast (initialPressure o points p0) in
  exists startCap endCap,
    getStrokeOutlinePoints points o
    = Normal ([sub (point pLast) (mul (per (vector pLast)) r)]
              ++ endCap
              ++ [add (point pLast) (mul (per (vector pLast)) r)]
              ++ startCap)
    /\ length startCap = startCapLength o
    /\ (endCapLength o <= length endCap)%nat.
Proof.
  intros Hsize Hall points r. unfold getStrokeOutlinePoints. fold points.
  assert (Hlast : last points p0 = pLast).
  { unfold points. change (p0 :: mid ++ [pLast]) with ((p0 :: mid) ++ [pLast]).
    apply last_last. }
  assert (Hn : length points = S (S (length mid))).
  { unfold points. cbn [length]. rewrite length_app. cbn [length]. lia. }
  unfold points at 1. cbv iota beta. fold points.
  rewrite Hsize, Hlast.
  change (outlineLoop o points (runningLength pLast) ?md 0 points ?st0)
    with (outlineLoop o points (runningLength pLast) md 0
            ((p0 :: mid) ++ [pLast]) st0).
  rewrite outlineLoop_skipped by (assumption || (rewrite Hn; cbn [length]; lia)).
  cbn [outlineLoop Nat.add]. unfold outlineStep.
  replace (length (p0 :: mid) <? length points - 1)%nat with false
    by (symmetry; apply Nat.ltb_ge; rewrite Hn; cbn [length]; lia).
  replace (length (p0 :: mid) =? length points - 1)%nat with true
    by (symmetry; apply Nat.eqb_eq; rewrite Hn; cbn [length]; lia).
  cbn [andb bind leftPts rightPts prevPressure radius app].
  rewrite Hn. cbn [Nat.eqb Nat.ltb Nat.leb].
  fold (turnRadius o (runningLength pLast) pLast (initialPressure o points p0)).
  fold r.
  match goal with
  | |- context [startCapOf o ?n ?fp ?st] =>
      destruct (startCap_returns o n fp st) as (startCap & -> & Hs);
        [discriminate | split; discriminate |]
  end.
  cbn [bind].
  match goal with
  | |- context [endCapOf o ?n ?lp ?pl ?st] =>
      destruct (endCap_returns o n lp pl st) as (endCap & -> & He);
        [discriminate |]
  end.
  cbn [bind leftPts rightPts rev app].
  exists startCap, endCap. auto.
Qed.
End ShortStroke.

(** X17. If every stroke point but the last is within 3 of the end of the
    line in running length, each side of the outline has one point only,
    made from the last stroke point: the outline is the left point, the end
    cap, the right point and the start cap.  In every number model whose
    counting loops end. *)
Theorem short_stroke_is_drawn_from_its_last_point
    (N : Type) (num : Num N) (trig : Trig N) (cnt : Counters N)
    (o : StrokeOptions N) (p0 : StrokePoint N) (mid : list (StrokePoint N))
    (pLast : StrokePoint N) :
  (size o <=? ofZ 0)%num = false ->
  Forall (fun p => (runningLength pLast - runningLength p <? ofZ 3)%num = true)
    (p0 :: mid) ->
  exists startCap endCap,
    getStrokeOutlinePoints (p0 :: mid ++ [pLast]) o
    = Normal ([sub (point pLast)
                 (mul (per (vector pLast))
                    (turnRadius o (runningLength pLast) pLast
                       (initialPressure o (p0 :: mid ++ [pLast]) p0)))]
              ++ endCap
              ++ [add (point pLast)
                    (mul (per (vector pLast))
                       (turnRadius o (runningLength pLast) pLast
                          (initialPressure o (p0 :: mid ++ [pLast]) p0)))]
              ++ startCap)
    /\ length startCap = startCapLength o
    /\ (endCapLength o <= length endCap)%nat.
Proof. intros Hsize Hall. exact (outline_short o p0 mid pLast Hsize Hall). Qed.

Lemma short_stroke_is_drawn_from_its_last_point_witness :
  let a := {| point := (0, 0); pressure := 1 / 2; vector := (-1, 0);
              distance := 0; runningLength := 0 |}%R in
  let b := {| point := (1, 0); pressure := 1 / 2; vector := (-1, 0);
              distance := 1; runningLength := 1 |}%R in
  let c := {| point := (2, 0); pressure := 1 / 2; vector := (-1, 0);
              distance := 1; runningLength := 2 |}%R in
  exists startCap endCap l r,
    getStrokeOutlinePoints [a; b; c] defaultOptions
    = Normal ([l] ++ endCap ++ [r] ++ startCap)
    /\ length startCap = 13%nat.
Proof.
  intros a b c.
  destruct (short_stroke_is_drawn_from_its_last_point R real_numbers
              real_trig real_counters defaultOptions a [b] c)
    as (startCap & endCap & Hout & Hs & _).
  - apply exact_leb_false. cbn. lra.
  - repeat constructor; apply exact_ltb_true; cbn; lra.
  - exists startCap, endCap. do 2 eexists. split; [exact Hout|].
    rewrite Hs. unfold startCapLength. cbn [taperStart capStart defaultOptions].
    now rewrite (truthy_zero (N := R)).
Defined.

(** ** getStrokeOutlinePoints: the width of the outline *)

Section Width.
Local Open Scope R_scope.

Lemma len_mul (u : Vec R) (k : R) : len (mul u k) = Rabs k * len u.
Proof.
  destruct u as [a b]. unfold len, mul, dpr.
  cbn [fst snd nadd nmul nsqrt real_numbers].
  replace (a * k * (a * k) + b * k * (b * k)) with (Rsqr k * (a * a + b * b))
    by (unfold Rsqr; ring).
  rewrite sqrt_mult; [|apply Rle_0_sqr | nra].
  now rewrite sqrt_Rsqr_abs.
Qed.

Lemma len_per (u : Vec R) : len (per u) = len u.
Proof.
  destruct u as [a b]. unfold len, per, dpr.
  cbn [fst snd nadd nmul nneg nsqrt real_numbers]. f_equal. ring.
Qed.

Lemma len_neg (u : Vec R) : len (neg u) = len u.
Proof.
  destruct u as [a b]. unfold len, neg, dpr.
  cbn [fst snd nadd nmul nneg nsqrt real_numbers]. f_equal. ring.
Qed.

Lemma dist_sub_offset (p off : Vec R) : dist (sub p off) p = len off.
Proof.
  destruct p as [x y], off as [a b]. unfold dist, len, sub, dpr.
  cbn [fst snd nadd nsub nmul nsqrt real_numbers]. f_equal. ring.
Qed.

Lemma dist_add_offset (p off : Vec R) : dist (add p off) p = len off.
Proof.
  destruct p as [x y], off as [a b]. unfold dist, len, sub, add, dpr.
  cbn [fst snd nadd nsub nmul nsqrt real_numbers]. f_equal. ring.
Qed.

Lemma len_le_1 (u : Vec R) : len u <= 1 <-> dpr u u <= 1.
Proof.
  pose proof (len_sqr u) as Hs. pose proof (len_nonneg u) as Hn. split; intros H.
  - rewrite <- Hs. nra.
  - destruct (Rle_dec (len u) 1) as [|Hgt]; [assumption|]. exfalso. nra.
Qed.

(** The vector between two vectors not longer than 1, at the level of
    their dot product when that is not negative, is not longer than 1. *)
Lemma len_lrp_dpr (v nv : Vec R) :
  len v <= 1 -> len nv <= 1 -> 0 <= dpr v nv ->
  len (lrp nv v (dpr v nv)) <= 1.
Proof.
  intros Hv Hnv Ht. apply len_le_1 in Hv, Hnv. apply len_le_1.
  destruct v as [a b], nv as [c d]. unfold lrp, add, mul, sub, dpr in *.
  cbn [fst snd nadd nsub nmul real_numbers] in *.
  set (t := a * c + b * d) in *.
  assert (Hcs : t * t <= 1).
  { assert (t * t <= (a * a + b * b) * (c * c + d * d)).
    { unfold t.
      replace ((a * a + b * b) * (c * c + d * d))
        with ((a * c + b * d) * (a * c + b * d) + (a * d - b * c) * (a * d - b * c))
        by ring.
      pose proof (Rle_0_sqr (a * d - b * c)) as H. unfold Rsqr in H. lra. }
    assert ((a * a + b * b) * (c * c + d * d) <= 1 * 1).
    { apply Rmult_le_compat; nra. }
    lra. }
  assert (Ht1 : t <= 1) by nra.
  replace ((c + (a - c) * t) * (c + (a - c) * t) + (d + (b - d) * t) * (d + (b - d) * t))
    with ((1 - t) * (1 - t) * (c * c + d * d) + 2 * t * (1 - t) * t
          + t * t * (a * a + b * b))
    by (unfold t; ring).
  assert (H1 : (1 - t) * (1 - t) * (c * c + d * d) <= (1 - t) * (1 - t) * 1).
  { apply Rmult_le_compat_l; [nra | exact Hnv]. }
  assert (H2 : t * t * (a * a + b * b) <= t * t * 1).
  { apply Rmult_le_compat_l; [nra | exact Hv]. }
  assert (H3 : 0 <= t * ((1 - t) * (1 - t))).
  { apply Rmult_le_pos; [exact Ht | nra]. }
  nra.
Qed.

Lemma reach_low (o : StrokeOptions R) : 1 / 100 <= reach o.
Proof. apply Rmax_l. Qed.

Lemma reach_size (o : StrokeOptions R) : size o <= reach o.
Proof. apply Rmax_r. Qed.

(** A side point at the offset [per w * r], with [w] not longer than 1 and
    [r] a radius in range, is within reach of the point. *)
Lemma offset_in_reach (o : StrokeOptions R) (w : Vec R) (r : R) :
  len w <= 1 -> 0 <= r <= reach o ->
  len (mul (per w) r) <= reach o.
Proof.
  intros Hw Hr. rewrite len_mul, len_per, Rabs_pos_eq by lra.
  pose proof (len_nonneg w). nra.
Qed.

Lemma radiusAt_between (o : StrokeOptions R) (pr : R) :
  regularOptions o -> 0 <= pr <= 1 ->
  0 <= radiusAt o pr <= size o.
Proof.
  intros (Hsize & Hth & Hease & _) Hpr. unfold radiusAt.
  destruct (truthy (thinning o)).
  - unfold getStrokeRadius, dec. cbn [nmul nsub ndiv ofZ real_numbers].
    assert (Harg : 0 <= 5 / 10 - thinning o * (5 / 10 - pr) <= 1) by nra.
    pose proof (Hease _ Harg). nra.
  - cbn [ndiv ofZ real_numbers]. lra.
Qed.

Lemma tapered_between (o : StrokeOptions R) (total : R) (p : StrokePoint R) (r0 : R) :
  regularOptions o -> regularPoint total p -> 0 <= r0 <= size o ->
  1 / 100 <= tapered o total p r0 <= reach o.
Proof.
  intros (Hsize & _ & _ & Hts & Hte) (_ & _ & _ & Hrl) Hr0.
  unfold tapered, dec. cbn [nmax nmin nmul nsub ndiv nltb ofZ real_numbers].
  split; [apply Rmax_l|].
  apply Rmax_lub; [apply reach_low|].
  apply Rle_trans with (size o); [|apply reach_size].
  match goal with |- _ * Rmin ?ts ?te <= _ => set (s := ts); set (e := te) end.
  assert (Hs : s <= 1).
  { unfold s. destruct (Exact.ltb (runningLength p) (taperStart o)) eqn:E; [|lra].
    apply exact_ltb_spec in E. apply Hts. apply ratio_between; lra. }
  pose proof (Rmin_l s e) as Hm.
  apply Rle_trans with (r0 * 1); [|lra].
  apply Rmult_le_compat_l; lra.
Qed.

Lemma turnRadius_between (o : StrokeOptions R) (total : R) (p : StrokePoint R)
    (prevP : R) :
  regularOptions o -> regularPoint total p -> 0 <= prevP ->
  1 / 100 <= turnRadius o total p prevP <= reach o.
Proof.
  intros Ho Hp Hprev. unfold turnRadius.
  apply tapered_between; [exact Ho | exact Hp|].
  apply radiusAt_between; [exact Ho|].
  destruct Ho as (Hsize & _). destruct Hp as (Hpr & Hd & _).
  now apply pressureAt_between.
Qed.

Lemma within_offset (o : StrokeOptions R) points (p : StrokePoint R) (w : Vec R) (r : R) :
  In p points -> len w <= 1 -> 0 <= r <= reach o ->
  within (reach o) points (sub (point p) (mul (per w) r))
  /\ within (reach o) points (add (point p) (mul (per w) r)).
Proof.
  intros Hin Hw Hr. split; exists p; (split; [exact Hin|]).
  - rewrite dist_sub_offset. now apply offset_in_reach.
  - rewrite dist_add_offset. now apply offset_in_reach.
Qed.

Lemma Forall_snoc (A : Type) (P : A -> Prop) (l : list A) (a : A) :
  Forall P l -> P a -> Forall P (l ++ [a]).
Proof. intros Hl Ha. apply Forall_app. split; [exact Hl | now constructor]. Qed.

(** One turn keeps the side points within reach of the stroke points. *)
Lemma outlineStep_in_reach o points total md i p (st : OutlineState R) :
  regularOptions o ->
  Forall (regularPoint total) points ->
  nth_error points i = Some p ->
  inReach o points st ->
  exists st',
    outlineStep o points total md i p st = Normal st' /\ inReach o points st'.
Proof.
  intros Ho Hall Hp (Hl & Hr & Hprev & Hvec & Hrad).
  destruct (corner_fan (N := R)) as (ts & Hts & _).
  assert (Hi : (i < length points)%nat) by (apply nth_error_Some; congruence).
  assert (Hin : In p points) by (eapply nth_error_In; exact Hp).
  rewrite Forall_forall in Hall. pose proof (Hall p Hin) as Hreg.
  pose proof (turnRadius_between o total p (prevPressure st) Ho Hreg Hprev) as Hturn.
  assert (Hturn0 : 0 <= turnRadius o total p (prevPressure st) <= reach o) by lra.
  destruct (outlineStep_spec o points total md i p st ts Hts Hi)
    as (st' & Hrun & Hcases).
  exists st'. split; [exact Hrun|]. cbv zeta in Hcases.
  destruct Hcases as [(_ & _ & ->)|[Hlast|[Hcorner|Hregular]]].
  - repeat split; assumption || lra.
  - destruct Hlast as (_ & Hl' & Hr' & Hp' & Hrad' & Hv').
    destruct Hreg as (_ & _ & Hvp & _).
    destruct (within_offset o points p (vector p) _ Hin Hvp Hturn0) as [Hwl Hwr].
    unfold inReach. rewrite Hl', Hr', Hp', Hrad', Hv'.
    repeat split; try (assumption || lra); now apply Forall_snoc.
  - destruct Hcorner as (next & _ & _ & _ & Hl' & Hr' & Hp' & Hrad' & Hv').
    unfold inReach. rewrite Hl', Hr', Hp', Hrad', Hv'.
    pose proof (offset_in_reach o (prevVector st) _ Hvec Hturn0) as Hoff.
    repeat split; try (assumption || lra).
    + apply Forall_app. split; [exact Hl|]. apply Forall_forall.
      intros q Hq. apply in_map_iff in Hq as (t & <- & _).
      exists p. split; [exact Hin|]. unfold fanLeft.
      now rewrite dist_rotAround, dist_sub_offset.
    + apply Forall_app. split; [exact Hr|]. apply Forall_forall.
      intros q Hq. apply in_map_iff in Hq as (t & <- & _).
      exists p. split; [exact Hin|]. unfold fanRight.
      now rewrite dist_rotAround, dist_add_offset.
  - destruct Hregular as (next & _ & Hnext & Hdpr & Hl' & Hr' & Hp' & Hrad' & Hv').
    assert (Hnin : In next points) by (eapply nth_error_In; exact Hnext).
    pose proof (Hall next Hnin) as (_ & _ & Hvn & _).
    destruct Hreg as (Hpr & Hd & Hvp & _).
    cbn [nltb ofZ real_numbers] in Hdpr.
    assert (Hpos : 0 <= dpr (vector p) (vector next)).
    { unfold Exact.ltb in Hdpr.
      destruct (Rlt_dec (dpr (vector p) (vector next)) 0); [discriminate | lra]. }
    pose proof (len_lrp_dpr (vector p) (vector next) Hvp Hvn Hpos) as Hw.
    destruct (within_offset o points p _ _ Hin Hw Hturn0) as [Hwl Hwr].
    destruct Ho as (Hsize & _).
    pose proof (pressureAt_between o p (prevPressure st) Hsize Hd Hpr Hprev) as Hpa.
    unfold inReach. rewrite Hp', Hrad', Hv'.
    repeat split; try (assumption || lra).
    + destruct Hl' as [->|[_ ->]]; [now apply Forall_snoc | exact Hl].
    + destruct Hr' as [->|[_ ->]]; [now apply Forall_snoc | exact Hr].
Qed.

Lemma outlineLoop_in_reach o points total md :
  regularOptions o ->
  Forall (regularPoint total) points ->
  forall rest i (st : OutlineState R),
    (forall k p, nth_error rest k = Some p -> nth_error points (i + k) = Some p) ->
    inReach o points st ->
    exists st',
      outlineLoop o points total md i rest st = Normal st' /\ inReach o points st'.
Proof.
  intros Ho Hall. induction rest as [|p rest IH]; intros i st Hnth Hst.
  - exists st. split; [reflexivity | exact Hst].
  - cbn [outlineLoop].
    destruct (outlineStep_in_reach o points total md i p st Ho Hall) as (st1 & -> & Hst1).
    + rewrite <- (Nat.add_0_r i). apply Hnth. reflexivity.
    + exact Hst.
    + cbn [bind]. apply IH; [|exact Hst1].
      intros k q Hq. replace (S i + k)%nat with (i + S k)%nat by lia.
      apply Hnth. exact Hq.
Qed.

Lemma endCap_in_reach o n lastPoint (pLast : StrokePoint R) points (st : OutlineState R) :
  In pLast points -> lastPoint = point pLast ->
  len (vector pLast) <= 1 -> 0 <= radius st <= reach o ->
  exists cap,
    endCapOf o n lastPoint pLast st = Normal cap
    /\ Forall (within (reach o) points) cap.
Proof.
  intros Hin -> Hv Hr. unfold endCapOf.
  assert (Hdir : len (per (neg (vector pLast))) <= 1)
    by now rewrite len_per, len_neg.
  assert (Hnear : forall k, 0 <= k <= radius st ->
            len (mul (per (neg (vector pLast))) k) <= reach o).
  { intros k Hk. rewrite len_mul, Rabs_pos_eq by lra.
    pose proof (len_nonneg (per (neg (vector pLast)))). nra. }
  destruct (truthy (taperEnd o) || (truthy (taperStart o) && (n =? 1)%nat)).
  { eexists. split; [reflexivity|]. constructor; [|constructor].
    exists pLast. split; [exact Hin|].
    unfold dist. replace (sub (point pLast) (point pLast)) with (0, 0).
    - rewrite len_zero. pose proof (reach_low o). lra.
    - destruct (point pLast) as [x y]. unfold sub.
      cbn [fst snd nsub real_numbers]. apply vec_eq; ring. }
  destruct (capEnd o).
  - destruct (end_ticks (N := R)) as (ts & Hts & _).
    eexists. split; [apply forT_push; exact Hts|].
    apply Forall_forall. intros q Hq. apply in_map_iff in Hq as (t & <- & _).
    exists pLast. split; [exact Hin|].
    rewrite dist_rotAround. unfold prj. rewrite dist_add_offset.
    apply Hnear. lra.
  - eexists. split; [reflexivity|].
    assert (H99 : 0 <= radius st * dec 99 100 <= radius st)
      by (unfold dec; cbn [ndiv ofZ real_numbers]; lra).
    cbn [nmul real_numbers].
    repeat constructor; exists pLast; (split; [exact Hin|]);
      rewrite ?dist_add_offset, ?dist_sub_offset; apply Hnear; lra.
Qed.
End Width.

Section WidthOfOutline.
Local Open Scope R_scope.

Lemma strokeRadius_between (o : StrokeOptions R) (pr : R) :
  regularOptions o -> 0 <= pr <= 1 ->
  0 <= getStrokeRadius (size o) (thinning o) pr (easing o) <= size o.
Proof.
  intros (Hsize & Hth & Hease & _) Hpr.
  unfold getStrokeRadius, dec. cbn [nmul nsub ndiv ofZ real_numbers].
  assert (Harg : 0 <= 5 / 10 - thinning o * (5 / 10 - pr) <= 1) by nra.
  pose proof (Hease _ Harg). nra.
Qed.

Lemma initialState_in_reach (o : StrokeOptions R) points p0 total :
  regularOptions o ->
  Forall (regularPoint total) points ->
  In p0 points ->
  inReach o points (initialState o points p0).
Proof.
  intros Ho Hall Hin.
  pose proof Hall as Hall'. rewrite Forall_forall in Hall'.
  destruct (Hall' p0 Hin) as (Hp0 & _ & Hv0 & _).
  assert (Hlast : In (last points p0) points).
  { destruct points as [|x l]; [contradiction|].
    destruct (exists_last (l := x :: l) ltac:(discriminate)) as (l' & a & E).
    rewrite E, last_last. apply in_or_app. right. now left. }
  destruct (Hall' _ Hlast) as (Hpl & _).
  unfold inReach, initialState.
  cbn [leftPts rightPts prevPressure prevVector radius].
  split; [constructor|]. split; [constructor|]. split; [|split; [exact Hv0|]].
  - apply initialPressure_between; [apply Ho | | exact Hp0].
    eapply Forall_impl; [|exact Hall]. intros p (H1 & H2 & _). auto.
  - pose proof (strokeRadius_between o _ Ho Hpl). pose proof (reach_size o). lra.
Qed.

End WidthOfOutline.

(** ** getStrokeOutlinePoints: the parts of the outline *)

Section Parts.
Context {N : Type} {num : Num N} {trig : Trig N} {cnt : Counters N}.
Local Open Scope num_scope.

(** The outline of a stroke of several points, from the variables the main
    loop ends with. *)
Lemma outline_parts o p0 p1 rest :
  (size o <=? ofZ 0) = false ->
  let points := p0 :: p1 :: rest in
  exists st startCap endCap,
    mainLoop o points p0 = Normal st
    /\ sided st
    /\ startCapOf o (length points) (point p0) st = Normal startCap
    /\ length startCap = startCapLength o
    /\ endCapOf o (length points) (point (last points p0)) (last points p0) st
       = Normal endCap
    /\ getStrokeOutlinePoints points o
       = Normal (leftPts st ++ endCap ++ rev (rightPts st) ++ startCap).
Proof.
  intros Hsize points. subst points.
  unfold getStrokeOutlinePoints, mainLoop. rewrite Hsize.
  set (points := p0 :: p1 :: rest).
  change {| leftPts := []; rightPts := []; prevPressure := initialPressure o points p0;
            radius := getStrokeRadius (size o) (thinning o)
                        (pressure (last points p0)) (easing o);
            firstRadius := None; prevVector := vector p0; pL := point p0;
            pR := point p0; tL := point p0; tR := point p0 |}
    with (initialState o points p0).
  match goal with
  | |- context [outlineLoop o points ?total ?md 0 points ?st0] =>
      destruct (outlineLoop_returns o points total md points 0%nat st0)
        as (st & Hrun & _ & Hsided); [reflexivity|]
  end.
  specialize (Hsided ltac:(discriminate)).
  cbv zeta in Hrun |- *. rewrite Hrun.
  cbn [bind]. change (length points) with (S (S (length rest))).
  cbn [Nat.eqb Nat.ltb Nat.leb].
  match goal with
  | |- context [startCapOf o ?n ?fp st] =>
      destruct (startCap_returns o n fp st) as (startCap & Hs & Hls);
        [discriminate | exact Hsided |]
  end.
  match goal with
  | |- context [endCapOf o ?n ?lp ?pl st] =>
      destruct (endCap_returns o n lp pl st) as (endCap & He & _);
        [discriminate |]
  end.
  exists st, startCap, endCap. rewrite Hs, He. cbn [bind]. auto 10.
Qed.
End Parts.

Section WholeOutline.
Local Open Scope R_scope.

Lemma dist_startArc (r0 c : Vec R) (t : R) :
  dist (startArc r0 c t) c = dist r0 c.
Proof. apply dist_rotAround. Qed.

(** The first turn of the main loop, on a first point that is not passed
    over: the first point of either side is within reach of the first
    stroke point. *)
Lemma first_turn_in_reach o points total md p0 (st : OutlineState R) :
  regularOptions o ->
  Forall (regularPoint total) points ->
  nth_error points 0 = Some p0 ->
  (2 <= length points)%nat ->
  inReach o points st ->
  leftPts st = [] -> rightPts st = [] ->
  3 <= total - runningLength p0 ->
  exists st' l0 r0 ls rs,
    outlineStep o points total md 0 p0 st = Normal st'
    /\ leftPts st' = l0 :: ls
    /\ rightPts st' = r0 :: rs
    /\ dist l0 (point p0) <= reach o
    /\ dist r0 (point p0) <= reach o.
Proof.
  intros Ho Hall Hp Hlen (_ & _ & Hprev & Hvec & _) Hl Hr Hfar.
  destruct (corner_fan (N := R)) as (ts & Hts & Hlts).
  destruct ts as [|t0 ts]; [discriminate|].
  assert (Hin : In p0 points) by (eapply nth_error_In; exact Hp).
  rewrite Forall_forall in Hall. pose proof (Hall p0 Hin) as Hreg.
  pose proof (turnRadius_between o total p0 (prevPressure st) Ho Hreg Hprev) as Hturn.
  assert (Hturn0 : 0 <= turnRadius o total p0 (prevPressure st) <= reach o) by lra.
  destruct (outlineStep_spec o points total md 0 p0 st (t0 :: ts) Hts ltac:(lia))
    as (st' & Hrun & Hcases).
  exists st'. cbv zeta in Hcases.
  destruct Hcases as [(_ & Hnear & _)|[(Hlast & _)|[Hcorner|Hregular]]].
  - exfalso. cbn [nltb nsub ofZ real_numbers] in Hnear.
    apply exact_ltb_spec in Hnear. lra.
  - lia.
  - destruct Hcorner as (next & _ & _ & _ & Hl' & Hr' & _).
    rewrite Hl in Hl'. rewrite Hr in Hr'. cbn [app map] in Hl', Hr'.
    pose proof (offset_in_reach o (prevVector st) _ Hvec Hturn0) as Hoff.
    do 4 eexists. split; [exact Hrun|]. split; [exact Hl'|]. split; [exact Hr'|].
    unfold fanLeft, fanRight.
    now rewrite !dist_rotAround, dist_sub_offset, dist_add_offset.
  - destruct Hregular as (next & _ & Hnext & Hdpr & Hl' & Hr' & _).
    destruct Hl' as [Hl'|[Hlt _]]; [|lia].
    destruct Hr' as [Hr'|[Hlt _]]; [|lia].
    rewrite Hl in Hl'. rewrite Hr in Hr'. cbn [app] in Hl', Hr'.
    assert (Hnin : In next points) by (eapply nth_error_In; exact Hnext).
    pose proof (Hall next Hnin) as (_ & _ & Hvn & _).
    destruct Hreg as (_ & _ & Hvp & _).
    cbn [nltb ofZ real_numbers] in Hdpr.
    assert (Hpos : 0 <= dpr (vector p0) (vector next)).
    { unfold Exact.ltb in Hdpr.
      destruct (Rlt_dec (dpr (vector p0) (vector next)) 0); [discriminate | lra]. }
    pose proof (len_lrp_dpr (vector p0) (vector next) Hvp Hvn Hpos) as Hw.
    pose proof (offset_in_reach o _ _ Hw Hturn0) as Hoff.
    do 4 eexists. split; [exact Hrun|]. split; [exact Hl'|]. split; [exact Hr'|].
    now rewrite dist_sub_offset, dist_add_offset.
Qed.

(** The variables the main loop ends with, for options in their ranges
    and regular stroke points: the two sides are within reach of the stroke
    points, and the radius is in range; if the first stroke point is not
    passed over, the first point of the right side is within reach of
    it. *)
Lemma mainLoop_in_reach (o : StrokeOptions R) (p0 p1 : StrokePoint R)
    (rest : list (StrokePoint R)) :
  regularOptions o ->
  let points := p0 :: p1 :: rest in
  Forall (regularPoint (runningLength (last points p0))) points ->
  exists st,
    mainLoop o points p0 = Normal st
    /\ inReach o points st
    /\ (3 <= runningLength (last points p0) - runningLength p0 ->
        exists r0 rs,
          rightPts st = r0 :: rs /\ dist r0 (point p0) <= reach o).
Proof.
  intros Ho points Hall. unfold mainLoop.
  set (total := runningLength (last points p0)) in *.
  set (md := (let s := (size o * smoothing o)%num in (s * s)%num)).
  assert (Hst0 : inReach o points (initialState o points p0))
    by (apply (initialState_in_reach o points p0 total Ho Hall); now left).
  destruct (outlineLoop_in_reach o points total md Ho Hall points 0%nat
              (initialState o points p0)) as (st & Hrun & Hb);
    [intros k p Hk; exact Hk | exact Hst0 |].
  exists st. split; [exact Hrun|]. split; [exact Hb|].
  intros Hfar.
  destruct (first_turn_in_reach o points total md p0 (initialState o points p0)
              Ho Hall eq_refl ltac:(cbn [length points]; lia) Hst0 eq_refl eq_refl Hfar)
    as (st1 & l0 & r0 & ls & rs & Hstep & _ & Hr1 & _ & Hd).
  assert (Hcons : outlineLoop o points total md 0 points (initialState o points p0)
                  = bind (outlineStep o points total md 0 p0
                            (initialState o points p0))
                      (fun st1 => outlineLoop o points total md 1 (p1 :: rest) st1))
    by reflexivity.
  rewrite Hcons, Hstep in Hrun. cbn [bind] in Hrun.
  destruct (outlineLoop_returns o points total md (p1 :: rest) 1%nat st1 eq_refl)
    as (st2 & Hrun2 & [_ [more Hgrow]] & _).
  rewrite Hrun in Hrun2. injection Hrun2 as <-.
  rewrite Hr1 in Hgrow. exists r0, (rs ++ more). split; [exact Hgrow | exact Hd].
Qed.

(** The outline of a stroke of several points, for options in their ranges
    and regular stroke points: every point but those of the start cap is
    within reach of a stroke point, and those of a round start cap are too
    if the first stroke point is not passed over. *)
Lemma outline_in_reach_of_stroke (o : StrokeOptions R) (p0 p1 : StrokePoint R)
    (rest : list (StrokePoint R)) :
  regularOptions o ->
  let points := p0 :: p1 :: rest in
  Forall (regularPoint (runningLength (last points p0))) points ->
  exists outline,
    getStrokeOutlinePoints points o = Normal outline
    /\ Forall (within (reach o) points)
         (firstn (length outline - startCapLength o) outline)
    /\ (3 <= runningLength (last points p0) - runningLength p0 ->
        capStart o = true \/ truthy (taperStart o) = true ->
        Forall (within (reach o) points) outline).
Proof.
  intros Ho points Hall.
  assert (Hsize : (size o <=? ofZ 0)%num = false).
  { apply exact_leb_false. destruct Ho as (Hs & _). cbn. lra. }
  destruct (outline_parts o p0 p1 rest Hsize)
    as (st & startCap & endCap & Hrun & _ & Hs & Hls & He & Hout).
  fold points in Hrun, Hs, He, Hout.
  destruct (mainLoop_in_reach o p0 p1 rest Ho Hall) as (st' & Hrun' & Hb & Hfirst).
  fold points in Hrun'. rewrite Hrun in Hrun'. injection Hrun' as <-.
  destruct Hb as (Hl & Hr & _ & _ & Hrad).
  assert (Hlast : In (last points p0) points).
  { destruct (exists_last (l := points) ltac:(discriminate)) as (l' & a & E).
    rewrite E, last_last. apply in_or_app. right. now left. }
  pose proof Hall as Hall'. rewrite Forall_forall in Hall'.
  destruct (Hall' _ Hlast) as (_ & _ & Hv & _).
  destruct (endCap_in_reach o (length points) _ (last points p0) points st
              Hlast eq_refl Hv Hrad) as (endCap' & He' & Hcap).
  rewrite He in He'. injection He' as <-.
  assert (Hbody : Forall (within (reach o) points)
                    (leftPts st ++ endCap ++ rev (rightPts st))).
  { apply Forall_app. split; [exact Hl|]. apply Forall_app. split; [exact Hcap|].
    now apply Forall_rev. }
  exists (leftPts st ++ endCap ++ rev (rightPts st) ++ startCap).
  split; [exact Hout|]. split.
  - replace (leftPts st ++ endCap ++ rev (rightPts st) ++ startCap)
      with ((leftPts st ++ endCap ++ rev (rightPts st)) ++ startCap)
      by now rewrite <- !app_assoc.
    rewrite length_app, Hls, Nat.add_sub, firstn_app, Nat.sub_diag, firstn_all.
    cbn [firstn]. now rewrite app_nil_r.
  - intros Hfar Hcap0.
    replace (leftPts st ++ endCap ++ rev (rightPts st) ++ startCap)
      with ((leftPts st ++ endCap ++ rev (rightPts st)) ++ startCap)
      by now rewrite <- !app_assoc.
    apply Forall_app. split; [exact Hbody|].
    unfold startCapOf in Hs. change (length points) with (S (S (length rest))) in Hs.
    cbn [Nat.eqb] in Hs. rewrite andb_false_r, orb_false_r in Hs.
    destruct (truthy (taperStart o)) eqn:Hts.
    { injection Hs as <-. constructor. }
    destruct Hcap0 as [Hcs|Hcontra]; [|discriminate].
    rewrite Hcs in Hs.
    destruct (Hfirst Hfar) as (r0 & rs & Er & Hd). rewrite Er in Hs.
    destruct (round_ticks (N := R)) as (ts & Htk & _).
    rewrite (forT_ext _ _
               (fun t cap => Normal (cap ++ [startArc r0 (point p0) t])))
      in Hs by reflexivity.
    rewrite (forT_push _ (startArc r0 (point p0)) _ _ _ _ ts Htk) in Hs.
    injection Hs as <-.
    apply Forall_forall. intros q Hq. apply in_map_iff in Hq as (t & <- & _).
    exists p0. split; [now left|]. now rewrite dist_startArc.
Qed.
End WholeOutline.

(** X18. Over the reals, for options in their ranges and regular stroke
    points, two or more: every point of the outline that comes before the
    start cap (the left side, the end cap and the right side) is within
    [max(0.01, size)] of a stroke point; and so is every point of the
    outline if, moreover, the first stroke point is 3 or more from the end
    in running length and the start is tapered or its cap is round. *)
Theorem outline_stays_within_reach_of_the_stroke
    (o : StrokeOptions R) (p0 p1 : StrokePoint R) (rest : list (StrokePoint R)) :
  regularOptions o ->
  Forall (regularPoint (runningLength (last (p0 :: p1 :: rest) p0)))
    (p0 :: p1 :: rest) ->
  exists outline,
    getStrokeOutlinePoints (p0 :: p1 :: rest) o = Normal outline
    /\ Forall (within (reach o) (p0 :: p1 :: rest))
         (firstn (length outline - startCapLength o) outline)
    /\ ((3 <= runningLength (last (p0 :: p1 :: rest) p0) - runningLength p0)%R ->
        capStart o = true \/ truthy (taperStart o) = true ->
        Forall (within (reach o) (p0 :: p1 :: rest)) outline).
Proof. intros Ho Hall. exact (outline_in_reach_of_stroke o p0 p1 rest Ho Hall). Qed.

Section DefaultsAreRegular.
Local Open Scope R_scope.

Lemma defaultOptions_regular : regularOptions defaultOptions.
Proof.
  unfold regularOptions, defaultOptions, dec, linear, defaultStartEase,
    defaultEndEase.
  cbn [size thinning easing taperStartEase taperEndEase
       nadd nsub nmul ndiv ofZ real_numbers].
  split; [lra|]. split; [lra|]. split; [intros x Hx; exact Hx|].
  split; intros x Hx.
  - nra.
  - assert (0 <= (1 - x) * ((1 - x) * (1 - x))).
    { apply Rmult_le_pos; [lra | nra]. }
    nra.
Qed.

Lemma len_level (a : R) : len (N := R) (a, 0) = Rabs a.
Proof.
  unfold len, dpr. cbn [fst snd nadd nmul nsqrt real_numbers].
  replace (a * a + 0 * 0) with (Rsqr a) by (unfold Rsqr; ring).
  apply sqrt_Rsqr_abs.
Qed.
End DefaultsAreRegular.

Lemma outline_stays_within_reach_of_the_stroke_witness :
  let a := {| point := (0, 0); pressure := 1 / 2; vector := (-1, 0);
              distance := 0; runningLength := 0 |}%R in
  let b := {| point := (10, 0); pressure := 1 / 2; vector := (-1, 0);
              distance := 10; runningLength := 10 |}%R in
  let c := {| point := (20, 0); pressure := 1 / 2; vector := (-1, 0);
              distance := 10; runningLength := 20 |}%R in
  exists outline,
    getStrokeOutlinePoints [a; b; c] defaultOptions = Normal outline
    /\ Forall (within (reach defaultOptions) [a; b; c]) outline.
Proof.
  intros a b c.
  destruct (outline_stays_within_reach_of_the_stroke defaultOptions a b [c])
    as (outline & Hout & _ & Hall).
  - exact defaultOptions_regular.
  - assert (Hv : (len (N := R) (-1, 0) <= 1)%R).
    { rewrite len_level. unfold Rabs. destruct (Rcase_abs (-1)); lra. }
    constructor; [|constructor; [|constructor; [|constructor]]];
      unfold regularPoint;
      cbn [pressure distance vector runningLength last a b c];
      (split; [lra|]); (split; [lra|]); (split; [exact Hv | lra]).
  - exists outline. split; [exact Hout|]. apply Hall.
    + cbn [last runningLength a b c]. lra.
    + left. reflexivity.
Defined.

(** ** The outline of a resampled stroke *)

Section Pipeline.
Local Open Scope R_scope.

Lemma measured_monotone (sps : list (StrokePoint R)) :
  measured sps ->
  forall j i a b,
    (i <= j)%nat -> nth_error sps i = Some a -> nth_error sps j = Some b ->
    runningLength a <= runningLength b.
Proof.
  intros [_ Hnext]. induction j as [|j IH]; intros i a b Hij Ha Hb.
  - replace i with 0%nat in Ha by lia. rewrite Ha in Hb. injection Hb as <-. lra.
  - destruct (Nat.eq_dec i (S j)) as [->|Hne].
    + rewrite Ha in Hb. injection Hb as <-. lra.
    + assert (Hj : (j < length sps)%nat).
      { assert (S j < length sps)%nat by (apply nth_error_Some; congruence). lia. }
      destruct (nth_error sps j) as [c|] eqn:Hc; [|apply nth_error_None in Hc; lia].
      pose proof (IH i a c ltac:(lia) Ha eq_refl) as H1.
      destruct (Hnext j c b Hc Hb) as (H2 & _). lra.
Qed.

Lemma pressureOr_between (p : InputPoint R) (d : R) :
  lightPressure p -> 0 <= d <= 1 -> 0 <= pressureOr p d <= 1.
Proof.
  unfold lightPressure, pressureOr. intros Hp Hd.
  destruct (in_pressure p) as [v|]; [|exact Hd].
  cbn [nleb ofZ real_numbers]. unfold Exact.leb.
  destruct (Rle_dec 0 v); [lra | exact Hd].
Qed.

Lemma preparePoints_light (points : Points R) :
  Forall lightPressure (toArrays points) ->
  Forall lightPressure (preparePoints points).
Proof.
  unfold preparePoints. intros H.
  destruct (toArrays points) as [|a [|b [|c l]]];
    cbn [addExtraPoints addOffsetPoint map]; try exact H.
  - inversion H as [|? ? Ha _]; subst. repeat (constructor; [assumption|]).
    constructor.
  - inversion H as [|? ? Ha _]; subst.
    constructor; [exact Ha|]. repeat (constructor; [exact I|]). constructor.
Qed.

(** The stroke points made from pressures of at most 1, if there are two
    or more, are regular. *)
Lemma getStrokePoints_regular (points : Points R) (o : StrokeOptions R) d :
  Forall lightPressure (toArrays points) ->
  (2 <= length (getStrokePoints points o))%nat ->
  Forall (regularPoint (runningLength (last (getStrokePoints points o) d)))
    (getStrokePoints points o).
Proof.
  intros Hlight Hlen.
  pose proof (getStrokePoints_measured points o) as Hm.
  destruct (toArrays points) as [|p0 l] eqn:Harr.
  { unfold getStrokePoints in Hlen. rewrite Harr in Hlen. cbn in Hlen. lia. }
  destruct (preparePoints_head points p0 l Harr) as [rest Hpts].
  destruct (getStrokePoints_pressures points o p0 rest Hpts)
    as (first & more & Hsps & Hp & _ & Hd0 & Hr0 & Hmore);
    [rewrite Harr; discriminate|].
  pose proof (preparePoints_light points) as Hprep.
  rewrite Harr, Hpts in Hprep. specialize (Hprep Hlight).
  inversion Hprep as [|? ? Hp0 Hrest]; subst.
  assert (Hne : getStrokePoints points o <> []) by (rewrite Hsps; discriminate).
  pose proof (nth_error_last _ (getStrokePoints points o) d Hne) as Hlast.
  apply Forall_forall. intros sp Hin.
  destruct (In_nth_error _ _ Hin) as [i Hi].
  assert (Hil : (i < length (getStrokePoints points o))%nat)
    by (apply nth_error_Some; congruence).
  destruct (getStrokePoints_unit points o i sp Hlen Hi) as [Hv Hdist].
  assert (Hfirst : nth_error (getStrokePoints points o) 0 = Some first)
    by now rewrite Hsps.
  unfold regularPoint. split; [|split; [|split; [lra|split]]].
  - destruct i as [|i].
    + rewrite Hfirst in Hi. injection Hi as <-. rewrite Hp.
      apply pressureOr_between; [exact Hp0 | unfold dec; cbn; lra].
    + rewrite Hsps in Hi. cbn [nth_error] in Hi.
      apply nth_error_In in Hi. rewrite Forall_forall in Hmore.
      destruct (Hmore sp Hi) as (raw & Hraw & ->).
      apply pressureOr_between; [|unfold dec; cbn; lra].
      rewrite Forall_forall in Hrest. now apply Hrest.
  - destruct i as [|i].
    + rewrite Hfirst in Hi. injection Hi as <-. rewrite Hd0. cbn. lra.
    + apply Rlt_le, Hdist. lia.
  - pose proof (measured_monotone _ Hm i 0%nat first sp ltac:(lia) Hfirst Hi) as H.
    rewrite Hr0 in H. exact H.
  - apply (measured_monotone _ Hm (length (getStrokePoints points o) - 1) i);
      [lia | exact Hi | exact Hlast].
Qed.
End Pipeline.

(** X19. Over the reals, the two functions composed: for input pressures of
    at most 1 and outline options in their ranges, if the resampler makes
    two stroke points or more, every point of their outline that comes
    before the start cap is within [max(0.01, size)] of a stroke point; and
    so is every point of the outline if, moreover, the stroke is 3 long or
    more and the start is tapered or its cap is round. *)
Theorem outline_of_resampled_stroke_stays_within_reach
    (points : Points R) (rc oc : StrokeOptions R) :
  regularOptions oc ->
  Forall lightPressure (toArrays points) ->
  (2 <= length (getStrokePoints points rc))%nat ->
  exists outline,
    getStrokeOutlinePoints (getStrokePoints points rc) oc = Normal outline
    /\ Forall (within (reach oc) (getStrokePoints points rc))
         (firstn (length outline - startCapLength oc) outline)
    /\ (forall d,
           (3 <= runningLength (last (getStrokePoints points rc) d))%R ->
           capStart oc = true \/ truthy (taperStart oc) = true ->
           Forall (within (reach oc) (getStrokePoints points rc)) outline).
Proof.
  intros Ho Hlight Hlen.
  pose proof (getStrokePoints_starts_at_zero points rc) as Hzero.
  destruct (getStrokePoints points rc) as [|p0 [|p1 rest]] eqn:E;
    cbn [length] in Hlen; try lia.
  destruct (outline_in_reach_of_stroke oc p0 p1 rest Ho)
    as (outline & Hout & Hbody & Hall).
  - rewrite <- E. apply getStrokePoints_regular; [exact Hlight | rewrite E; cbn; lia].
  - exists outline. split; [exact Hout|]. split; [exact Hbody|].
    intros d Hfar Hcap. apply Hall; [|exact Hcap].
    rewrite (Hzero p0 eq_refl). cbn [ofZ real_numbers].
    rewrite (last_default _ (p0 :: p1 :: rest) p0 d) by discriminate. lra.
Qed.

Lemma outline_of_resampled_stroke_stays_within_reach_witness :
  let sps := getStrokePoints
               (Tuples [tuple 0 0; tuple 10 0; tuple 20 0; tuple 30 0]%R)
               defaultOptions in
  exists outline,
    getStrokeOutlinePoints sps defaultOptions = Normal outline
    /\ Forall (within (reach defaultOptions) sps) outline.
Proof.
  intros sps.
  destruct (outline_of_resampled_stroke_stays_within_reach
              (Tuples [tuple 0 0; tuple 10 0; tuple 20 0; tuple 30 0]%R)
              defaultOptions defaultOptions)
    as (outline & Hout & _ & Hall).
  - exact defaultOptions_regular.
  - cbn [toArrays]. constructor; [exact I|]. constructor; [exact I|].
    constructor; [exact I|]. constructor; [exact I|]. constructor.
  - pose proof four_level_points as H.
    apply (f_equal (@length _)) in H. rewrite length_map in H.
    rewrite H. cbn [length]. lia.
  - exists outline. split; [exact Hout|].
    apply (Hall (firstStrokePoint (tuple 0%R 0%R))); [|left; reflexivity].
    pose proof four_level_points as H. subst sps.
    destruct (getStrokePoints _ _) as [|x [|y [|z [|w l]]]]; try discriminate.
    cbn [map] in H. injection H as _ _ _ _ _ _ _ _ Hz.
    cbn [last]. rewrite Hz. lra.
Defined.

(** ** getStrokeOutlinePoints: the round caps *)

Section RoundCaps.
Context {N : Type} {num : Num N} {trig : Trig N} {cnt : Counters N}.
Local Open Scope num_scope.

(** With round caps and no taper, the start cap is an arc about the first
    stroke point, from the first point of the right side, and the end cap
    an arc about the last stroke point; each has one point for each turn
    of its loop. *)
Lemma outline_round_caps o p0 p1 rest :
  (size o <=? ofZ 0) = false ->
  truthy (taperStart o) = false -> truthy (taperEnd o) = false ->
  capStart o = true -> capEnd o = true ->
  let points := p0 :: p1 :: rest in
  exists st r0 ts te,
    mainLoop o points p0 = Normal st
    /\ nth_error (rightPts st) 0 = Some r0
    /\ ticks LOOP_FUEL (fun t => t <=? ofZ 1) (ofZ 1 / ofZ 13) (ofZ 1 / ofZ 13)
       = Normal ts
    /\ length ts = 13%nat
    /\ ticks LOOP_FUEL (fun t => t <? ofZ 1) (ofZ 1 / ofZ 29) (ofZ 1 / ofZ 29)
       = Normal te
    /\ (28 <= length te)%nat
    /\ getStrokeOutlinePoints points o
       = Normal (leftPts st
                 ++ map (endArc (last points p0) (radius st)) te
                 ++ rev (rightPts st)
                 ++ map (startArc r0 (point p0)) ts).
Proof.
  intros Hsize Hts Hte Hcs Hce points.
  destruct (outline_parts o p0 p1 rest Hsize)
    as (st & startCap & endCap & Hrun & [_ Hright] & Hs & _ & He & Hout).
  fold points in Hrun, Hs, He, Hout.
  destruct (rightPts st) as [|r0 right] eqn:Er; [contradiction|].
  destruct round_ticks as (ts & Htk & Hlen).
  destruct end_ticks as (te & Htk' & Hlen').
  exists st, r0, ts, te.
  split; [exact Hrun|]. split; [now rewrite Er|].
  split; [exact Htk|]. split; [exact Hlen|].
  split; [exact Htk'|]. split; [exact Hlen'|].
  assert (HendCap : endCap = map (endArc (last points p0) (radius st)) te).
  { unfold endCapOf in He. rewrite Hte, Hts, Hce in He. cbn [orb andb] in He.
    cbv zeta in He.
    rewrite (forT_ext _ _
               (fun t cap => Normal (cap ++ [endArc (last points p0) (radius st) t])))
      in He by reflexivity.
    rewrite (forT_push _ (endArc (last points p0) (radius st)) _ _ _ _ te Htk') in He.
    now injection He as <-. }
  assert (HstartCap : startCap = map (startArc r0 (point p0)) ts).
  { unfold startCapOf in Hs. rewrite Hts, Hte, Hcs, Er in Hs.
    cbn [orb andb] in Hs.
    rewrite (forT_ext _ _
               (fun t cap => Normal (cap ++ [startArc r0 (point p0) t])))
      in Hs by reflexivity.
    rewrite (forT_push _ (startArc r0 (point p0)) _ _ _ _ ts Htk) in Hs.
    now injection Hs as <-. }
  rewrite Hout, Er, HendCap, HstartCap. reflexivity.
Qed.
End RoundCaps.

Section ArcsExact.
Local Open Scope R_scope.

(** Over the reals the loop of the round end cap takes 28 turns. *)
Lemma exact_end_cap_turns :
  exists te : list R,
    ticks LOOP_FUEL (fun t => t <? ofZ 1)%num (ofZ 1 / ofZ 29)%num
      (ofZ 1 / ofZ 29)%num = Normal te
    /\ length te = 28%nat.
Proof.
  eexists. unfold ticks, LOOP_FUEL. split; [do 29 turn_R; reflexivity | reflexivity].
Qed.

Lemma dist_endArc (pLast : StrokePoint R) (r t : R) :
  dist (endArc pLast r t) (point pLast) = Rabs r * len (vector pLast).
Proof.
  unfold endArc. rewrite dist_rotAround. unfold prj.
  rewrite dist_add_offset, len_mul, len_per, len_neg. reflexivity.
Qed.
End ArcsExact.

(** X20. For a stroke of two points or more, a positive size, no taper
    and round caps, in every number model whose counting loops end: the
    outline is the left side, the end cap, the right side backwards and the
    start cap, where the start cap is the first point of the right side
    turned about the first stroke point by [(PI + 0.0001) * t] at each of
    the 13 turns of its loop, and the end cap is the last stroke point,
    moved by the radius at right angles to its vector, turned about the last
    stroke point by [(PI + 0.0001) * 3 * t] at each turn of the loop
    [for (t = 1/29; t < 1; t += 1/29)]; that loop takes 28 turns over the
    reals and 29 in binary64.  Over the reals the points of the start cap
    are all at the distance of that first right-side point from the first
    stroke point, and those of the end cap all at the distance
    [|radius| * |vector|] from the last stroke point. *)
Theorem round_caps_are_arcs :
  (forall (N : Type) (num : Num N) (trig : Trig N) (cnt : Counters N)
          (o : StrokeOptions N) (p0 p1 : StrokePoint N)
          (rest : list (StrokePoint N)),
      (size o <=? ofZ 0)%num = false ->
      truthy (taperStart o) = false -> truthy (taperEnd o) = false ->
      capStart o = true -> capEnd o = true ->
      exists st r0 ts te,
        mainLoop o (p0 :: p1 :: rest) p0 = Normal st
        /\ nth_error (rightPts st) 0 = Some r0
        /\ ticks LOOP_FUEL (fun t => t <=? ofZ 1)%num (ofZ 1 / ofZ 13)%num
             (ofZ 1 / ofZ 13)%num = Normal ts
        /\ length ts = 13%nat
        /\ ticks LOOP_FUEL (fun t => t <? ofZ 1)%num (ofZ 1 / ofZ 29)%num
             (ofZ 1 / ofZ 29)%num = Normal te
        /\ (28 <= length te)%nat
        /\ getStrokeOutlinePoints (p0 :: p1 :: rest) o
           = Normal (leftPts st
                     ++ map (endArc (last (p0 :: p1 :: rest) p0) (radius st)) te
                     ++ rev (rightPts st)
                     ++ map (startArc r0 (point p0)) ts))
  /\ (exists te : list R,
         ticks LOOP_FUEL (fun t => t <? ofZ 1)%num (ofZ 1 / ofZ 29)%num
           (ofZ 1 / ofZ 29)%num = Normal te
         /\ length te = 28%nat)
  /\ (exists te : list PrimFloat.float,
         ticks LOOP_FUEL (fun t => t <? ofZ 1)%num (ofZ 1 / ofZ 29)%num
           (ofZ 1 / ofZ 29)%num = Normal te
         /\ length te = 29%nat)
  /\ (forall (r0 c : Vec R) (t : R),
         dist (startArc r0 c t) c = dist r0 c)
  /\ (forall (pLast : StrokePoint R) (r t : R),
         dist (endArc pLast r t) (point pLast) = (Rabs r * len (vector pLast))%R).
Proof.
  split; [|split; [|split; [|split]]].
  - intros N num trig cnt o p0 p1 rest H1 H2 H3 H4 H5.
    exact (outline_round_caps o p0 p1 rest H1 H2 H3 H4 H5).
  - exact exact_end_cap_turns.
  - destruct binary64_end_cap_turns as (te & Hte & Hlen & _). eauto.
  - exact dist_startArc.
  - exact dist_endArc.
Qed.

Lemma round_caps_are_arcs_witness :
  let a := {| point := (0, 0); pressure := 1 / 2; vector := (-1, 0);
              distance := 0; runningLength := 0 |}%R in
  let b := {| point := (10, 0); pressure := 1 / 2; vector := (-1, 0);
              distance := 10; runningLength := 10 |}%R in
  exists st r0 ts te,
    mainLoop defaultOptions [a; b] a = Normal st
    /\ nth_error (rightPts st) 0 = Some r0
    /\ length ts = 13%nat
    /\ (28 <= length te)%nat
    /\ getStrokeOutlinePoints [a; b] defaultOptions
       = Normal (leftPts st ++ map (endArc b (radius st)) te
                 ++ rev (rightPts st) ++ map (startArc r0 (point a)) ts).
Proof.
  intros a b.
  destruct round_caps_are_arcs as (Hcaps & _).
  destruct (Hcaps R real_numbers real_trig real_counters defaultOptions a b [])
    as (st & r0 & ts & te & H1 & H2 & _ & H4 & _ & H6 & H7).
  - apply exact_leb_false. cbn. lra.
  - apply (truthy_zero (N := R)).
  - apply (truthy_zero (N := R)).
  - reflexivity.
  - reflexivity.
  - exists st, r0, ts, te. auto.
Defined.

(** ** getStrokeOutlinePoints: translations *)

Section MovedOutline.
Local Open Scope R_scope.

Lemma sub_offset_move (p off v : Vec R) : sub (add p v) off = add (sub p off) v.
Proof.
  destruct p, off, v. unfold add, sub.
  cbn [fst snd nadd nsub real_numbers]. apply vec_eq; ring.
Qed.

Lemma add_offset_move (p off v : Vec R) : add (add p v) off = add (add p off) v.
Proof.
  destruct p, off, v. unfold add.
  cbn [fst snd nadd real_numbers]. apply vec_eq; ring.
Qed.

Lemma rotAround_move (A C v : Vec R) (r : R) :
  rotAround (add A v) (add C v) r = add (rotAround A C r) v.
Proof.
  destruct A, C, v. unfold rotAround, add.
  cbn [fst snd nadd nsub nmul nsin ncos real_numbers real_trig].
  apply vec_eq; ring.
Qed.

Lemma prj_move (A u v : Vec R) (k : R) : prj (add A v) u k = add (prj A u k) v.
Proof. unfold prj. apply add_offset_move. Qed.

Lemma cornerBody_move (v pt offset : Vec R) (t : R) (st : OutlineState R) :
  cornerBody (add pt v) offset t (moveOutline v st)
  = Normal (moveOutline v (cornerTurn pt offset t st)).
Proof.
  unfold cornerBody, cornerTurn, moveOutline.
  cbn [leftPts rightPts prevPressure radius firstRadius prevVector pL pR tL tR].
  rewrite !map_app. cbn [map].
  now rewrite sub_offset_move, add_offset_move, !rotAround_move.
Qed.

Lemma initialPressure_moved (v : Vec R) (o : StrokeOptions R)
    (points : list (StrokePoint R)) (p0 : StrokePoint R) :
  initialPressure o (map (moveStroke v) points) (moveStroke v p0)
  = initialPressure o points p0.
Proof.
  unfold initialPressure. rewrite firstn_map.
  cbn [pressure moveStroke]. generalize (pressure p0).
  induction (firstn 10 points) as [|p l IH]; intros acc; cbn [map fold_left].
  - reflexivity.
  - apply IH.
Qed.

Lemma last_moved (v : Vec R) (points : list (StrokePoint R)) (d : StrokePoint R) :
  last (map (moveStroke v) points) (moveStroke v d) = moveStroke v (last points d).
Proof.
  induction points as [|a [|b l] IH]; try reflexivity.
  exact IH.
Qed.

(** One turn on the moved stroke is the moved turn. *)
Lemma outlineStep_moved (v : Vec R) o points total md i p (st : OutlineState R) :
  alike (fun s s' => s' = moveOutline v s)
    (outlineStep o points total md i p st)
    (outlineStep o (map (moveStroke v) points) total md i (moveStroke v p)
       (moveOutline v st)).
Proof.
  unfold outlineStep. rewrite length_map.
  change (runningLength (moveStroke v p)) with (runningLength p).
  change (vector (moveStroke v p)) with (vector p).
  change (point (moveStroke v p)) with (add (point p) v).
  change (pressureAt o (moveStroke v p)) with (pressureAt o p).
  change (tapered o total (moveStroke v p)) with (tapered o total p).
  change (prevPressure (moveOutline v st)) with (prevPressure st).
  change (prevVector (moveOutline v st)) with (prevVector st).
  change (firstRadius (moveOutline v st)) with (firstRadius st).
  destruct ((i <? length points - 1)%nat && _); [reflexivity|].
  destruct (i =? length points - 1)%nat.
  - cbn [alike]. unfold moveOutline.
    cbn [leftPts rightPts prevPressure radius firstRadius prevVector pL pR tL tR].
    rewrite !map_app. cbn [map].
    now rewrite sub_offset_move, add_offset_move.
  - unfold lookup. rewrite nth_error_map.
    destruct (nth_error points (i + 1)) as [next|]; cbn [option_map bind]; [|exact I].
    change (vector (moveStroke v next)) with (vector next).
    destruct (dpr (vector p) (vector next) <? ofZ 0)%num.
    + eapply alike_bind with (R := fun s s' => s' = moveOutline v s).
      * match goal with
        | |- alike _ (forT _ _ _ _ _ ?s) (forT _ _ _ _ _ ?s') =>
            change s' with (moveOutline v s)
        end.
        apply forT_alike; [|reflexivity].
        intros t a a' ->. rewrite cornerBody_move. reflexivity.
      * intros s s' ->. reflexivity.
    + cbn [alike]. unfold moveOutline.
      cbn [leftPts rightPts prevPressure radius firstRadius prevVector pL pR tL tR].
      rewrite sub_offset_move, add_offset_move, !dist2_move.
      destruct ((i <=? 1)%nat || _); destruct ((i <=? 1)%nat || _);
        rewrite ?map_app; reflexivity.
Qed.

Lemma outlineLoop_moved (v : Vec R) o points total md :
  forall rest i (st : OutlineState R),
    alike (fun s s' => s' = moveOutline v s)
      (outlineLoop o points total md i rest st)
      (outlineLoop o (map (moveStroke v) points) total md i
         (map (moveStroke v) rest) (moveOutline v st)).
Proof.
  induction rest as [|p rest IH]; intros i st; cbn [map outlineLoop].
  - reflexivity.
  - eapply alike_bind; [apply outlineStep_moved|].
    cbn beta. intros s s' ->. apply IH.
Qed.

Lemma forT_moved (v : Vec R) (g g' : R -> Vec R) fuel cond step t :
  (forall x, g' x = add (g x) v) ->
  forT fuel cond step t (fun t l => Normal (l ++ [g' t])) []
  = bind (forT fuel cond step t (fun t l => Normal (l ++ [g t])) [])
      (fun l => Normal (map (fun q => add q v) l)).
Proof.
  intros Hg.
  assert (H : alike (fun l l' => l' = map (fun q => add q v) l)
                (forT fuel cond step t (fun t l => Normal (l ++ [g t])) [])
                (forT fuel cond step t (fun t l => Normal (l ++ [g' t])) [])).
  { apply forT_alike; [|reflexivity].
    intros x a a' ->. cbn [alike]. rewrite map_app. cbn [map]. now rewrite Hg. }
  destruct (forT fuel cond step t (fun t l => Normal (l ++ [g t])) []),
    (forT fuel cond step t (fun t l => Normal (l ++ [g' t])) []);
    cbn [alike bind] in *; try contradiction; congruence.
Qed.
End MovedOutline.

Section MovedCaps.
Local Open Scope R_scope.

Lemma alike_image (A : Type) (f : A -> A) (c c' : Completion A) :
  alike (fun a a' => a' = f a) c c' -> c' = bind c (fun a => Normal (f a)).
Proof. destruct c, c'; cbn; intros H; try contradiction; congruence. Qed.

Lemma dot_moved (v firstPoint lastPoint : Vec R) (st : OutlineState R) :
  dot (add firstPoint v) (add lastPoint v) (moveOutline v st)
  = bind (dot firstPoint lastPoint st)
      (fun l => Normal (map (fun q => add q v) l)).
Proof.
  unfold dot.
  change (firstRadius (moveOutline v st)) with (firstRadius st).
  change (radius (moveOutline v st)) with (radius st).
  cbv zeta. rewrite sub_move, prj_move.
  match goal with
  | |- _ = bind (forT _ _ _ _ (fun t l => Normal (l ++ [rotAround ?s ?c (@?a t)])) _) _ =>
      apply (forT_moved v (fun t => rotAround s c (a t))
               (fun t => rotAround (add s v) (add c v) (a t)))
  end.
  intros x. apply rotAround_move.
Qed.

Lemma startCapOf_moved (v : Vec R) o n firstPoint (st : OutlineState R) :
  startCapOf o n (add firstPoint v) (moveOutline v st)
  = bind (startCapOf o n firstPoint st)
      (fun l => Normal (map (fun q => add q v) l)).
Proof.
  unfold startCapOf.
  destruct (truthy (taperStart o) || (truthy (taperEnd o) && (n =? 1)%nat));
    [reflexivity|].
  change (rightPts (moveOutline v st)) with (map (fun q => add q v) (rightPts st)).
  change (leftPts (moveOutline v st)) with (map (fun q => add q v) (leftPts st)).
  destruct (capStart o).
  - apply alike_image. apply forT_alike; [|reflexivity].
    intros t a a' ->. destruct (rightPts st) as [|r0 rs]; [exact I|].
    cbn [map lookup nth_error bind alike]. rewrite map_app. cbn [map].
    now rewrite rotAround_move.
  - destruct (leftPts st) as [|l0 ls]; cbn [map lookup nth_error bind];
      [reflexivity|].
    destruct (rightPts st) as [|r0 rs]; cbn [map lookup nth_error bind];
      [reflexivity|].
    cbv zeta. rewrite sub_move.
    now rewrite !sub_offset_move, !(add_offset_move firstPoint _ v).
Qed.

Lemma endCapOf_moved (v : Vec R) o n lastPoint pLast (st : OutlineState R) :
  endCapOf o n (add lastPoint v) (moveStroke v pLast) (moveOutline v st)
  = bind (endCapOf o n lastPoint pLast st)
      (fun l => Normal (map (fun q => add q v) l)).
Proof.
  unfold endCapOf.
  change (vector (moveStroke v pLast)) with (vector pLast).
  change (radius (moveOutline v st)) with (radius st).
  cbv zeta.
  destruct (truthy (taperEnd o) || (truthy (taperStart o) && (n =? 1)%nat));
    [reflexivity|].
  destruct (capEnd o).
  - rewrite prj_move.
    match goal with
    | |- _ = bind (forT _ _ _ _ (fun t l => Normal (l ++ [rotAround ?s ?c (@?a t)])) _) _ =>
        apply (forT_moved v (fun t => rotAround s c (a t))
                 (fun t => rotAround (add s v) (add c v) (a t)))
    end.
    intros x. apply rotAround_move.
  - cbn [bind map].
    now rewrite !sub_offset_move, !(add_offset_move lastPoint _ v).
Qed.

Lemma outline_moved (v : Vec R) (points : list (StrokePoint R)) (o : StrokeOptions R) :
  getStrokeOutlinePoints (map (moveStroke v) points) o
  = bind (getStrokeOutlinePoints points o)
      (fun l => Normal (map (fun q => add q v) l)).
Proof.
  destruct points as [|p0 rest]; [reflexivity|].
  unfold getStrokeOutlinePoints. cbn [map]. cbv beta iota.
  destruct (size o <=? ofZ 0)%num; [reflexivity|].
  change (moveStroke v p0 :: map (moveStroke v) rest)
    with (map (moveStroke v) (p0 :: rest)).
  set (points := p0 :: rest).
  rewrite last_moved, length_map, initialPressure_moved.
  change (runningLength (moveStroke v (last points p0)))
    with (runningLength (last points p0)).
  change (pressure (moveStroke v (last points p0)))
    with (pressure (last points p0)).
  change (vector (moveStroke v p0)) with (vector p0).
  change (point (moveStroke v p0)) with (add (point p0) v).
  change (point (moveStroke v (last points p0)))
    with (add (point (last points p0)) v).
  match goal with
  | |- context [outlineLoop o points ?total ?md 0 points ?st0] =>
      pose proof (outlineLoop_moved v o points total md points 0%nat st0) as Hloop;
      destruct (outlineLoop o points total md 0 points st0) as [st| |]
  end;
  match type of Hloop with
  | alike _ _ ?c' =>
      match goal with
      | |- bind ?c'' _ = _ =>
          change c'' with c'; destruct c' as [st'| |]
      end
  end; cbn [alike] in Hloop; try contradiction; try reflexivity.
  subst st'. cbn [bind].
  destruct (length points =? 1)%nat eqn:Hn.
  - destruct (negb (truthy (taperStart o) || truthy (taperEnd o)) || isComplete o).
    + apply Nat.eqb_eq in Hn. rewrite Hn. cbn [Nat.ltb Nat.leb].
      rewrite add_offset_move. apply dot_moved.
    + cbn [bind]. change (leftPts (moveOutline v st))
        with (map (fun q => add q v) (leftPts st)).
      change (rightPts (moveOutline v st))
        with (map (fun q => add q v) (rightPts st)).
      cbn [app]. now rewrite !app_nil_r, !map_app, !map_rev.
  - assert (Hlt : (1 <? length points)%nat = true).
    { apply Nat.ltb_lt. apply Nat.eqb_neq in Hn. unfold points in *.
      cbn [length] in *. lia. }
    rewrite Hlt, startCapOf_moved.
    destruct (startCapOf o (length points) (point p0) st) as [startCap| |];
      cbn [bind]; try reflexivity.
    rewrite endCapOf_moved.
    destruct (endCapOf o (length points) (point (last points p0))
                (last points p0) st) as [endCap| |];
      cbn [bind]; try reflexivity.
    change (leftPts (moveOutline v st)) with (map (fun q => add q v) (leftPts st)).
    change (rightPts (moveOutline v st)) with (map (fun q => add q v) (rightPts st)).
    now rewrite !map_app, map_rev.
Qed.
End MovedCaps.

(** X21. Over the reals, the outline commutes with translations: the
    outline of the stroke points moved by [v] is the outline moved by [v],
    and so is the outline of the stroke points resampled from the input
    moved by [v]. *)
Theorem moved_stroke_gives_moved_outline (v : Vec R) (o : StrokeOptions R) :
  (forall points : list (StrokePoint R),
      getStrokeOutlinePoints (map (moveStroke v) points) o
      = bind (getStrokeOutlinePoints points o)
          (fun l => Normal (map (fun q => add q v) l)))
  /\ (forall (points : Points R) (rc : StrokeOptions R),
         getStrokeOutlinePoints (getStrokePoints (movePoints v points) rc) o
         = bind (getStrokeOutlinePoints (getStrokePoints points rc) o)
             (fun l => Normal (map (fun q => add q v) l))).
Proof.
  split.
  - intros points. apply outline_moved.
  - intros points rc. rewrite getStrokePoints_moved. apply outline_moved.
Qed.

(** ** getStrokePoints: scalings *)

Section ScaledVectors.
Local Open Scope R_scope.
Variable k : R.
Hypothesis k_positive : 0 < k.

Lemma lrp_scale (a b : Vec R) (t : R) :
  lrp (mul a k) (mul b k) t = mul (lrp a b t) k.
Proof.
  destruct a, b. unfold lrp, add, mul, sub.
  cbn [fst snd nadd nsub nmul real_numbers]. apply vec_eq; ring.
Qed.

Lemma sub_scale (a b : Vec R) : sub (mul a k) (mul b k) = mul (sub a b) k.
Proof.
  destruct a, b. unfold mul, sub.
  cbn [fst snd nsub nmul real_numbers]. apply vec_eq; ring.
Qed.

Lemma len_scale (a : Vec R) : len (mul a k) = len a * k.
Proof. rewrite len_mul, Rabs_pos_eq by lra. ring. Qed.

Lemma dist_scale (a b : Vec R) : dist (mul a k) (mul b k) = dist a b * k.
Proof. unfold dist. now rewrite sub_scale, len_scale. Qed.

Lemma exact_eqb_scale (a b : R) : Exact.eqb (a * k) (b * k) = Exact.eqb a b.
Proof.
  destruct (Req_dec_T a b) as [E|E].
  - subst. now rewrite !exact_eqb_true.
  - rewrite (exact_eqb_false a b E). apply exact_eqb_false.
    intros H. apply E. apply (Rmult_eq_reg_r k); lra.
Qed.

Lemma exact_ltb_scale (a b : R) : Exact.ltb (a * k) (b * k) = Exact.ltb a b.
Proof.
  destruct (Rlt_dec a b) as [E|E].
  - rewrite (exact_ltb_true a b E). apply exact_ltb_true.
    now apply Rmult_lt_compat_r.
  - rewrite (exact_ltb_false a b E). apply exact_ltb_false.
    intros H. apply E. apply (Rmult_lt_reg_r k); lra.
Qed.

Lemma isEqual_scale (a b : Vec R) : isEqual (mul a k) (mul b k) = isEqual a b.
Proof.
  destruct a, b. unfold isEqual, mul.
  cbn [fst snd nmul neqb real_numbers]. now rewrite !exact_eqb_scale.
Qed.

Lemma uni_scale (a : Vec R) : uni (mul a k) = uni a.
Proof.
  unfold uni. cbv zeta. rewrite len_scale. cbn [neqb ofZ real_numbers].
  destruct (Req_dec_T (len a) 0) as [E|E].
  - rewrite E, Rmult_0_l. now rewrite !exact_eqb_true.
  - rewrite (exact_eqb_false (len a) 0 E).
    rewrite exact_eqb_false by (intros H; apply E; nra).
    destruct a as [x y]. unfold mul. cbn [fst snd nmul ndiv real_numbers].
    apply vec_eq; field; lra.
Qed.

Lemma xy_scale (p : InputPoint R) : xy (scaleInput k p) = mul (xy p) k.
Proof. reflexivity. Qed.

Lemma toArrays_scale (points : Points R) :
  toArrays (scalePoints k points) = map (scaleInput k) (toArrays points).
Proof.
  destruct points as [l|l]; cbn [scalePoints toArrays]; [reflexivity|].
  rewrite !map_map. apply map_ext. reflexivity.
Qed.

Lemma preparePoints_scale (points : Points R) :
  (2 <= length (toArrays points))%nat ->
  preparePoints (scalePoints k points)
  = map (scaleInput k) (preparePoints points).
Proof.
  unfold preparePoints. rewrite toArrays_scale. intros Hlen.
  destruct (toArrays points) as [|a [|b [|c l]]]; cbn [length] in Hlen; try lia.
  - cbn [map addExtraPoints addOffsetPoint]. rewrite !xy_scale, !lrp_scale.
    reflexivity.
  - reflexivity.
Qed.

Lemma candidate_scale complete t max i raw st :
  candidate complete t max i (scaleInput k raw) (scaleResample k st)
  = mul (candidate complete t max i raw st) k.
Proof.
  unfold candidate. cbn [prev scaleResample scaleStroke point].
  destruct (complete && (i =? max)%nat).
  - apply xy_scale.
  - rewrite xy_scale. apply lrp_scale.
Qed.

Lemma resampleStep_scale complete t sz max i raw st :
  resampleStep complete t (sz * k) max i (scaleInput k raw) (scaleResample k st)
  = scaleResample k (resampleStep complete t sz max i raw st).
Proof.
  pose proof (candidate_scale complete t max i raw st) as Hc.
  unfold resampleStep.
  fold (candidate complete t max i (scaleInput k raw) (scaleResample k st)).
  fold (candidate complete t max i raw st).
  rewrite Hc. cbn [prev scaleResample scaleStroke point totalLength strokePoints
                   hasReachedMinimumLength].
  rewrite isEqual_scale, dist_scale, sub_scale, uni_scale.
  change (pressureOr (scaleInput k raw)) with (pressureOr raw).
  cbn [nadd nltb real_numbers].
  replace (totalLength st * k
           + dist (candidate complete t max i raw st) (point (prev st)) * k)
    with ((totalLength st
           + dist (candidate complete t max i raw st) (point (prev st))) * k)
    by ring.
  rewrite exact_ltb_scale.
  destruct (isEqual (point (prev st)) (candidate complete t max i raw st));
    [reflexivity|].
  destruct ((i <? max)%nat && negb (hasReachedMinimumLength st));
    [destruct (Exact.ltb _ sz)|];
    unfold scaleResample;
    cbn [strokePoints prev totalLength hasReachedMinimumLength scaleStroke point
         pressure vector distance runningLength nmul real_numbers];
    rewrite ?map_app; reflexivity.
Qed.

Lemma resampleLoop_scale complete t sz max :
  forall rest i st,
    resampleLoop complete t (sz * k) max i (map (scaleInput k) rest)
      (scaleResample k st)
    = scaleResample k (resampleLoop complete t sz max i rest st).
Proof.
  induction rest as [|raw rest IH]; intros i st; cbn [map resampleLoop].
  - reflexivity.
  - rewrite resampleStep_scale. apply IH.
Qed.

Lemma setFirstVector_scale (sps : list (StrokePoint R)) :
  setFirstVector (map (scaleStroke k) sps)
  = map (scaleStroke k) (setFirstVector sps).
Proof. destruct sps as [|a [|b l]]; reflexivity. Qed.

Lemma startState_scale (p : InputPoint R) :
  startState (scaleInput k p) = scaleResample k (startState p).
Proof.
  unfold startState, scaleResample, firstStrokePoint, scaleStroke.
  cbn [strokePoints prev totalLength hasReachedMinimumLength map point pressure
       vector distance runningLength in_x in_y scaleInput mul fst snd
       nmul ofZ real_numbers].
  change (pressureOr (scaleInput k p)) with (pressureOr p).
  replace (0 * k) with 0 by ring. reflexivity.
Qed.

Lemma getStrokePoints_scaled (points : Points R) (o : StrokeOptions R) :
  (2 <= length (toArrays points))%nat ->
  getStrokePoints (scalePoints k points) (withSize (size o * k) o)
  = map (scaleStroke k) (getStrokePoints points o).
Proof.
  intros Hlen.
  destruct (toArrays points) as [|a l] eqn:Harr; [cbn in Hlen; lia|].
  destruct (preparePoints_head points a l Harr) as [rest Hpts].
  rewrite (getStrokePoints_loop points o a rest Hpts)
    by (rewrite Harr; discriminate).
  rewrite (getStrokePoints_loop (scalePoints k points) _ (scaleInput k a)
             (map (scaleInput k) rest)).
  - rewrite length_map, startState_scale.
    change (isComplete (withSize (size o * k) o)) with (isComplete o).
    change (interpolation (withSize (size o * k) o)) with (interpolation o).
    change (size (withSize (size o * k) o)) with (size o * k).
    rewrite resampleLoop_scale. cbn [strokePoints scaleResample].
    apply setFirstVector_scale.
  - rewrite preparePoints_scale by (rewrite Harr; exact Hlen).
    now rewrite Hpts.
  - rewrite toArrays_scale, Harr. discriminate.
Qed.
End ScaledVectors.

(** X22. Over the reals, the resampler commutes with scalings: for an
    input of two points or more, multiplying the positions and the size by
    [k > 0] multiplies the position, the distance and the running length
    of every stroke point by [k] and changes neither their number nor
    their pressures and vectors.  (To one input point the second point is
    added at the fixed offset (1,1).) *)
Theorem scaled_input_gives_scaled_stroke_points
    (k : R) (points : Points R) (o : StrokeOptions R) :
  (0 < k)%R ->
  (2 <= length (toArrays points))%nat ->
  getStrokePoints (scalePoints k points) (withSize (size o * k)%R o)
  = map (scaleStroke k) (getStrokePoints points o).
Proof. intros Hk Hlen. exact (getStrokePoints_scaled k Hk points o Hlen). Qed.

Lemma scaled_input_gives_scaled_stroke_points_witness :
  getStrokePoints
    (scalePoints 2%R (Tuples [tuple 0 0; tuple 10 0; tuple 20 0]%R))
    (withSize (size defaultOptions * 2)%R defaultOptions)
  = map (scaleStroke 2%R)
      (getStrokePoints (Tuples [tuple 0 0; tuple 10 0; tuple 20 0]%R)
         defaultOptions).
Proof.
  apply (scaled_input_gives_scaled_stroke_points 2%R
           (Tuples [tuple 0 0; tuple 10 0; tuple 20 0]%R) defaultOptions).
  - lra.
  - cbn. lia.
Defined.

(** ** AppState.clean *)

Section CleanProperties.
Variable Shape : Type.
Implicit Types shapes done todo : Shapes Shape.

Lemma find_key_absent id done todo :
  ~ In id (map fst done) ->
  find (fun e => String.eqb (fst e) id) (done ++ todo)
  = find (fun e => String.eqb (fst e) id) todo.
Proof.
  induction done as [|e done IH]; intros Hno; cbn [app find map]; [reflexivity|].
  cbn [map In] in Hno.
  destruct (String.eqb (fst e) id) eqn:E.
  - apply String.eqb_eq in E. tauto.
  - apply IH. tauto.
Qed.

Lemma deleteShape_absent id shapes :
  ~ In id (map fst shapes) -> deleteShape id shapes = shapes.
Proof.
  induction shapes as [|e shapes IH]; intros Hno; cbn [deleteShape filter];
    [reflexivity|].
  cbn [map In] in Hno.
  destruct (String.eqb (fst e) id) eqn:E.
  - apply String.eqb_eq in E. tauto.
  - cbn [negb]. f_equal. apply IH. tauto.
Qed.

Lemma deleteShape_app id done todo :
  deleteShape id (done ++ todo) = deleteShape id done ++ deleteShape id todo.
Proof. apply filter_app. Qed.

(** The loop, after the keys of [done], all of which hold a shape. *)
Lemma clean_from done :
  forall todo done',
    done' = done ->
    NoDup (map fst (done' ++ todo)) ->
    fold_left (fun acc id => if isMissing id acc then deleteShape id acc else acc)
      (map fst todo) (done' ++ todo)
    = done' ++ filter holdsShape todo.
Proof.
  intros todo. revert done.
  set (step := fun (acc : Shapes Shape) id =>
                 if isMissing id acc then deleteShape id acc else acc).
  induction todo as [|e todo IH]; intros done done' -> Hnd; cbn [map fold_left filter].
  - reflexivity.
  - rewrite map_app in Hnd. cbn [map] in Hnd.
    pose proof (NoDup_remove_2 _ _ _ Hnd) as Hfresh.
    assert (Hdone : ~ In (fst e) (map fst done))
      by (intros H; apply Hfresh, in_or_app; now left).
    assert (Htodo : ~ In (fst e) (map fst todo))
      by (intros H; apply Hfresh, in_or_app; now right).
    assert (Hget : getShape (fst e) (done ++ e :: todo) = Some (snd e)).
    { unfold getShape. rewrite find_key_absent by exact Hdone. cbn [find].
      now rewrite String.eqb_refl. }
    unfold step at 2. unfold isMissing. rewrite Hget.
    unfold holdsShape at 1.
    destruct (snd e) as [s|] eqn:Es.
    + change (done ++ e :: todo) with (done ++ [e] ++ todo).
      rewrite app_assoc.
      rewrite (IH (done ++ [e]) (done ++ [e]) eq_refl).
      * now rewrite <- app_assoc.
      * rewrite <- app_assoc, map_app. exact Hnd.
    + rewrite deleteShape_app, (deleteShape_absent _ done Hdone).
      cbn [deleteShape filter]. rewrite String.eqb_refl. cbn [negb].
      fold (deleteShape (fst e) todo).
      rewrite (deleteShape_absent _ todo Htodo).
      apply (IH done done eq_refl).
      rewrite map_app. apply NoDup_remove_1 in Hnd. exact Hnd.
Qed.

Lemma clean_filter shapes :
  NoDup (map fst shapes) -> clean shapes = filter holdsShape shapes.
Proof. intros Hnd. exact (clean_from [] shapes [] eq_refl Hnd). Qed.

Lemma keys_filter id shapes :
  In id (map fst (filter holdsShape shapes)) -> In id (map fst shapes).
Proof.
  intros Hin. apply in_map_iff in Hin as (x & Hx & Hin).
  apply filter_In in Hin as [Hin _]. apply in_map_iff. eauto.
Qed.

Lemma find_absent id shapes :
  ~ In id (map fst shapes) ->
  find (fun e => String.eqb (fst e) id) shapes = None.
Proof.
  induction shapes as [|e shapes IH]; intros Hno; cbn [find]; [reflexivity|].
  cbn [map In] in Hno.
  destruct (String.eqb (fst e) id) eqn:E.
  - apply String.eqb_eq in E. tauto.
  - apply IH. tauto.
Qed.

Lemma getShape_filter id shapes :
  NoDup (map fst shapes) ->
  getShape id (filter holdsShape shapes)
  = match getShape id shapes with
    | Some (Some s) => Some (Some s)
    | _ => None
    end.
Proof.
  unfold getShape. induction shapes as [|e shapes IH]; intros Hnd;
    cbn [filter find option_map map]; [reflexivity|].
  cbn [map] in Hnd. inversion Hnd as [|? ? Hfresh Hnd']; subst.
  destruct (String.eqb (fst e) id) eqn:E.
  - apply String.eqb_eq in E. subst id. unfold holdsShape at 1.
    destruct (snd e) as [s|] eqn:Es; cbn [option_map].
    + cbn [find]. rewrite String.eqb_refl. cbn [option_map]. now rewrite Es.
    + rewrite find_absent; [cbn [option_map]; now rewrite Es|].
      intros Hin. apply Hfresh. now apply keys_filter.
  - destruct (holdsShape e).
    + cbn [find]. rewrite E. now apply IH.
    + now apply IH.
Qed.
End CleanProperties.

(** X23. [clean] leaves exactly the properties of [state.page.shapes] that
    hold a shape, in their order: a key has its shape afterwards if it had
    one before, and is absent otherwise; cleaning twice is cleaning once. *)
Theorem clean_keeps_the_shapes_only (Shape : Type) (shapes : Shapes Shape) :
  NoDup (map fst shapes) ->
  clean shapes = filter holdsShape shapes
  /\ (forall id,
         getShape id (clean shapes)
         = match getShape id shapes with
           | Some (Some s) => Some (Some s)
           | _ => None
           end)
  /\ clean (clean shapes) = clean shapes.
Proof.
  intros Hnd. split; [now apply clean_filter|]. split.
  - intros id. rewrite clean_filter by exact Hnd. now apply getShape_filter.
  - rewrite (clean_filter Shape shapes Hnd).
    rewrite clean_filter.
    + induction shapes as [|e shapes IH]; [reflexivity|].
      cbn [map] in Hnd. inversion Hnd; subst. cbn [filter].
      destruct (holdsShape e) eqn:E; cbn [filter]; rewrite ?E, IH; auto.
    + clear -Hnd. induction shapes as [|e shapes IH]; [constructor|].
      cbn [map] in Hnd. inversion Hnd as [|? ? Hfresh Hnd']; subst. cbn [filter].
      destruct (holdsShape e); [|now apply IH].
      cbn [map]. constructor; [|now apply IH].
      intros Hin. apply Hfresh. now apply keys_filter.
Qed.

Section CleanWitness.
Import String.
Local Open Scope string_scope.

Lemma clean_keeps_the_shapes_only_witness :
  clean [("a", Some tt); ("b", None); ("c", Some tt)]
  = [("a", Some tt); ("c", Some tt)].
Proof.
  destruct (clean_keeps_the_shapes_only unit
              [("a", Some tt); ("b", None); ("c", Some tt)])
    as [H _].
  - cbn [map fst]. constructor; [|constructor; [|constructor; [|constructor]]];
      cbn [In]; intuition discriminate.
  - exact H.
Defined.
End CleanWitness.
